(** * AnalogGyro: calibration and raw-to-physical conversion

    A shallow embedding of [wpilibc/athena/src/AnalogGyro.cpp].

    The C++ [float] and [double] types are IEEE-754 binary32 and binary64;
    they are modelled by [spec_float] of the Standard Library, whose
    operations are parameterised by the precision and the exponent bound
    and round to nearest, ties to even.  Integer types are [Z] together
    with the range of the type.  The methods read and write the object and
    the analog channel it points to, so they are functions in a state monad
    whose outcome is either a normal return or a fault (a null dereference
    or an operation whose behaviour C++ leaves undefined). *)

From Stdlib Require Import ZArith QArith Qpower Qabs Lia List Bool String.
From Stdlib Require Import SpecFloat.
From Stdlib Require Import Lqa.
Import ListNotations.

Local Open Scope Z_scope.

(** ** IEEE-754 arithmetic in the two formats the source uses *)

Module IEEE.

Section Format.
Variables prec emax : Z.

(** Conversion of an integer to the format (round to nearest). *)
Definition of_Z (z : Z) : spec_float :=
  binary_normalize prec emax z 0 false.

(** Conversion of a number of another format to this one. *)
Definition of_float (x : spec_float) : spec_float :=
  match x with
  | S754_finite s m e => binary_round prec emax s m e
  | _ => x
  end.
End Format.

(** Floating-integral conversion [conv.fpint]: the fractional part is
    discarded.  Not-a-number and the infinities have no integer part. *)
Definition truncate (x : spec_float) : option Z :=
  match x with
  | S754_zero _ => Some 0
  | S754_finite s m e =>
      Some (cond_Zopp s
              (match e with
               | Z0 => Zpos m
               | Zpos _ => Zpos m * 2 ^ e
               | Zneg p => Zpos m / 2 ^ Zpos p
               end))
  | _ => None
  end.

(** The conversion is defined only when the truncated value fits the
    destination type [lo .. hi]. *)
Definition to_integer (lo hi : Z) (x : spec_float) : option Z :=
  match truncate x with
  | Some z => if (lo <=? z) && (z <=? hi) then Some z else None
  | None => None
  end.

(** The rational number a finite value denotes (0 for the others). *)
Definition SF2Q (x : spec_float) : Q :=
  match x with
  | S754_finite s m e => (inject_Z (cond_Zopp s (Zpos m)) * Qpower 2 e)%Q
  | _ => 0%Q
  end.

Definition is_finite (x : spec_float) : bool :=
  match x with
  | S754_zero _ | S754_finite _ _ _ => true
  | _ => false
  end.

Definition is_zero (x : spec_float) : bool :=
  match x with
  | S754_zero _ => true
  | _ => false
  end.

Definition is_nan (x : spec_float) : bool :=
  match x with
  | S754_nan => true
  | _ => false
  end.

(** The second half of [binary_round_aux]: the renormalisation of a
    mantissa [r] that has been rounded at exponent [g]. *)
Definition finish (prec emax : Z) (sx : bool) (r g : Z) : spec_float :=
  let '(mrs, e) := shr_fexp prec emax r g loc_Exact in
  match shr_m mrs with
  | Z0 => S754_zero sx
  | Zpos m =>
      if e <=? emax - prec then S754_finite sx m e else S754_infinity sx
  | Zneg _ => S754_nan
  end.

(** Truncation of a rational number toward zero. *)
Definition Qtruncate (q : Q) : Z := Z.quot (Qnum q) (Zpos (Qden q)).

End IEEE.

(** Every finite number of the two formats is an integer multiple of
    [2 ^ -1074]; [scaled x] is that integer. *)
Definition scale := 1074.

Definition scaled (x : spec_float) : Z :=
  match x with
  | S754_finite s m e => cond_Zopp s (Zpos m) * 2 ^ (e + scale)
  | _ => 0
  end.

(** [represents x v]: [x] is a zero or a finite number, of exponent at
    least [- scale], whose value is [v / 2 ^ scale]. *)
Definition represents (x : spec_float) (v : Z) : Prop :=
  match x with
  | S754_zero _ => v = 0
  | S754_finite s m e => - scale <= e /\ scaled x = v
  | _ => False
  end.

(** binary32, the C++ [float]. *)
Module F32.
Definition prec := 24.
Definition emax := 128.
Definition add := SFadd prec emax.
Definition sub := SFsub prec emax.
Definition mul := SFmul prec emax.
Definition div := SFdiv prec emax.
Definition of_Z := IEEE.of_Z prec emax.
Definition of_double := IEEE.of_float prec emax.
Definition valid := valid_binary prec emax.
Definition zero := S754_zero false.
End F32.

(** binary64, the C++ [double]. *)
Module F64.
Definition prec := 53.
Definition emax := 1024.
Definition add := SFadd prec emax.
Definition sub := SFsub prec emax.
Definition mul := SFmul prec emax.
Definition div := SFdiv prec emax.
Definition of_Z := IEEE.of_Z prec emax.
Definition of_float := IEEE.of_float prec emax.
Definition valid := valid_binary prec emax.
Definition zero := S754_zero false.
(** The literals of the source. *)
Definition lit_0_5 := Eval vm_compute in div (of_Z 1) (of_Z 2).
Definition lit_0_1 := Eval vm_compute in div (of_Z 1) (of_Z 10).
Definition lit_1e9 := Eval vm_compute in of_Z 1000000000.
Definition lit_1em9 := Eval vm_compute in div (of_Z 1) (of_Z 1000000000).
End F64.

Definition float := spec_float.
Definition double := spec_float.

(** Ranges of the integer types. *)
Definition INT32_MIN := - 2 ^ 31.
Definition INT32_MAX := 2 ^ 31 - 1.
Definition UINT32_MAX := 2 ^ 32 - 1.
Definition INT64_MIN := - 2 ^ 63.
Definition INT64_MAX := 2 ^ 63 - 1.

(** ** The analog channel

    [AnalogInput] is declared outside this file.  The gyro only uses the
    operations below; the fields are what these operations read and
    write, with the types section 6 of the specification gives them. *)

Record AnalogInput := mkAnalogInput {
  ai_channel : Z;
  ai_isAccumulatorChannel : bool;
  ai_averageBits : Z;
  ai_oversampleBits : Z;
  ai_sampleRate : double;
  ai_lsbWeight : double;
  ai_averageValue : double;
  ai_accumulatorValue : Z;
  ai_accumulatorCount : Z;
  ai_accumulatorCenter : Z;
  ai_accumulatorDeadband : Z
}.

(** Modelled from the spec: the methods of [AnalogInput], whose source is
    not part of the file.  Section 6 of the specification gives their
    signatures: the setters store their argument, the getters read it back,
    [initAccumulator] brings the accumulator to a clean zero state and
    [resetAccumulator] clears it. *)
Module AnalogInputOps.

Definition IsAccumulatorChannel (a : AnalogInput) : bool :=
  ai_isAccumulatorChannel a.

Definition GetChannel (a : AnalogInput) : Z := ai_channel a.
Definition GetAverageBits (a : AnalogInput) : Z := ai_averageBits a.
Definition GetOversampleBits (a : AnalogInput) : Z := ai_oversampleBits a.
Definition GetSampleRate (a : AnalogInput) : double := ai_sampleRate a.
Definition GetLSBWeight (a : AnalogInput) : double := ai_lsbWeight a.
Definition GetAverageValue (a : AnalogInput) : double := ai_averageValue a.

Definition GetAccumulatorOutput (a : AnalogInput) : Z * Z :=
  (ai_accumulatorValue a, ai_accumulatorCount a).

Definition SetAverageBits (n : Z) (a : AnalogInput) : AnalogInput :=
  mkAnalogInput (ai_channel a) (ai_isAccumulatorChannel a) n
    (ai_oversampleBits a) (ai_sampleRate a) (ai_lsbWeight a)
    (ai_averageValue a) (ai_accumulatorValue a) (ai_accumulatorCount a)
    (ai_accumulatorCenter a) (ai_accumulatorDeadband a).

Definition SetOversampleBits (n : Z) (a : AnalogInput) : AnalogInput :=
  mkAnalogInput (ai_channel a) (ai_isAccumulatorChannel a)
    (ai_averageBits a) n (ai_sampleRate a) (ai_lsbWeight a)
    (ai_averageValue a) (ai_accumulatorValue a) (ai_accumulatorCount a)
    (ai_accumulatorCenter a) (ai_accumulatorDeadband a).

Definition SetSampleRate (hz : double) (a : AnalogInput) : AnalogInput :=
  mkAnalogInput (ai_channel a) (ai_isAccumulatorChannel a)
    (ai_averageBits a) (ai_oversampleBits a) hz (ai_lsbWeight a)
    (ai_averageValue a) (ai_accumulatorValue a) (ai_accumulatorCount a)
    (ai_accumulatorCenter a) (ai_accumulatorDeadband a).

Definition set_accumulator (v c : Z) (a : AnalogInput) : AnalogInput :=
  mkAnalogInput (ai_channel a) (ai_isAccumulatorChannel a)
    (ai_averageBits a) (ai_oversampleBits a) (ai_sampleRate a)
    (ai_lsbWeight a) (ai_averageValue a) v c
    (ai_accumulatorCenter a) (ai_accumulatorDeadband a).

Definition InitAccumulator (a : AnalogInput) : AnalogInput :=
  set_accumulator 0 0 a.

Definition ResetAccumulator (a : AnalogInput) : AnalogInput :=
  set_accumulator 0 0 a.

Definition SetAccumulatorCenter (c : Z) (a : AnalogInput) : AnalogInput :=
  mkAnalogInput (ai_channel a) (ai_isAccumulatorChannel a)
    (ai_averageBits a) (ai_oversampleBits a) (ai_sampleRate a)
    (ai_lsbWeight a) (ai_averageValue a) (ai_accumulatorValue a)
    (ai_accumulatorCount a) c (ai_accumulatorDeadband a).

Definition SetAccumulatorDeadband (d : Z) (a : AnalogInput) : AnalogInput :=
  mkAnalogInput (ai_channel a) (ai_isAccumulatorChannel a)
    (ai_averageBits a) (ai_oversampleBits a) (ai_sampleRate a)
    (ai_lsbWeight a) (ai_averageValue a) (ai_accumulatorValue a)
    (ai_accumulatorCount a) (ai_accumulatorCenter a) d.

End AnalogInputOps.
Import AnalogInputOps.

(** ** The gyro object and the world around it *)

Inductive WPIError := NullParameter | ParameterOutOfRange.

Inductive PIDSourceType := kDisplacement | kRate.

(** [m_analog] is a shared pointer: [None] is [nullptr], [Some a] points to
    a channel whose current state is [a].  [m_error] is the error of the
    [ErrorBase] part of the object. *)
Record AnalogGyro := mkAnalogGyro {
  m_analog : option AnalogInput;
  m_voltsPerDegreePerSecond : float;
  m_offset : float;
  m_center : Z;
  m_error : option WPIError;
  m_pidSource : PIDSourceType
}.

(** What the object does to the rest of the system. *)
Inductive Event :=
| EvWait (seconds : double)
| EvHALReport (channel : Z)
| EvLiveWindowAddSensor (channel : Z).

Record World := mkWorld {
  self : AnalogGyro;
  events : list Event
}.

(** The constants of [AnalogGyro.h]. *)
Record Constants := mkConstants {
  kOversampleBits : Z;
  kAverageBits : Z;
  kSamplesPerSecond : float;
  kCalibrationSampleTime : float;
  kDefaultVoltsPerDegreePerSecond : float
}.

(** ** Outcomes and the monad of the methods *)

Inductive Fault :=
| NullDereference
| UndefinedConversion (x : spec_float)
| UndefinedShift (n : Z)
| SignedOverflow (z : Z).

Inductive Outcome (A : Type) :=
| Done (a : A) (w : World)
| Crash (f : Fault) (w : World).
Arguments Done {A} a w.
Arguments Crash {A} f w.

Definition Exec (A : Type) := World -> Outcome A.

Definition ret {A} (a : A) : Exec A := fun w => Done a w.

Definition bind {A B} (c : Exec A) (k : A -> Exec B) : Exec B :=
  fun w =>
    match c w with
    | Done a w' => k a w'
    | Crash f w' => Crash f w'
    end.

Definition crash {A} (f : Fault) : Exec A := fun w => Crash f w.

Notation "x <- c ;; k" := (bind c (fun x => k))
  (at level 61, c at next level, right associativity).
Notation "c ;;; k" := (bind c (fun _ => k))
  (at level 61, right associativity).

Definition get_self : Exec AnalogGyro := fun w => Done (self w) w.

Definition modify_self (f : AnalogGyro -> AnalogGyro) : Exec unit :=
  fun w => Done tt (mkWorld (f (self w)) (events w)).

Definition emit (e : Event) : Exec unit :=
  fun w => Done tt (mkWorld (self w) (events w ++ [e])).

Definition of_option {A} (f : Fault) (o : option A) : Exec A :=
  match o with
  | Some a => ret a
  | None => crash f
  end.

(** Field assignments. *)
Definition set_analog (p : option AnalogInput) (g : AnalogGyro) :=
  mkAnalogGyro p (m_voltsPerDegreePerSecond g) (m_offset g) (m_center g)
    (m_error g) (m_pidSource g).
Definition set_voltsPerDegreePerSecond (v : float) (g : AnalogGyro) :=
  mkAnalogGyro (m_analog g) v (m_offset g) (m_center g) (m_error g)
    (m_pidSource g).
Definition set_offset (o : float) (g : AnalogGyro) :=
  mkAnalogGyro (m_analog g) (m_voltsPerDegreePerSecond g) o (m_center g)
    (m_error g) (m_pidSource g).
Definition set_center (c : Z) (g : AnalogGyro) :=
  mkAnalogGyro (m_analog g) (m_voltsPerDegreePerSecond g) (m_offset g) c
    (m_error g) (m_pidSource g).
Definition set_error (e : WPIError) (g : AnalogGyro) :=
  mkAnalogGyro (m_analog g) (m_voltsPerDegreePerSecond g) (m_offset g)
    (m_center g) (Some e) (m_pidSource g).
Definition set_pidSource (p : PIDSourceType) (g : AnalogGyro) :=
  mkAnalogGyro (m_analog g) (m_voltsPerDegreePerSecond g) (m_offset g)
    (m_center g) (m_error g) p.

(** [m_analog->f()]: reading through the pointer faults when it is null. *)
Definition analog : Exec AnalogInput :=
  g <- get_self ;; of_option NullDereference (m_analog g).

(** [m_analog->f(x)] for a method that changes the channel. *)
Definition analog_do (f : AnalogInput -> AnalogInput) : Exec unit :=
  a <- analog ;; modify_self (set_analog (Some (f a))).

(** [1 << n] on the 32-bit [int].  Below 31 the result is [2 ^ n].  At 31
    the value [2 ^ 31] does not fit the type: it is converted to [int],
    which the compiler of the target defines as wrapping around, so the
    result is [- 2 ^ 31].  A shift count of 32 or more is not below the
    width of the type, and the behaviour is undefined. *)
Definition shl1 (n : Z) : Exec Z :=
  if (0 <=? n) && (n <? 31) then ret (2 ^ n)
  else if n =? 31 then ret (- 2 ^ 31)
  else crash (UndefinedShift n).

(** Floating-integral conversions to the three integer types used. *)
Definition to_uint32 (x : spec_float) : Exec Z :=
  of_option (UndefinedConversion x) (IEEE.to_integer 0 UINT32_MAX x).
Definition to_int32 (x : spec_float) : Exec Z :=
  of_option (UndefinedConversion x) (IEEE.to_integer INT32_MIN INT32_MAX x).
Definition to_int64 (x : spec_float) : Exec Z :=
  of_option (UndefinedConversion x) (IEEE.to_integer INT64_MIN INT64_MAX x).

(** Subtraction on [int64_t]. *)
Definition int64_sub (a b : Z) : Exec Z :=
  let r := a - b in
  if (INT64_MIN <=? r) && (r <=? INT64_MAX) then ret r
  else crash (SignedOverflow r).

(** Modelled from the spec: the status kept by [ErrorBase], whose source is
    not part of the file.  Section 7: both errors set a persistent fatal
    status on the object, which every later operation can test. *)
Definition StatusIsFatal : Exec bool :=
  g <- get_self ;;
  ret (match m_error g with Some _ => true | None => false end).

Definition wpi_setWPIError (e : WPIError) : Exec unit :=
  modify_self (set_error e).

Definition wpi_setWPIErrorWithContext (e : WPIError) (context : string)
    : Exec unit :=
  modify_self (set_error e).

(** Modelled from the spec: the three sinks of section 6, declared outside
    the file.  [SetPIDSourceType] stores the kind of PID source; the usage
    report and the registration with the diagnostics window are fire and
    forget, and are recorded in the trace. *)
Definition SetPIDSourceType (p : PIDSourceType) : Exec unit :=
  modify_self (set_pidSource p).

Definition HALReport (channel : Z) : Exec unit := emit (EvHALReport channel).

Definition LiveWindow_AddSensor (channel : Z) : Exec unit :=
  emit (EvLiveWindowAddSensor channel).

(** ** The methods of [AnalogGyro] *)

Section Methods.

(** The constants of the header, the channel that
    [std::make_shared<AnalogInput>(channel)] creates, and what the
    hardware does to a channel while the calling thread waits. *)
Variable K : Constants.
Variable new_AnalogInput : Z -> AnalogInput.
Variable elapse : double -> AnalogInput -> AnalogInput.

(** Modelled from the spec: [Wait(seconds)] of [Timer.h], the blocking
    delay of section 5.  The thread is suspended for the duration, which
    the trace records; meanwhile the channel keeps sampling. *)
Definition Wait (seconds : double) : Exec unit :=
  emit (EvWait seconds) ;;;
  modify_self (fun g =>
    match m_analog g with
    | Some a => set_analog (Some (elapse seconds a)) g
    | None => g
    end).

Definition SetDeadband (volts : float) : Exec unit :=
  fatal <- StatusIsFatal ;;
  if fatal then ret tt else
  a <- analog ;;
  let lsb := GetLSBWeight a in
  a' <- analog ;;
  p <- shl1 (GetOversampleBits a') ;;
  deadband <- to_int32
    (F64.mul (F64.div (F64.mul (F64.of_float volts) F64.lit_1e9) lsb)
             (F64.of_Z p)) ;;
  analog_do (SetAccumulatorDeadband deadband).

Definition InitGyro : Exec unit :=
  fatal <- StatusIsFatal ;;
  if fatal then ret tt else
  a <- analog ;;
  if negb (IsAccumulatorChannel a) then
    wpi_setWPIError ParameterOutOfRange ;;;
    modify_self (set_analog None)
  else
    modify_self
      (set_voltsPerDegreePerSecond (kDefaultVoltsPerDegreePerSecond K)) ;;;
    analog_do (SetAverageBits (kAverageBits K)) ;;;
    analog_do (SetOversampleBits (kOversampleBits K)) ;;;
    p <- shl1 ((kAverageBits K + kOversampleBits K) mod 2 ^ 32) ;;
    let sampleRate := F32.mul (kSamplesPerSecond K) (F32.of_Z p) in
    analog_do (SetSampleRate (F64.of_float sampleRate)) ;;;
    Wait F64.lit_0_1 ;;;
    SetDeadband F32.zero ;;;
    SetPIDSourceType kDisplacement ;;;
    a1 <- analog ;;
    HALReport (GetChannel a1) ;;;
    a2 <- analog ;;
    LiveWindow_AddSensor (GetChannel a2).

Definition Calibrate : Exec unit :=
  fatal <- StatusIsFatal ;;
  if fatal then ret tt else
  analog_do InitAccumulator ;;;
  Wait (F64.of_float (kCalibrationSampleTime K)) ;;;
  a <- analog ;;
  let '(value, count) := GetAccumulatorOutput a in
  let mean := F32.div (F32.of_Z value) (F32.of_Z count) in
  center <- to_uint32 (F64.add (F64.of_float mean) F64.lit_0_5) ;;
  modify_self (set_center center) ;;;
  modify_self (set_offset (F32.sub mean (F32.of_Z center))) ;;;
  analog_do (SetAccumulatorCenter center) ;;;
  analog_do ResetAccumulator.

Definition Reset : Exec unit :=
  fatal <- StatusIsFatal ;;
  if fatal then ret tt else
  analog_do ResetAccumulator.

Definition GetAngle : Exec float :=
  fatal <- StatusIsFatal ;;
  if fatal then ret F32.zero else
  a <- analog ;;
  let '(rawValue, count) := GetAccumulatorOutput a in
  g <- get_self ;;
  t <- to_int64 (F32.mul (F32.of_Z count) (m_offset g)) ;;
  value <- int64_sub rawValue t ;;
  a1 <- analog ;;
  let lsb := GetLSBWeight a1 in
  a2 <- analog ;;
  p <- shl1 (GetAverageBits a2) ;;
  a3 <- analog ;;
  let scaledValue :=
    F64.div
      (F64.mul (F64.mul (F64.mul (F64.of_Z value) F64.lit_1em9) lsb)
               (F64.of_Z p))
      (F64.mul (GetSampleRate a3)
               (F64.of_float (m_voltsPerDegreePerSecond g))) in
  ret (F32.of_double scaledValue).

Definition GetRate : Exec double :=
  fatal <- StatusIsFatal ;;
  if fatal then ret F64.zero else
  a <- analog ;;
  g <- get_self ;;
  let bias := F64.add (F64.of_Z (m_center g)) (F64.of_float (m_offset g)) in
  a1 <- analog ;;
  let lsb := GetLSBWeight a1 in
  a2 <- analog ;;
  p <- shl1 (GetOversampleBits a2) ;;
  ret (F64.div
         (F64.mul (F64.mul (F64.sub (GetAverageValue a) bias) F64.lit_1em9)
                  lsb)
         (F64.of_float
            (F32.mul (F32.of_Z p) (m_voltsPerDegreePerSecond g)))).

Definition GetOffset : Exec float := g <- get_self ;; ret (m_offset g).

Definition GetCenter : Exec Z := g <- get_self ;; ret (m_center g).

Definition SetSensitivity (voltsPerDegreePerSecond : float) : Exec unit :=
  modify_self (set_voltsPerDegreePerSecond voltsPerDegreePerSecond).

(** *** Constructors

    The three bias and sensitivity members have no initialiser: when the
    body of a constructor starts they hold whatever [raw] holds.  The
    error is clear and [m_analog] is what the member initialiser list
    gives it. *)
Definition allocate (raw : AnalogGyro) (p : option AnalogInput) : World :=
  mkWorld (mkAnalogGyro p (m_voltsPerDegreePerSecond raw) (m_offset raw)
             (m_center raw) None (m_pidSource raw)) [].

(** [AnalogGyro(std::shared_ptr<AnalogInput> channel)] *)
Definition AnalogGyro_shared (raw : AnalogGyro)
    (channel : option AnalogInput) : Outcome unit :=
  (match channel with
   | None => wpi_setWPIError NullParameter
   | Some _ => InitGyro ;;; Calibrate
   end) (allocate raw channel).

(** [AnalogGyro(int32_t channel)] *)
Definition AnalogGyro_channel (raw : AnalogGyro) (channel : Z)
    : Outcome unit :=
  AnalogGyro_shared raw (Some (new_AnalogInput channel)).

(** [AnalogGyro(AnalogInput* channel)] *)
Definition AnalogGyro_pointer (raw : AnalogGyro)
    (channel : option AnalogInput) : Outcome unit :=
  AnalogGyro_shared raw channel.

(** [AnalogGyro(int32_t channel, uint32_t center, float offset)] *)
Definition AnalogGyro_channel_preset (raw : AnalogGyro) (channel : Z)
    (center : Z) (offset : float) : Outcome unit :=
  (modify_self (set_analog (Some (new_AnalogInput channel))) ;;;
   InitGyro ;;;
   modify_self (set_center center) ;;;
   modify_self (set_offset offset) ;;;
   g <- get_self ;;
   analog_do (SetAccumulatorCenter (m_center g)) ;;;
   analog_do ResetAccumulator) (allocate raw None).

(** [AnalogGyro(std::shared_ptr<AnalogInput> channel, uint32_t center,
    float offset)] *)
Definition AnalogGyro_shared_preset (raw : AnalogGyro)
    (channel : option AnalogInput) (center : Z) (offset : float)
    : Outcome unit :=
  (match channel with
   | None => wpi_setWPIError NullParameter
   | Some _ =>
       InitGyro ;;;
       modify_self (set_center center) ;;;
       modify_self (set_offset offset) ;;;
       g <- get_self ;;
       analog_do (SetAccumulatorCenter (m_center g)) ;;;
       analog_do ResetAccumulator
   end) (allocate raw channel).

End Methods.

(** ** Sample data used by the examples *)

Module Sample.

Definition K : Constants :=
  mkConstants 10 0 (F32.of_Z 50) (F32.of_Z 5)
    (F32.of_double (F64.div (F64.of_Z 7) (F64.of_Z 1000))).

(** An accumulator channel with an LSB weight of 1000. *)
Definition channel : AnalogInput :=
  mkAnalogInput 0 true 0 2 (F64.of_Z 51200) (F64.of_Z 1000)
    (F64.of_Z 0) 0 0 0 0.

(** A channel that cannot accumulate. *)
Definition plain_channel : AnalogInput :=
  mkAnalogInput 5 false 0 0 (F64.of_Z 51200) (F64.of_Z 1000)
    (F64.of_Z 0) 0 0 0 0.

Definition raw : AnalogGyro :=
  mkAnalogGyro None (F32.of_Z 3) (F32.of_Z 9) 77 None kRate.

(** Hardware that, during any wait, adds [v] to the accumulated value and
    [n] to the number of samples. *)
Definition gather (v n : Z) (_ : double) (a : AnalogInput) : AnalogInput :=
  set_accumulator (ai_accumulatorValue a + v) (ai_accumulatorCount a + n) a.

(** Hardware that gathers nothing. *)
Definition silent (_ : double) (a : AnalogInput) : AnalogInput := a.

(** The same channel with another LSB weight, oversampling and
    accumulator content. *)
Definition channel_with (lsbWeight oversampleBits value count : Z)
    : AnalogInput :=
  mkAnalogInput 0 true 0 oversampleBits (F64.of_Z 51200)
    (F64.of_Z lsbWeight) (F64.of_Z 0) value count 0 0.

(** A channel at rest after the calibration on 21 counts in 2 samples:
    its averaged value is 10.5. *)
Definition at_rest : AnalogInput :=
  mkAnalogInput 0 true 0 2 (F64.of_Z 51200) (F64.of_Z 1000)
    (F64.div (F64.of_Z 21) (F64.of_Z 2)) 0 0 11 0.

(** A channel that shows the averaged value [avg]: LSB weight 1000,
    oversampling depth 2, accumulator centred on [center]. *)
Definition reading (avg center : Z) : AnalogInput :=
  mkAnalogInput 0 true 0 2 (F64.of_Z 51200) (F64.of_Z 1000)
    (F64.of_Z avg) 0 0 center 0.

(** A few numbers. *)
Definition quarter : float := F32.div (F32.of_Z 1) (F32.of_Z 4).
Definition half : float := F32.div (F32.of_Z 1) (F32.of_Z 2).

(** A usable object on [a], as the preset constructor leaves it. *)
Definition gyro_on (a : AnalogInput) (center : Z) (offset : float)
    : World :=
  mkWorld (mkAnalogGyro (Some a) (kDefaultVoltsPerDegreePerSecond K) offset
             center None kDisplacement) [].

End Sample.

(** ** Reading outcomes and traces *)

Definition final {A} (o : Outcome A) : World :=
  match o with
  | Done _ w => w
  | Crash _ w => w
  end.

Definition waits (l : list Event) : list double :=
  flat_map (fun ev => match ev with EvWait d => [d] | _ => [] end) l.

Definition fatal (w : World) : bool :=
  match m_error (self w) with Some _ => true | None => false end.

(** The object is usable on the channel state [a]: no error is recorded and
    [m_analog] points to [a]. *)
Definition usable (w : World) (a : AnalogInput) : Prop :=
  m_error (self w) = None /\ m_analog (self w) = Some a.

(** The world with the channel of the object in state [a]. *)
Definition with_channel (a : AnalogInput) (w : World) : World :=
  mkWorld (set_analog (Some a) (self w)) (events w).

(** ** The formulas of the specification *)

(** Section 4.3, the angle of a corrected accumulator value. *)
Definition angle_of (corrected : Z) (lsbWeight : double) (averageBits : Z)
    (sampleRate : double) (sensitivity : float) : float :=
  F32.of_double
    (F64.div
       (F64.mul (F64.mul (F64.mul (F64.of_Z corrected) F64.lit_1em9)
                         lsbWeight)
                (F64.of_Z (2 ^ averageBits)))
       (F64.mul sampleRate (F64.of_float sensitivity))).

(** Section 4.3, the rate. *)
Definition rate_of (avg : double) (center : Z) (offset : float)
    (lsbWeight : double) (oversampleBits : Z) (sensitivity : float)
    : double :=
  F64.div
    (F64.mul
       (F64.mul
          (F64.sub avg (F64.add (F64.of_Z center) (F64.of_float offset)))
          F64.lit_1em9)
       lsbWeight)
    (F64.of_float (F32.mul (F32.of_Z (2 ^ oversampleBits)) sensitivity)).

(** Section 4.4, the deadband before it becomes a count. *)
Definition deadband_of (volts : float) (lsbWeight : double)
    (oversampleBits : Z) : double :=
  F64.mul (F64.div (F64.mul (F64.of_float volts) F64.lit_1e9) lsbWeight)
          (F64.of_Z (2 ^ oversampleBits)).

(** Section 4.1 defines [round] as adding one half and truncating. *)
Definition round_half_up (x : float) : option Z :=
  IEEE.to_integer INT64_MIN INT64_MAX
    (F64.add (F64.of_float x) F64.lit_0_5).

(** Section 4.3 as written: the correction is [round (count * offset)]. *)
Definition angle_as_specified (a : AnalogInput) (g : AnalogGyro)
    : option float :=
  let '(raw, count) := GetAccumulatorOutput a in
  match round_half_up (F32.mul (F32.of_Z count) (m_offset g)) with
  | Some t =>
      Some (angle_of (raw - t) (GetLSBWeight a) (GetAverageBits a)
              (GetSampleRate a) (m_voltsPerDegreePerSecond g))
  | None => None
  end.

(** The mean that [Calibrate] computes from the accumulator of [a]. *)
Definition mean_of (a : AnalogInput) : float :=
  F32.div (F32.of_Z (ai_accumulatorValue a))
          (F32.of_Z (ai_accumulatorCount a)).

(** The channel as [Calibrate] reads it after its sampling window. *)
Definition calibration_reading (K : Constants)
    (elapse : double -> AnalogInput -> AnalogInput) (a : AnalogInput)
    : AnalogInput :=
  elapse (F64.of_float (kCalibrationSampleTime K)) (InitAccumulator a).

(** ** The channel during a construction *)

(** The channel as [InitGyro] has programmed it when the settling wait
    starts. *)
Definition configured (K : Constants) (a : AnalogInput) : AnalogInput :=
  SetSampleRate
    (F64.of_float
       (F32.mul (kSamplesPerSecond K)
          (F32.of_Z (2 ^ ((kAverageBits K + kOversampleBits K) mod 2 ^ 32)))))
    (SetOversampleBits (kOversampleBits K)
       (SetAverageBits (kAverageBits K) a)).

(** The channel when the settling wait of [InitGyro] is over. *)
Definition settled (K : Constants)
    (elapse : double -> AnalogInput -> AnalogInput) (a : AnalogInput)
    : AnalogInput :=
  elapse F64.lit_0_1 (configured K a).

(** The channel when [InitGyro] returns: the deadband is zero. *)
Definition initialised (K : Constants)
    (elapse : double -> AnalogInput -> AnalogInput) (a : AnalogInput)
    : AnalogInput :=
  SetAccumulatorDeadband 0 (settled K elapse a).

(** The trace of [InitGyro] on a channel numbered [n]. *)
Definition InitGyro_trace (n : Z) : list Event :=
  [EvWait F64.lit_0_1; EvHALReport n; EvLiveWindowAddSensor n].

(** [below_pow2 x k]: [x] is a number, and its absolute value is below
    [2 ^ k]. *)
Definition below_pow2 (x : spec_float) (k : Z) : Prop :=
  match x with
  | S754_zero _ => True
  | S754_finite _ m e => Zdigits2 (Zpos m) + e <= k
  | _ => False
  end.

(** [at_least_pow2 x k]: [x] is finite and not zero, and its absolute
    value is at least [2 ^ k]. *)
Definition at_least_pow2 (x : spec_float) (k : Z) : Prop :=
  match x with
  | S754_finite _ m e => k + 1 <= Zdigits2 (Zpos m) + e
  | _ => False
  end.

(** [zero_or_between x lo hi]: [x] is a zero, or a number whose absolute
    value is at least [2 ^ lo] and below [2 ^ hi]. *)
Definition zero_or_between (x : spec_float) (lo hi : Z) : Prop :=
  match x with
  | S754_zero _ => True
  | S754_finite _ m e => lo + 1 <= Zdigits2 (Zpos m) + e <= hi
  | _ => False
  end.

(** [within u x q]: the rational number [x] is [q] up to the relative
    error [u]. *)
Definition within (u x q : Q) : Prop := (Qabs (x - q) <= u * Qabs q)%Q.

(** ** Tactics for running the methods *)

(** Unfolding of the monad and of the record operations. *)
Ltac run :=
  cbv beta iota zeta delta
    [bind ret crash get_self modify_self emit of_option analog analog_do
     StatusIsFatal wpi_setWPIError wpi_setWPIErrorWithContext
     SetPIDSourceType HALReport
     LiveWindow_AddSensor Wait to_uint32 to_int32 to_int64
     self events m_analog m_voltsPerDegreePerSecond m_offset m_center
     m_error m_pidSource set_analog set_voltsPerDegreePerSecond set_offset
     set_center set_error set_pidSource with_channel allocate fatal final].

Ltac open_world w :=
  destruct w as [[?an ?sens ?off ?cen ?err ?pid] ?evs].

Ltac run_in H :=
  cbv beta iota zeta delta
    [bind ret crash get_self modify_self emit of_option analog analog_do
     StatusIsFatal wpi_setWPIError wpi_setWPIErrorWithContext
     SetPIDSourceType HALReport
     LiveWindow_AddSensor Wait to_uint32 to_int32 to_int64
     self events m_analog m_voltsPerDegreePerSecond m_offset m_center
     m_error m_pidSource set_analog set_voltsPerDegreePerSecond set_offset
     set_center set_error set_pidSource with_channel allocate fatal final]
    in H.

(** Case analysis on every test and conversion a run goes through; the
    runs that fault cannot be the run [H] speaks of. *)
Ltac split_run H :=
  repeat match type of H with
         | context [if ?c then _ else _] =>
             let E := fresh "E" in destruct c eqn:E; try discriminate H
         | context [match ?x with Some _ => _ | None => _ end] =>
             let E := fresh "E" in destruct x eqn:E; try discriminate H
         end.

(** Case analysis on every test and conversion in the goal. *)
Ltac branches :=
  repeat match goal with
         | |- context [if ?c then _ else _] => destruct c
         | |- context [match ?x with Some _ => _ | None => _ end] =>
             destruct x
         end.

(** * Facts about the arithmetic

    The Standard Library specifies the operations and proves nothing about
    them; the facts the claims need are proved here. *)

(** ** Number of binary digits *)

Lemma digits2_pos_size (p : positive) : digits2_pos p = Pos.size p.
Proof. induction p; simpl; congruence. Qed.

Lemma Zdigits2_log2 (m : Z) : 0 < m -> Zdigits2 m = Z.log2 m + 1.
Proof.
  destruct m as [|p|p]; try lia. intros _.
  destruct p; simpl; rewrite ?digits2_pos_size; lia.
Qed.

Lemma Zdigits2_spec (m : Z) :
  0 < m -> 2 ^ (Zdigits2 m - 1) <= m < 2 ^ Zdigits2 m.
Proof.
  intros H. rewrite (Zdigits2_log2 m H).
  replace (Z.log2 m + 1 - 1) with (Z.log2 m) by lia.
  apply (Z.log2_spec m H).
Qed.

Lemma Zdigits2_unique (m k : Z) :
  0 < m -> 2 ^ (k - 1) <= m < 2 ^ k -> Zdigits2 m = k.
Proof.
  intros H [H1 H2]. rewrite (Zdigits2_log2 m H).
  assert (0 < k).
  { destruct (Z_lt_le_dec 0 k) as [|Hk]; [assumption|].
    assert (2 ^ k <= 1).
    { destruct (Z.eq_dec k 0) as [->|]; [simpl; lia|].
      rewrite Z.pow_neg_r by lia. lia. }
    lia. }
  rewrite (Z.log2_unique m (k - 1)); try lia.
  replace (Z.succ (k - 1)) with k by lia. lia.
Qed.

Lemma Zdigits2_nonneg (m : Z) : 0 <= Zdigits2 m.
Proof. destruct m; simpl; lia. Qed.

Lemma Zdigits2_pos (m : Z) : 0 < m -> 0 < Zdigits2 m.
Proof. destruct m; simpl; lia. Qed.

Lemma Zdigits2_mul_pow2 (m k : Z) :
  0 < m -> 0 <= k -> Zdigits2 (m * 2 ^ k) = Zdigits2 m + k.
Proof.
  intros Hm Hk. pose proof (Zdigits2_spec m Hm) as [H1 H2].
  pose proof (Zdigits2_pos m Hm).
  assert (0 < 2 ^ k) by (apply Z.pow_pos_nonneg; lia).
  apply Zdigits2_unique; [nia|].
  replace (Zdigits2 m + k - 1) with (Zdigits2 m - 1 + k) by lia.
  rewrite !Z.pow_add_r by lia. nia.
Qed.

Lemma Zdigits2_div_pow2 (m n : Z) :
  0 < m -> 0 <= n -> 0 < m / 2 ^ n -> Zdigits2 (m / 2 ^ n) = Zdigits2 m - n.
Proof.
  intros Hm Hn Hq. pose proof (Zdigits2_spec m Hm) as [H1 H2].
  assert (Hp : 0 < 2 ^ n) by (apply Z.pow_pos_nonneg; lia).
  assert (Hdn : n < Zdigits2 m).
  { destruct (Z_lt_le_dec n (Zdigits2 m)); [assumption|].
    assert (2 ^ Zdigits2 m <= 2 ^ n)
      by (apply Z.pow_le_mono_r; lia).
    rewrite Z.div_small in Hq by lia. lia. }
  apply Zdigits2_unique; [assumption|]. split.
  - apply Z.div_le_lower_bound; [assumption|].
    rewrite <- Z.pow_add_r by lia.
    replace (n + (Zdigits2 m - n - 1)) with (Zdigits2 m - 1) by lia.
    assumption.
  - apply Z.div_lt_upper_bound; [assumption|].
    rewrite <- Z.pow_add_r by lia.
    replace (n + (Zdigits2 m - n)) with (Zdigits2 m) by lia. assumption.
Qed.

Lemma Zdigits2_div_pow2_le (m n : Z) :
  0 <= m -> 0 <= n -> Zdigits2 m - n <= Zdigits2 (m / 2 ^ n).
Proof.
  intros Hm Hn.
  assert (Hp : 0 < 2 ^ n) by (apply Z.pow_pos_nonneg; lia).
  destruct (Z.eq_dec m 0) as [->|Hm0].
  { rewrite Z.div_0_l by lia. simpl. lia. }
  destruct (Z_lt_le_dec 0 (m / 2 ^ n)) as [Hq|Hq].
  - rewrite Zdigits2_div_pow2; lia.
  - assert (m / 2 ^ n = 0) by (pose proof (Z.div_pos m (2 ^ n)); lia).
    assert (m < 2 ^ n) by (apply Z.div_small_iff in H; lia).
    pose proof (Zdigits2_spec m ltac:(lia)) as [H1 H2].
    assert (Zdigits2 m - 1 < n).
    { apply (Z.pow_lt_mono_r_iff 2); lia. }
    rewrite H. simpl. lia.
Qed.

Lemma Zdigits2_le (a b : Z) : 0 <= a <= b -> Zdigits2 a <= Zdigits2 b.
Proof.
  intros [Ha Hb]. destruct (Z.eq_dec a 0) as [->|].
  { apply Zdigits2_nonneg. }
  rewrite !Zdigits2_log2 by lia.
  pose proof (Z.log2_le_mono a b Hb). lia.
Qed.

Lemma Zdigits2_bound (m k : Z) : 0 <= m < 2 ^ k -> 0 <= k -> Zdigits2 m <= k.
Proof.
  intros [H0 H] Hk. destruct (Z.eq_dec m 0) as [->|]; [simpl; lia|].
  pose proof (Zdigits2_spec m ltac:(lia)) as [H1 _].
  assert (Zdigits2 m - 1 < k); [|lia].
  apply (Z.pow_lt_mono_r_iff 2); lia.
Qed.

Lemma Zdigits2_lower (m k : Z) : 2 ^ k <= m -> 0 <= k -> k < Zdigits2 m.
Proof.
  intros H Hk.
  assert (0 < 2 ^ k) by (apply Z.pow_pos_nonneg; lia).
  pose proof (Zdigits2_spec m ltac:(lia)) as [_ H2].
  pose proof (Zdigits2_nonneg m).
  apply (Z.pow_lt_mono_r_iff 2); lia.
Qed.

Lemma pow2_pos (k : Z) : 0 <= k -> 0 < 2 ^ k.
Proof. intros; apply Z.pow_pos_nonneg; lia. Qed.

Lemma divide_pow2_split (m a b : Z) :
  0 <= a -> 0 <= b -> (2 ^ (a + b) | m) -> (2 ^ a | m) /\ (2 ^ b | m / 2 ^ a).
Proof.
  intros Ha Hb [k Hk]. pose proof (pow2_pos a Ha).
  rewrite Z.pow_add_r in Hk by lia. split.
  - exists (k * 2 ^ b). lia.
  - exists k. subst m. replace (k * (2 ^ a * 2 ^ b)) with (k * 2 ^ b * 2 ^ a) by lia.
    rewrite Z.div_mul by lia. reflexivity.
Qed.

Lemma shr_1_m (mrs : shr_record) :
  0 <= shr_m mrs -> shr_m (shr_1 mrs) = shr_m mrs / 2.
Proof.
  destruct mrs as [m r s]; simpl. intros H.
  destruct m as [|p|p]; [reflexivity| |lia].
  destruct p; simpl shr_m.
  - rewrite (Pos2Z.inj_xI p). apply Z.div_unique with 1; lia.
  - rewrite (Pos2Z.inj_xO p). apply Z.div_unique with 0; lia.
  - reflexivity.
Qed.

Lemma shr_1_exact (mrs : shr_record) :
  shr_r mrs = false -> shr_s mrs = false -> (2 | shr_m mrs) ->
  shr_r (shr_1 mrs) = false /\ shr_s (shr_1 mrs) = false.
Proof.
  destruct mrs as [m r s]; simpl. intros -> -> [k Hk].
  destruct m as [|p|p]; [auto| |]; destruct p; simpl; auto; lia.
Qed.

Lemma iter_pos_shr_1_m (p : positive) :
  forall mrs, 0 <= shr_m mrs ->
  shr_m (iter_pos shr_1 p mrs) = shr_m mrs / 2 ^ Zpos p.
Proof.
  induction p as [p IH|p IH|]; intros mrs H; simpl iter_pos.
  - assert (H1 : 0 <= shr_m (shr_1 mrs)).
    { rewrite shr_1_m by assumption. apply Z.div_pos; lia. }
    assert (H2 : 0 <= shr_m (iter_pos shr_1 p (shr_1 mrs))).
    { rewrite IH by assumption. apply Z.div_pos; [assumption|].
      apply pow2_pos; lia. }
    rewrite IH, IH, shr_1_m by assumption.
    pose proof (pow2_pos (Zpos p) ltac:(lia)).
    rewrite !Z.div_div by lia. f_equal.
    replace (Zpos p~1) with (1 + Zpos p + Zpos p) by lia.
    rewrite !Z.pow_add_r by lia. change (2 ^ 1) with 2. lia.
  - assert (H2 : 0 <= shr_m (iter_pos shr_1 p mrs)).
    { rewrite IH by assumption. apply Z.div_pos; [assumption|].
      apply pow2_pos; lia. }
    rewrite IH, IH by assumption.
    pose proof (pow2_pos (Zpos p) ltac:(lia)).
    rewrite Z.div_div by lia. f_equal.
    rewrite Pos2Z.inj_xO, <- Z.pow_add_r by lia. f_equal. lia.
  - rewrite shr_1_m by assumption. reflexivity.
Qed.

Lemma iter_pos_shr_1_exact (p : positive) :
  forall mrs, 0 <= shr_m mrs ->
  shr_r mrs = false -> shr_s mrs = false -> (2 ^ Zpos p | shr_m mrs) ->
  shr_r (iter_pos shr_1 p mrs) = false /\
  shr_s (iter_pos shr_1 p mrs) = false.
Proof.
  induction p as [p IH|p IH|]; intros mrs H Hr Hs Hd; simpl iter_pos.
  - replace (Zpos p~1) with (1 + (Zpos p + Zpos p)) in Hd by lia.
    apply divide_pow2_split in Hd; try lia. destruct Hd as [Hd1 Hd2].
    apply divide_pow2_split in Hd2; try lia. destruct Hd2 as [Hd2 Hd3].
    change (2 ^ 1) with 2 in *.
    destruct (shr_1_exact mrs Hr Hs Hd1) as [Hr1 Hs1].
    assert (H1 : 0 <= shr_m (shr_1 mrs)).
    { rewrite shr_1_m by assumption. apply Z.div_pos; lia. }
    rewrite <- shr_1_m in Hd2, Hd3 by assumption.
    destruct (IH _ H1 Hr1 Hs1 Hd2) as [Hr2 Hs2].
    apply IH; try assumption.
    + rewrite iter_pos_shr_1_m by assumption.
      apply Z.div_pos; [assumption|apply pow2_pos; lia].
    + rewrite iter_pos_shr_1_m by assumption. assumption.
  - replace (Zpos p~0) with (Zpos p + Zpos p) in Hd by lia.
    apply divide_pow2_split in Hd; try lia. destruct Hd as [Hd1 Hd2].
    destruct (IH _ H Hr Hs Hd1) as [Hr2 Hs2].
    apply IH; try assumption.
    + rewrite iter_pos_shr_1_m by assumption.
      apply Z.div_pos; [assumption|apply pow2_pos; lia].
    + rewrite iter_pos_shr_1_m by assumption. assumption.
  - apply shr_1_exact; assumption.
Qed.

Section Rounding.

Variables prec emax : Z.
Hypothesis prec_gt_0 : 0 < prec.


Lemma fexp_ge_emin (x : Z) : emin prec emax <= fexp prec emax x.
Proof. unfold fexp. lia. Qed.

Lemma fexp_mono (x y : Z) : x <= y -> fexp prec emax x <= fexp prec emax y.
Proof. unfold fexp. lia. Qed.

Lemma shr_spec (mrs : shr_record) (e n : Z) :
  0 <= shr_m mrs -> 0 <= n ->
  shr_m (fst (shr mrs e n)) = shr_m mrs / 2 ^ n /\
  snd (shr mrs e n) = e + n.
Proof.
  intros Hm Hn. destruct n as [|p|p]; simpl; [|split|lia].
  - rewrite Z.div_1_r. split; lia.
  - apply iter_pos_shr_1_m; assumption.
  - reflexivity.
Qed.

Lemma shr_exact (mrs : shr_record) (e n : Z) :
  0 <= shr_m mrs -> 0 <= n ->
  shr_r mrs = false -> shr_s mrs = false -> (2 ^ n | shr_m mrs) ->
  shr_r (fst (shr mrs e n)) = false /\ shr_s (fst (shr mrs e n)) = false.
Proof.
  intros Hm Hn Hr Hs Hd. destruct n as [|p|p]; simpl; auto.
  apply iter_pos_shr_1_exact; assumption.
Qed.

Lemma round_nearest_even_cases (m : Z) (l : location) :
  round_nearest_even m l = m \/ round_nearest_even m l = m + 1.
Proof.
  destruct l as [|[| |]]; simpl; auto. destruct (Z.even m); auto.
Qed.

Lemma binary_round_aux_stage1 (sx : bool) (mx ex : Z) (lx : location) :
  0 <= mx -> ex <= fexp prec emax (Zdigits2 mx + ex) ->
  exists r,
    (r = mx / 2 ^ (fexp prec emax (Zdigits2 mx + ex) - ex) \/
     r = mx / 2 ^ (fexp prec emax (Zdigits2 mx + ex) - ex) + 1) /\
    (lx = loc_Exact -> (2 ^ (fexp prec emax (Zdigits2 mx + ex) - ex) | mx) ->
     r = mx / 2 ^ (fexp prec emax (Zdigits2 mx + ex) - ex)) /\
    binary_round_aux prec emax sx mx ex lx =
      IEEE.finish prec emax sx r (fexp prec emax (Zdigits2 mx + ex)).
Proof.
  intros Hm Hg. set (g := fexp prec emax (Zdigits2 mx + ex)) in *.
  unfold binary_round_aux, shr_fexp. fold g.
  assert (Hm' : 0 <= shr_m (shr_record_of_loc mx lx)).
  { destruct lx as [|[| |]]; simpl; assumption. }
  assert (Em : shr_m (shr_record_of_loc mx lx) = mx).
  { destruct lx as [|[| |]]; reflexivity. }
  destruct (shr_spec (shr_record_of_loc mx lx) ex (g - ex) Hm' ltac:(lia))
    as [H1 H2].
  pose proof (shr_exact (shr_record_of_loc mx lx) ex (g - ex) Hm'
                ltac:(lia)) as H3.
  destruct (shr (shr_record_of_loc mx lx) ex (g - ex)) as [mrs' e'].
  simpl in H1, H2, H3. rewrite Em in H1, H3.
  exists (round_nearest_even (shr_m mrs') (loc_of_shr_record mrs')).
  split; [|split].
  - rewrite <- H1. apply round_nearest_even_cases.
  - intros -> Hd. destruct (H3 eq_refl eq_refl Hd) as [Hr Hs].
    destruct mrs' as [m' r' s']. simpl in *. subst r' s'. simpl. lia.
  - unfold IEEE.finish. replace e' with g by lia. reflexivity.
Qed.

Lemma finish_zero (sx : bool) (g : Z) : IEEE.finish prec emax sx 0 g = S754_zero sx.
Proof.
  unfold IEEE.finish, shr_fexp.
  set (n := fexp prec emax (Zdigits2 0 + g) - g).
  assert (E : shr_m (fst (shr (shr_record_of_loc 0 loc_Exact) g n)) = 0).
  { destruct (Z_le_gt_dec 0 n) as [Hn|Hn].
    - destruct (shr_spec (shr_record_of_loc 0 loc_Exact) g n) as [H1 _];
        [simpl; lia|lia|].
      rewrite H1. simpl. apply Z.div_0_l.
      pose proof (pow2_pos _ Hn); lia.
    - destruct n; try lia. reflexivity. }
  destruct (shr (shr_record_of_loc 0 loc_Exact) g n) as [mrs e].
  simpl in E. rewrite E. reflexivity.
Qed.

Lemma finish_spec (sx : bool) (r g : Z) :
  0 < r -> g <= fexp prec emax (Zdigits2 r + g) ->
  0 < r / 2 ^ (fexp prec emax (Zdigits2 r + g) - g) ->
  IEEE.finish prec emax sx r g =
    if fexp prec emax (Zdigits2 r + g) <=? emax - prec
    then S754_finite sx (Z.to_pos (r / 2 ^ (fexp prec emax (Zdigits2 r + g) - g)))
           (fexp prec emax (Zdigits2 r + g))
    else S754_infinity sx.
Proof.
  intros Hr Hg Hq. unfold IEEE.finish, shr_fexp.
  set (g' := fexp prec emax (Zdigits2 r + g)) in *.
  destruct (shr_spec (shr_record_of_loc r loc_Exact) g (g' - g))
    as [H1 H2]; [simpl; lia|lia|].
  destruct (shr (shr_record_of_loc r loc_Exact) g (g' - g)) as [mrs e].
  simpl in H1, H2.
  rewrite H1. replace e with g' by lia.
  destruct (r / 2 ^ (g' - g)) eqn:E; try lia. reflexivity.
Qed.

Lemma finish_valid (sx : bool) (r g : Z) :
  0 <= r -> g <= fexp prec emax (Zdigits2 r + g) ->
  valid_binary prec emax (IEEE.finish prec emax sx r g) = true.
Proof.
  intros Hr Hg. destruct (Z.eq_dec r 0) as [->|Hr0].
  { rewrite finish_zero. reflexivity. }
  set (g' := fexp prec emax (Zdigits2 r + g)) in *.
  assert (Hq0 : 0 <= r / 2 ^ (g' - g)).
  { apply Z.div_pos; [lia|apply pow2_pos; lia]. }
  destruct (Z.eq_dec (r / 2 ^ (g' - g)) 0) as [E|E].
  - unfold IEEE.finish, shr_fexp. fold g'.
    destruct (shr_spec (shr_record_of_loc r loc_Exact) g (g' - g))
      as [H1 H2]; [simpl; lia|lia|].
    destruct (shr (shr_record_of_loc r loc_Exact) g (g' - g)) as [mrs e].
    simpl in H1, H2.
    rewrite H1, E. reflexivity.
  - rewrite finish_spec by (fold g'; lia). fold g'.
    destruct (g' <=? emax - prec) eqn:El; [|reflexivity].
    simpl. unfold bounded, canonical_mantissa. rewrite El.
    rewrite andb_true_r. apply Z.eqb_eq.
    change (Zpos (digits2_pos (Z.to_pos (r / 2 ^ (g' - g)))))
      with (Zdigits2 (Zpos (Z.to_pos (r / 2 ^ (g' - g))))).
    rewrite Z2Pos.id by lia.
    rewrite Zdigits2_div_pow2 by lia.
    replace (Zdigits2 r - (g' - g) + g') with (Zdigits2 r + g) by lia.
    reflexivity.
Qed.

Lemma binary_round_aux_valid (sx : bool) (mx ex : Z) (lx : location) :
  0 <= mx -> ex <= fexp prec emax (Zdigits2 mx + ex) ->
  valid_binary prec emax (binary_round_aux prec emax sx mx ex lx) = true.
Proof.
  intros Hm Hg.
  destruct (binary_round_aux_stage1 sx mx ex lx Hm Hg)
    as (r & Hr & _ & ->).
  set (g := fexp prec emax (Zdigits2 mx + ex)) in *.
  assert (Hq0 : 0 <= mx / 2 ^ (g - ex)).
  { apply Z.div_pos; [lia|apply pow2_pos; lia]. }
  pose proof (Zdigits2_div_pow2_le mx (g - ex) Hm ltac:(lia)) as Hd.
  assert (Hd' : Zdigits2 (mx / 2 ^ (g - ex)) <= Zdigits2 r).
  { apply Zdigits2_le. lia. }
  apply finish_valid; [lia|].
  unfold g at 1. apply fexp_mono. lia.
Qed.

Lemma shl_align_spec (mx : positive) (ex ex' : Z) :
  snd (shl_align mx ex ex') = Z.min ex ex' /\
  Zpos (fst (shl_align mx ex ex')) = Zpos mx * 2 ^ (ex - Z.min ex ex').
Proof.
  unfold shl_align. destruct (ex' - ex) as [|d|d] eqn:E; cbn [fst snd].
  - replace (Z.min ex ex') with ex by lia. rewrite Z.sub_diag. lia.
  - replace (Z.min ex ex') with ex by lia. rewrite Z.sub_diag. lia.
  - replace (Z.min ex ex') with ex' by lia. split; [reflexivity|].
    change (Pos.iter xO mx d) with (shift_pos d mx).
    rewrite shift_pos_correct, Z.pow_pos_fold.
    replace (ex - ex') with (Zpos d) by lia. lia.
Qed.

Lemma binary_round_as_finish (sx : bool) (mx : positive) (ex : Z) :
  exists r,
    (fexp prec emax (Zdigits2 (Zpos mx) + ex) <= ex ->
     r = Zpos mx * 2 ^ (ex - fexp prec emax (Zdigits2 (Zpos mx) + ex))) /\
    (ex <= fexp prec emax (Zdigits2 (Zpos mx) + ex) ->
     (r = Zpos mx / 2 ^ (fexp prec emax (Zdigits2 (Zpos mx) + ex) - ex) \/
      r = Zpos mx / 2 ^ (fexp prec emax (Zdigits2 (Zpos mx) + ex) - ex) + 1) /\
     ((2 ^ (fexp prec emax (Zdigits2 (Zpos mx) + ex) - ex) | Zpos mx) ->
      r = Zpos mx / 2 ^ (fexp prec emax (Zdigits2 (Zpos mx) + ex) - ex))) /\
    binary_round prec emax sx mx ex =
      IEEE.finish prec emax sx r (fexp prec emax (Zdigits2 (Zpos mx) + ex)).
Proof.
  unfold binary_round.
  change (Zpos (digits2_pos mx)) with (Zdigits2 (Zpos mx)).
  set (g := fexp prec emax (Zdigits2 (Zpos mx) + ex)).
  destruct (shl_align_spec mx ex g) as [H1 H2].
  destruct (shl_align mx ex g) as [mz ez]. cbn [fst snd] in H1, H2.
  assert (Hd : Zdigits2 (Zpos mz) + ez = Zdigits2 (Zpos mx) + ex).
  { rewrite H2, Zdigits2_mul_pow2 by lia. lia. }
  destruct (binary_round_aux_stage1 sx (Zpos mz) ez loc_Exact)
    as (r & Hr & Hex & E); [lia|rewrite Hd; fold g; lia|].
  rewrite Hd in Hr, Hex, E. fold g in Hr, Hex, E.
  exists r. split; [|split]; [| |exact E].
  - intros Hg. assert (Emin : Z.min ex g = g) by lia.
    rewrite Emin in H1, H2. subst ez.
    rewrite Z.sub_diag in Hex. change (2 ^ 0) with 1 in Hex.
    rewrite Z.div_1_r in Hex. rewrite <- H2.
    apply Hex; [reflexivity|apply Z.divide_1_l].
  - intros Hg. assert (Emin : Z.min ex g = ex) by lia.
    rewrite Emin in H1, H2. subst ez.
    rewrite Z.sub_diag in H2. change (2 ^ 0) with 1 in H2.
    rewrite Z.mul_1_r in H2. rewrite H2 in Hr, Hex.
    split; [exact Hr|]. intros; apply Hex; auto.
Qed.

Lemma binary_round_valid (sx : bool) (mx : positive) (ex : Z) :
  valid_binary prec emax (binary_round prec emax sx mx ex) = true.
Proof.
  unfold binary_round.
  change (Zpos (digits2_pos mx)) with (Zdigits2 (Zpos mx)).
  set (g := fexp prec emax (Zdigits2 (Zpos mx) + ex)).
  destruct (shl_align_spec mx ex g) as [H1 H2].
  destruct (shl_align mx ex g) as [mz ez]. cbn [fst snd] in H1, H2.
  apply binary_round_aux_valid; [lia|].
  rewrite H2, Zdigits2_mul_pow2 by lia.
  replace (Zdigits2 (Zpos mx) + (ex - Z.min ex g) + ez)
    with (Zdigits2 (Zpos mx) + ex) by lia.
  fold g. lia.
Qed.

Lemma binary_normalize_valid (m e : Z) (sz : bool) :
  valid_binary prec emax (binary_normalize prec emax m e sz) = true.
Proof. destruct m; simpl; auto using binary_round_valid. Qed.

(** A value that fits the format is converted without rounding. *)
Lemma binary_round_exact (sx : bool) (mx : positive) (ex : Z) :
  (fexp prec emax (Zdigits2 (Zpos mx) + ex) <= ex \/
   (2 ^ (fexp prec emax (Zdigits2 (Zpos mx) + ex) - ex) | Zpos mx)) ->
  fexp prec emax (Zdigits2 (Zpos mx) + ex) <= emax - prec ->
  exists mz,
    binary_round prec emax sx mx ex =
      S754_finite sx mz (fexp prec emax (Zdigits2 (Zpos mx) + ex)) /\
    forall b, b <= ex -> b <= fexp prec emax (Zdigits2 (Zpos mx) + ex) ->
      Zpos mz * 2 ^ (fexp prec emax (Zdigits2 (Zpos mx) + ex) - b) =
      Zpos mx * 2 ^ (ex - b).
Proof.
  intros Hrep Hmax.
  destruct (binary_round_as_finish sx mx ex) as (r & Hup & Hdown & ->).
  set (g := fexp prec emax (Zdigits2 (Zpos mx) + ex)) in *.
  assert (Hr : 0 < r /\ Zdigits2 r + g = Zdigits2 (Zpos mx) + ex /\
               forall b, b <= ex -> b <= g ->
                 r * 2 ^ (g - b) = Zpos mx * 2 ^ (ex - b)).
  { destruct (Z_le_gt_dec g ex) as [Hg|Hg].
    - rewrite (Hup Hg). pose proof (pow2_pos (ex - g) ltac:(lia)).
      split; [lia|]. split.
      + rewrite Zdigits2_mul_pow2 by lia. lia.
      + intros b Hb1 Hb2. rewrite <- Z.mul_assoc, <- Z.pow_add_r by lia.
        do 2 f_equal. lia.
    - destruct Hrep as [Hrep|Hdiv]; [lia|].
      destruct (Hdown ltac:(lia)) as [_ Hq]. rewrite (Hq Hdiv).
      destruct Hdiv as [k Hk]. pose proof (pow2_pos (g - ex) ltac:(lia)).
      rewrite Hk, Z.div_mul by lia.
      assert (0 < k) by nia.
      split; [lia|]. split.
      + rewrite Zdigits2_mul_pow2 by lia. lia.
      + intros b Hb1 Hb2. rewrite <- Z.mul_assoc, <- Z.pow_add_r by lia.
        do 2 f_equal. lia. }
  destruct Hr as (Hr0 & Hd & Hv).
  assert (Hc : fexp prec emax (Zdigits2 r + g) = g).
  { rewrite Hd. reflexivity. }
  rewrite finish_spec; rewrite ?Hc, ?Z.sub_diag, ?Z.div_1_r; try lia.
  replace (g <=? emax - prec) with true by (symmetry; apply Z.leb_le; lia).
  exists (Z.to_pos r). split; [reflexivity|].
  rewrite Z2Pos.id by lia. exact Hv.
Qed.

(** Rounding a mantissa that is too long for the format, in the range
    of the normal numbers: the mantissa kept is the quotient or its
    successor. *)
Lemma binary_round_inexact (sx : bool) (mx : positive) (ex : Z) :
  ex < fexp prec emax (Zdigits2 (Zpos mx) + ex) ->
  emin prec emax <= Zdigits2 (Zpos mx) + ex - prec ->
  fexp prec emax (Zdigits2 (Zpos mx) + ex) + 1 <= emax - prec ->
  exists mz gz,
    binary_round prec emax sx mx ex = S754_finite sx mz gz /\
    ((gz = fexp prec emax (Zdigits2 (Zpos mx) + ex) /\
      (Zpos mz = Zpos mx / 2 ^ (fexp prec emax (Zdigits2 (Zpos mx) + ex) - ex) \/
       Zpos mz = Zpos mx / 2 ^ (fexp prec emax (Zdigits2 (Zpos mx) + ex) - ex) + 1))
     \/
     (gz = fexp prec emax (Zdigits2 (Zpos mx) + ex) + 1 /\
      Zpos mz * 2 =
        Zpos mx / 2 ^ (fexp prec emax (Zdigits2 (Zpos mx) + ex) - ex) + 1)) /\
    2 ^ (prec - 1) <=
      Zpos mx / 2 ^ (fexp prec emax (Zdigits2 (Zpos mx) + ex) - ex) < 2 ^ prec /\
    2 ^ (prec - 1) <= Zpos mz < 2 ^ prec.
Proof.
  intros Hlt Hnorm Hmax.
  destruct (binary_round_as_finish sx mx ex) as (r & _ & Hdown & ->).
  set (d := Zdigits2 (Zpos mx)) in *.
  assert (Eg : fexp prec emax (d + ex) = d + ex - prec).
  { unfold fexp. fold (emin prec emax). lia. }
  rewrite Eg in *.
  replace (d + ex - prec - ex) with (d - prec) in * by lia.
  destruct (Hdown ltac:(lia)) as [Hr _]. clear Hdown.
  set (q := Zpos mx / 2 ^ (d - prec)) in *.
  pose proof (Zdigits2_spec (Zpos mx) ltac:(lia)) as [Hm1 Hm2]. fold d in Hm1, Hm2.
  pose proof (pow2_pos (d - prec) ltac:(lia)) as Hp.
  pose proof (pow2_pos (prec - 1) ltac:(lia)) as Hp1.
  assert (E2 : 2 ^ prec = 2 * 2 ^ (prec - 1)).
  { replace prec with (1 + (prec - 1)) at 1 by lia.
    rewrite Z.pow_add_r by lia. reflexivity. }
  assert (Hq : 2 ^ (prec - 1) <= q < 2 ^ prec).
  { unfold q. split.
    - apply Z.div_le_lower_bound; [lia|]. rewrite <- Z.pow_add_r by lia.
      replace (d - prec + (prec - 1)) with (d - 1) by lia. lia.
    - apply Z.div_lt_upper_bound; [lia|]. rewrite <- Z.pow_add_r by lia.
      replace (d - prec + prec) with d by lia. lia. }
  destruct (Z_lt_le_dec r (2 ^ prec)) as [Hs|Hs].
  - assert (Hdr : Zdigits2 r = prec).
    { apply Zdigits2_unique; lia. }
    assert (Hc : fexp prec emax (Zdigits2 r + (d + ex - prec))
                 = d + ex - prec).
    { rewrite Hdr. unfold fexp. fold (emin prec emax). lia. }
    rewrite finish_spec; rewrite ?Hc, ?Z.sub_diag, ?Z.div_1_r; try lia.
    replace (d + ex - prec <=? emax - prec) with true
      by (symmetry; apply Z.leb_le; lia).
    exists (Z.to_pos r), (d + ex - prec). rewrite Z2Pos.id by lia.
    split; [reflexivity|]. split; [left; split; [reflexivity|lia]|].
    split; lia.
  - assert (Er : r = 2 ^ prec) by lia.
    assert (Hdr : Zdigits2 r = prec + 1).
    { apply Zdigits2_unique; [lia|].
      replace (prec + 1 - 1) with prec by lia.
      rewrite Z.pow_add_r by lia. change (2 ^ 1) with 2. lia. }
    assert (Hc : fexp prec emax (Zdigits2 r + (d + ex - prec))
                 = d + ex - prec + 1).
    { rewrite Hdr. unfold fexp. fold (emin prec emax). lia. }
    assert (Eh : r / 2 ^ 1 = 2 ^ (prec - 1)).
    { change (2 ^ 1) with 2. rewrite Er, E2.
      rewrite Z.mul_comm, Z.div_mul by lia. reflexivity. }
    rewrite finish_spec; rewrite ?Hc;
      replace (d + ex - prec + 1 - (d + ex - prec)) with 1 by lia;
      rewrite ?Eh; try lia.
    replace (d + ex - prec + 1 <=? emax - prec) with true
      by (symmetry; apply Z.leb_le; lia).
    exists (Z.to_pos (2 ^ (prec - 1))), (d + ex - prec + 1).
    rewrite Z2Pos.id by lia.
    split; [reflexivity|]. split; [right; split; [reflexivity|lia]|].
    split; lia.
Qed.

(** The same for [binary_normalize]: the result is a normal number
    whose mantissa, less one, does not exceed the exact quotient. *)
Lemma binary_normalize_round (z e : Z) (sz : bool) :
  z <> 0 ->
  e < Zdigits2 (Z.abs z) + e - prec ->
  emin prec emax <= Zdigits2 (Z.abs z) + e - prec ->
  Zdigits2 (Z.abs z) + e + 1 <= emax ->
  exists mz gz,
    binary_normalize prec emax z e sz = S754_finite (z <? 0) mz gz /\
    2 ^ (prec - 1) <= Zpos mz < 2 ^ prec /\
    (gz = Zdigits2 (Z.abs z) + e - prec \/
     gz = Zdigits2 (Z.abs z) + e - prec + 1) /\
    (Zpos mz - 1) * 2 ^ (gz - e) <= Z.abs z.
Proof.
  intros Hz Hlt Hnorm Hmax.
  assert (H : forall (sx : bool) (p : positive),
    Z.abs z = Zpos p ->
    exists mz gz,
      binary_round prec emax sx p e = S754_finite sx mz gz /\
      2 ^ (prec - 1) <= Zpos mz < 2 ^ prec /\
      (gz = Zdigits2 (Z.abs z) + e - prec \/
       gz = Zdigits2 (Z.abs z) + e - prec + 1) /\
      (Zpos mz - 1) * 2 ^ (gz - e) <= Z.abs z).
  { intros sx p Ep. rewrite Ep in *.
    set (d := Zdigits2 (Zpos p)) in *.
    assert (Eg : fexp prec emax (d + e) = d + e - prec).
    { unfold fexp. fold (emin prec emax). lia. }
    destruct (binary_round_inexact sx p e) as (mz & gz & E & Hc & Hq & Hm);
      fold d; rewrite ?Eg; try lia.
    fold d in Hc, Hq. rewrite Eg in Hc, Hq.
    replace (d + e - prec - e) with (d - prec) in Hc, Hq by lia.
    exists mz, gz. split; [exact E|]. split; [exact Hm|].
    pose proof (pow2_pos (d - prec) ltac:(lia)) as Hp.
    pose proof (Z.mul_div_le (Zpos p) (2 ^ (d - prec)) Hp) as Hqle.
    destruct Hc as [[-> Hc]|[-> Hc]].
    - split; [left; reflexivity|].
      replace (d + e - prec - e) with (d - prec) by lia. nia.
    - split; [right; reflexivity|].
      replace (d + e - prec + 1 - e) with (1 + (d - prec)) by lia.
      rewrite Z.pow_add_r by lia. change (2 ^ 1) with 2. nia. }
  destruct z as [|p|p]; [congruence| |]; simpl binary_normalize.
  - apply (H false p). reflexivity.
  - apply (H true p). reflexivity.
Qed.

Lemma SFdiv_core_binary_ok (m1 e1 m2 e2 : Z) :
  0 < m1 -> 0 < m2 ->
  0 <= fst (fst (SFdiv_core_binary prec emax m1 e1 m2 e2)) /\
  snd (fst (SFdiv_core_binary prec emax m1 e1 m2 e2)) <=
    fexp prec emax (Zdigits2 (fst (fst (SFdiv_core_binary prec emax m1 e1 m2 e2)))
          + snd (fst (SFdiv_core_binary prec emax m1 e1 m2 e2))).
Proof.
  intros H1 H2. unfold SFdiv_core_binary.
  set (d1 := Zdigits2 m1). set (d2 := Zdigits2 m2).
  set (t := d1 + e1 - (d2 + e2)).
  set (e' := Z.min (fexp prec emax t) (e1 - e2)).
  set (s := e1 - e2 - e').
  set (m' := match s with
             | 0 => m1
             | Zpos _ => Z.shiftl m1 s
             | Zneg _ => 0
             end).
  assert (Hs : 0 <= s) by (unfold s, e'; lia).
  assert (Em : m' = m1 * 2 ^ s).
  { unfold m'. destruct s as [|p|p] eqn:Es; try lia.
    apply Z.shiftl_mul_pow2. lia. }
  pose proof (Z_div_mod m' m2 ltac:(lia)) as Hdm.
  assert (Eq : fst (Z.div_eucl m' m2) = m' / m2) by reflexivity.
  destruct (Z.div_eucl m' m2) as [q r]. simpl in Eq. simpl.
  pose proof (pow2_pos s Hs) as Hps.
  assert (Hq0 : 0 <= q).
  { rewrite Eq. apply Z.div_pos; nia. }
  split; [assumption|].
  destruct (Z_le_gt_dec e' (emin prec emax)) as [He|He].
  { pose proof (fexp_ge_emin (Zdigits2 q + e')). lia. }
  assert (Et : fexp prec emax t = t - prec).
  { unfold fexp. fold (emin prec emax).
    assert (emin prec emax < fexp prec emax t) by (unfold e' in He; lia).
    unfold fexp in H. fold (emin prec emax) in H. lia. }
  assert (Hs' : prec - d1 + d2 <= s) by (unfold s, e', t in *; lia).
  pose proof (Zdigits2_spec m1 H1) as [Ha1 Ha2]. fold d1 in Ha1, Ha2.
  pose proof (Zdigits2_spec m2 H2) as [Hb1 Hb2]. fold d2 in Hb1, Hb2.
  pose proof (Zdigits2_pos m1 H1). pose proof (Zdigits2_pos m2 H2).
  fold d1 in H. fold d2 in H0.
  set (k := d1 - 1 + s - d2).
  assert (Hk : 0 <= k) by (unfold k; lia).
  assert (Hqk : 2 ^ k <= q).
  { rewrite Eq. apply Z.div_le_lower_bound; [lia|].
    assert (E : 2 ^ (d1 - 1) * 2 ^ s = 2 ^ k * 2 ^ d2).
    { rewrite <- !Z.pow_add_r by lia. f_equal. unfold k. lia. }
    pose proof (pow2_pos k Hk). nia. }
  pose proof (Zdigits2_lower q k Hqk Hk) as Hdq.
  apply Z.le_trans with (fexp prec emax t); [unfold e'; lia|].
  apply fexp_mono. unfold k, s, t in *. lia.
Qed.

Lemma SFdiv_valid (x y : spec_float) :
  valid_binary prec emax (SFdiv prec emax x y) = true.
Proof.
  destruct x as [sx|sx| |sx mx ex], y as [sy|sy| |sy my ey];
    try reflexivity.
  unfold SFdiv.
  destruct (SFdiv_core_binary_ok (Zpos mx) ex (Zpos my) ey) as [H1 H2];
    try lia.
  destruct (SFdiv_core_binary prec emax (Zpos mx) ex (Zpos my) ey)
    as [[mz ez] lz].
  simpl in H1, H2. apply binary_round_aux_valid; assumption.
Qed.

End Rounding.

Lemma SFadd_finite (prec emax : Z) (sx : bool) (mx : positive) (ex : Z)
    (sy : bool) (my : positive) (ey : Z) :
  SFadd prec emax (S754_finite sx mx ex) (S754_finite sy my ey) =
  binary_normalize prec emax
    (cond_Zopp sx (Zpos mx * 2 ^ (ex - Z.min ex ey)) +
     cond_Zopp sy (Zpos my * 2 ^ (ey - Z.min ex ey))) (Z.min ex ey) false.
Proof.
  unfold SFadd.
  destruct (shl_align_spec mx ex (Z.min ex ey)) as [_ H1].
  destruct (shl_align_spec my ey (Z.min ex ey)) as [_ H2].
  rewrite H1, H2.
  replace (Z.min ex (Z.min ex ey)) with (Z.min ex ey) by lia.
  replace (Z.min ey (Z.min ex ey)) with (Z.min ex ey) by lia.
  reflexivity.
Qed.

Lemma SFsub_finite (prec emax : Z) (sx : bool) (mx : positive) (ex : Z)
    (sy : bool) (my : positive) (ey : Z) :
  SFsub prec emax (S754_finite sx mx ex) (S754_finite sy my ey) =
  binary_normalize prec emax
    (cond_Zopp sx (Zpos mx * 2 ^ (ex - Z.min ex ey)) -
     cond_Zopp sy (Zpos my * 2 ^ (ey - Z.min ex ey))) (Z.min ex ey) false.
Proof.
  unfold SFsub.
  destruct (shl_align_spec mx ex (Z.min ex ey)) as [_ H1].
  destruct (shl_align_spec my ey (Z.min ex ey)) as [_ H2].
  rewrite H1, H2.
  replace (Z.min ex (Z.min ex ey)) with (Z.min ex ey) by lia.
  replace (Z.min ey (Z.min ex ey)) with (Z.min ex ey) by lia.
  reflexivity.
Qed.

Lemma cond_Zopp_mul (s : bool) (a b : Z) :
  cond_Zopp s (a * b) = cond_Zopp s a * b.
Proof. destruct s; simpl; lia. Qed.

Lemma pow2_split (a b : Z) : 0 <= a -> 0 <= b -> 2 ^ (a + b) = 2 ^ a * 2 ^ b.
Proof. intros; apply Z.pow_add_r; assumption. Qed.

(** The integer whose normalisation an addition or a subtraction of two
    finite numbers is, scaled, is the sum or the difference of the scaled
    operands. *)
Lemma aligned_scaled (s : bool) (m : positive) (e e' : Z) :
  - scale <= e' <= e ->
  cond_Zopp s (Zpos m * 2 ^ (e - e')) * 2 ^ (e' + scale) =
  scaled (S754_finite s m e).
Proof.
  intros H. unfold scaled. rewrite !cond_Zopp_mul, <- Z.mul_assoc.
  rewrite <- Z.pow_add_r by lia. do 2 f_equal. lia.
Qed.

Section Fits.

Variables prec emax : Z.
Hypothesis prec_gt_0 : 0 < prec.
Hypothesis emin_scale : - scale <= emin prec emax.

(** A nonzero integer [z] at exponent [e] whose value is also [k] at
    exponent [g0], with [k] short enough for the format and [g0] in the
    range of its exponents, is normalised without rounding. *)
Lemma binary_round_fits (sx : bool) (mx : positive) (ex k g0 : Z) :
  - scale <= ex ->
  Zpos mx * 2 ^ (ex + scale) = k * 2 ^ (g0 + scale) ->
  k < 2 ^ prec -> emin prec emax <= g0 <= emax - prec ->
  exists mz gz,
    binary_round prec emax sx mx ex = S754_finite sx mz gz /\
    gz = fexp prec emax (Zdigits2 (Zpos mx) + ex) /\
    emin prec emax <= gz /\
    Zpos mz * 2 ^ (gz + scale) = Zpos mx * 2 ^ (ex + scale).
Proof.
  intros Hex Hv Hk Hg0.
  set (d := Zdigits2 (Zpos mx)).
  set (g := fexp prec emax (d + ex)).
  pose proof (fexp_ge_emin prec emax (d + ex)) as Hge. fold g in Hge.
  pose proof (pow2_pos (ex + scale) ltac:(lia)) as Hp1.
  pose proof (pow2_pos (g0 + scale) ltac:(lia)) as Hp2.
  assert (Hk0 : 0 < k) by nia.
  assert (Hdk : Zdigits2 k <= prec).
  { apply Zdigits2_bound; lia. }
  assert (Hmag : d + ex = Zdigits2 k + g0).
  { destruct (Z_le_gt_dec ex g0) as [Hc|Hc].
    - assert (E : Zpos mx = k * 2 ^ (g0 - ex)).
      { replace (g0 + scale) with ((g0 - ex) + (ex + scale)) in Hv by lia.
        rewrite (pow2_split (g0 - ex) (ex + scale)) in Hv by lia. nia. }
      unfold d. rewrite E, Zdigits2_mul_pow2 by lia. lia.
    - assert (E : k = Zpos mx * 2 ^ (ex - g0)).
      { replace (ex + scale) with ((ex - g0) + (g0 + scale)) in Hv by lia.
        rewrite (pow2_split (ex - g0) (g0 + scale)) in Hv by lia. nia. }
      rewrite E, Zdigits2_mul_pow2 by lia. fold d. lia. }
  assert (Hgg : g <= g0).
  { unfold g, fexp. lia. }
  destruct (binary_round_exact prec emax sx mx ex)
    as (mz & E & Hval).
  - fold d g. destruct (Z_le_gt_dec g ex) as [Hc|Hc]; [left; assumption|].
    right. exists (k * 2 ^ (g0 - g)).
    rewrite <- Z.mul_assoc, <- pow2_split by lia.
    replace (g0 - g + (g - ex)) with (g0 - ex) by lia.
    replace (g0 + scale) with ((g0 - ex) + (ex + scale)) in Hv by lia.
    rewrite (pow2_split (g0 - ex) (ex + scale)) in Hv by lia. nia.
  - fold d g. lia.
  - fold d g in E, Hval. exists mz, g. split; [exact E|].
    split; [reflexivity|]. split; [exact Hge|].
    specialize (Hval (- scale) ltac:(lia) ltac:(lia)).
    replace (g - - scale) with (g + scale) in Hval by lia.
    replace (ex - - scale) with (ex + scale) in Hval by lia.
    exact Hval.
Qed.

Lemma binary_normalize_fits (z e k g0 : Z) (sz : bool) :
  - scale <= e ->
  z * 2 ^ (e + scale) = k * 2 ^ (g0 + scale) ->
  Z.abs k < 2 ^ prec -> emin prec emax <= g0 <= emax - prec ->
  represents (binary_normalize prec emax z e sz) (z * 2 ^ (e + scale)).
Proof.
  intros He Hv Hk Hg0.
  pose proof (pow2_pos (e + scale) ltac:(lia)) as Hp1.
  pose proof (pow2_pos (g0 + scale) ltac:(lia)) as Hp2.
  destruct z as [|p|p]; simpl binary_normalize.
  - simpl. reflexivity.
  - destruct (binary_round_fits false p e k g0)
      as (mz & gz & -> & _ & H1 & H2);
      try assumption; try lia.
    unfold represents, scaled, cond_Zopp. split; [lia|exact H2].
  - destruct (binary_round_fits true p e (- k) g0)
      as (mz & gz & -> & _ & H1 & H2); try assumption; try lia.
    unfold represents, scaled, cond_Zopp. split; [lia|].
    change (Z.neg p) with (- Zpos p). lia.
Qed.

End Fits.

Lemma truncate_represents (x : spec_float) (v : Z) :
  represents x v ->
  match x with
  | S754_zero _ => Some 0
  | S754_finite s m e =>
      Some (cond_Zopp s
              (match e with
               | Z0 => Zpos m
               | Zpos _ => Zpos m * 2 ^ e
               | Zneg p => Zpos m / 2 ^ Zpos p
               end))
  | _ => None
  end = Some (Z.quot v (2 ^ scale)).
Proof.
  pose proof (pow2_pos scale ltac:(unfold scale; lia)) as HP.
  destruct x as [s|s| |s m e]; unfold represents; try contradiction.
  - intros ->. rewrite Z.quot_0_l by lia. reflexivity.
  - intros [He <-]. f_equal. unfold scaled.
    assert (E : Zpos m * 2 ^ (e + scale) / 2 ^ scale =
                match e with
                | 0 => Zpos m
                | Zpos _ => Zpos m * 2 ^ e
                | Zneg p => Zpos m / 2 ^ Zpos p
                end).
    { destruct e as [|p|p].
      - rewrite Z.add_0_l. apply Z.div_mul. lia.
      - rewrite (pow2_split (Zpos p) scale) by (unfold scale; lia).
        rewrite Z.mul_assoc. apply Z.div_mul. lia.
      - replace scale with (Zpos p + (Zneg p + scale)) at 2 by lia.
        rewrite (pow2_split (Zpos p) (Zneg p + scale)) by lia.
        pose proof (pow2_pos (Zneg p + scale) ltac:(lia)).
        pose proof (pow2_pos (Zpos p) ltac:(lia)).
        rewrite Z.div_mul_cancel_r by lia. reflexivity. }
    rewrite <- E.
    pose proof (pow2_pos (e + scale) ltac:(lia)).
    destruct s; unfold cond_Zopp.
    + rewrite Z.mul_opp_l, Z.quot_opp_l by lia.
      rewrite Z.quot_div_nonneg by nia. reflexivity.
    + rewrite Z.quot_div_nonneg by nia. reflexivity.
Qed.

(** ** The calibration arithmetic *)

Lemma valid32_finite (s : bool) (m : positive) (e : Z) :
  F32.valid (S754_finite s m e) = true ->
  Zdigits2 (Zpos m) <= 24 /\ -149 <= e <= 104.
Proof.
  unfold F32.valid, valid_binary, bounded, canonical_mantissa, fexp, emin,
    F32.prec, F32.emax.
  change (Zpos (digits2_pos m)) with (Zdigits2 (Zpos m)).
  intros H. apply andb_prop in H. destruct H as [H1 H2].
  apply Z.eqb_eq in H1. apply Z.leb_le in H2. lia.
Qed.

(** A [float] converts to [double] without rounding. *)
Lemma F64_of_float_finite (s : bool) (m : positive) (e : Z) :
  F32.valid (S754_finite s m e) = true ->
  exists m' e',
    F64.of_float (S754_finite s m e) = S754_finite s m' e' /\
    e' = Zdigits2 (Zpos m) + e - 53 /\
    Zpos m' * 2 ^ (e' + scale) = Zpos m * 2 ^ (e + scale).
Proof.
  intros Hv. destruct (valid32_finite s m e Hv) as [Hd He].
  unfold F64.of_float, IEEE.of_float.
  pose proof (pow2_pos 24 ltac:(lia)).
  pose proof (Zdigits2_spec (Zpos m) ltac:(lia)) as [_ Hm].
  assert (Zpos m < 2 ^ 24).
  { apply Z.lt_le_trans with (1 := Hm). apply Z.pow_le_mono_r; lia. }
  destruct (binary_round_fits F64.prec F64.emax ltac:(reflexivity)
              ltac:(unfold scale; vm_compute; discriminate)
              s m e (Zpos m) e) as (mz & gz & E & Hg & H1 & H2).
  - unfold scale; lia.
  - reflexivity.
  - apply Z.lt_trans with (2 ^ 24); [assumption|reflexivity].
  - unfold emin, F64.emax, F64.prec. lia.
  - exists mz, gz. split; [exact E|]. split; [|exact H2].
    pose proof (Zdigits2_pos (Zpos m) ltac:(lia)).
    unfold fexp, emin, F64.emax, F64.prec in Hg. lia.
Qed.

Lemma to_integer_Some (lo hi : Z) (x : spec_float) (c : Z) :
  IEEE.to_integer lo hi x = Some c ->
  IEEE.truncate x = Some c /\ lo <= c <= hi.
Proof.
  unfold IEEE.to_integer. destruct (IEEE.truncate x) as [z|]; [|discriminate].
  destruct ((lo <=? z) && (z <=? hi)) eqn:E; [|discriminate].
  intros [= <-]. apply andb_prop in E. destruct E as [E1 E2].
  apply Z.leb_le in E1. apply Z.leb_le in E2. auto.
Qed.

Lemma truncate_of_represents (x : spec_float) (v : Z) :
  represents x v -> IEEE.truncate x = Some (Z.quot v (2 ^ scale)).
Proof. exact (truncate_represents x v). Qed.

Lemma scale_half : 2 ^ scale = 2 * 2 ^ (scale - 1).
Proof.
  replace scale with (1 + (scale - 1)) at 1 by lia.
  rewrite Z.pow_add_r by (unfold scale; lia). reflexivity.
Qed.

(** The sum [(double)mean + .5], before it is rounded: an integer [z] at an
    exponent [ez] whose value is the exact sum. *)
Lemma mean_plus_half (s : bool) (m : positive) (e : Z) :
  F32.valid (S754_finite s m e) = true ->
  exists z ez,
    F64.add (F64.of_float (S754_finite s m e)) F64.lit_0_5 =
      binary_normalize F64.prec F64.emax z ez false /\
    - scale <= ez /\
    ez <= Zdigits2 (Zpos m) + e - 53 /\ ez <= -53 /\
    z * 2 ^ (ez + scale) =
      scaled (S754_finite s m e) + 2 ^ (scale - 1).
Proof.
  intros Hv. destruct (valid32_finite s m e Hv) as [Hd He].
  destruct (F64_of_float_finite s m e Hv) as (m' & e' & -> & He' & Hm').
  pose proof (Zdigits2_pos (Zpos m) ltac:(lia)) as Hd0.
  unfold F64.add, F64.lit_0_5. rewrite SFadd_finite.
  set (ez := Z.min e' (-53)).
  exists (cond_Zopp s (Zpos m' * 2 ^ (e' - ez)) +
          cond_Zopp false (4503599627370496 * 2 ^ (-53 - ez))), ez.
  split; [reflexivity|].
  assert (Hez : - scale <= ez) by (unfold ez, scale; lia).
  split; [exact Hez|]. split; [unfold ez; lia|]. split; [unfold ez; lia|].
  rewrite Z.mul_add_distr_r.
  rewrite (aligned_scaled s m' e' ez) by (unfold ez in *; lia).
  rewrite (aligned_scaled false 4503599627370496 (-53) ez)
    by (unfold ez in *; lia).
  f_equal. unfold scaled. rewrite <- !cond_Zopp_mul. f_equal. exact Hm'.
Qed.

Lemma mantissa24 (m : positive) :
  Zdigits2 (Zpos m) <= 24 -> 0 < Zpos m < 2 ^ 24.
Proof.
  intros Hd. pose proof (Zdigits2_spec (Zpos m) ltac:(lia)) as [_ Hm].
  split; [lia|]. apply Z.lt_le_trans with (1 := Hm).
  apply Z.pow_le_mono_r; lia.
Qed.

Lemma abs_cond_Zopp (s : bool) (x : Z) : Z.abs (cond_Zopp s x) = Z.abs x.
Proof. destruct s; simpl; lia. Qed.

(** The center is the exact sum, truncated. *)
Lemma center_exact (s : bool) (m : positive) (e c : Z) :
  F32.valid (S754_finite s m e) = true ->
  IEEE.to_integer 0 UINT32_MAX
    (F64.add (F64.of_float (S754_finite s m e)) F64.lit_0_5) = Some c ->
  c = Z.quot (scaled (S754_finite s m e) + 2 ^ (scale - 1)) (2 ^ scale).
Proof.
  intros Hv Hc. destruct (valid32_finite s m e Hv) as [Hd He].
  destruct (mantissa24 m Hd) as [Hm0 Hm].
  destruct (mean_plus_half s m e Hv) as (z & ez & E & Hez & Hez1 & Hez2 & Hz).
  pose proof (eq_refl : scale = 1074) as Escale.
  rewrite E in Hc. clear E.
  destruct (to_integer_Some _ _ _ _ Hc) as [Ht Hr]. clear Hc.
  set (V := scaled (S754_finite s m e)) in *.
  set (H := 2 ^ (scale - 1)) in *.
  assert (HV : Z.abs V = Zpos m * 2 ^ (e + scale)).
  { unfold V, scaled. rewrite Z.abs_mul, abs_cond_Zopp.
    pose proof (pow2_pos (e + scale) ltac:(unfold scale; lia)). lia. }
  pose proof (pow2_pos (ez + scale) ltac:(lia)) as Hpz.
  pose proof (pow2_pos (e + scale) ltac:(unfold scale; lia)) as Hpe.
  assert (HH : 0 < H) by (apply pow2_pos; unfold scale; lia).
  pose proof scale_half as HP. fold H in HP.
  assert (emin_ok : - scale <= emin F64.prec F64.emax)
    by (vm_compute; discriminate).
  assert (Fits : forall k g0,
    z * 2 ^ (ez + scale) = k * 2 ^ (g0 + scale) ->
    Z.abs k < 2 ^ 53 -> -1074 <= g0 <= 971 ->
    c = Z.quot (V + H) (2 ^ scale)).
  { intros k g0 Hk1 Hk2 Hk3.
    pose proof (binary_normalize_fits F64.prec F64.emax ltac:(reflexivity)
                  emin_ok z ez k g0 false Hez Hk1 Hk2 Hk3) as Hrep.
    apply truncate_of_represents in Hrep. rewrite Hrep in Ht.
    rewrite Hz in Ht. congruence. }
  destruct (Z_lt_le_dec e (-53)) as [R1|R1].
  - (* the sum is rounded, and stays between 0 and 1 *)
    set (U := 2 ^ (scale - 52)).
    assert (HU : 0 < U) by (apply pow2_pos; unfold scale; lia).
    assert (E30 : 2 ^ (scale - 30) = 2 ^ 22 * U).
    { unfold U. rewrite <- pow2_split by (unfold scale; lia).
      f_equal; lia. }
    assert (EH : H = 2 ^ 51 * U).
    { unfold U, H. rewrite <- pow2_split by (unfold scale; lia).
      f_equal; lia. }
    assert (E2 : 2 ^ (scale - 2) = 2 ^ 50 * U).
    { unfold U. rewrite <- pow2_split by (unfold scale; lia).
      f_equal; lia. }
    assert (EP : 2 ^ scale = 2 ^ 52 * U).
    { unfold U. rewrite <- pow2_split by (unfold scale; lia).
      f_equal; lia. }
    change (2 ^ 22) with 4194304 in E30.
    change (2 ^ 51) with 2251799813685248 in EH.
    change (2 ^ 50) with 1125899906842624 in E2.
    change (2 ^ 52) with 4503599627370496 in EP.
    assert (HVs : Z.abs V < 2 ^ (scale - 30)).
    { rewrite HV.
      apply Z.lt_le_trans with (2 ^ 24 * 2 ^ (e + scale)); [nia|].
      rewrite <- Z.pow_add_r by (unfold scale; lia).
      apply Z.pow_le_mono_r; unfold scale; lia. }
    assert (Hlo : 2 ^ (scale - 2) <= V + H) by lia.
    assert (Hhi : V + H < H + 2 ^ (scale - 30)) by lia.
    assert (Hz0 : 0 < z).
    { pose proof (pow2_pos (scale - 2) ltac:(unfold scale; lia)). nia. }
    assert (Hdz : Zdigits2 z + (ez + scale) = Zdigits2 (V + H)).
    { rewrite <- Hz. rewrite Zdigits2_mul_pow2 by lia. reflexivity. }
    assert (Hmu1 : scale - 2 < Zdigits2 (V + H)).
    { apply Zdigits2_lower; [assumption|unfold scale; lia]. }
    assert (Hmu2 : Zdigits2 (V + H) <= scale).
    { apply Zdigits2_bound; [lia|unfold scale; lia]. }
    destruct (binary_normalize_round F64.prec F64.emax ltac:(reflexivity) z ez false)
      as (mz & gz & E & Hmz & Hgz & Hle);
      rewrite ?Z.abs_eq by lia;
      try (unfold F64.prec, F64.emax, emin in *; lia).
    rewrite Z.abs_eq in Hgz, Hle by lia.
    rewrite E in Ht. unfold F64.prec in *.
    assert (Hg : gz <= -53).
    { destruct (Z_le_gt_dec gz (-53)) as [|Hg]; [assumption|exfalso].
      assert (Eg : gz = -52) by lia.
      assert (Hle' : (Zpos mz - 1) * 2 ^ (gz - ez) * 2 ^ (ez + scale)
                     <= z * 2 ^ (ez + scale)).
      { apply Z.mul_le_mono_nonneg_r; [apply Z.pow_nonneg; lia|exact Hle]. }
      rewrite <- Z.mul_assoc, <- Z.pow_add_r in Hle'
        by lia.
      replace (gz - ez + (ez + scale)) with (scale - 52) in Hle' by lia.
      rewrite Hz in Hle'.
      assert ((2 ^ 52 - 1) * U <= V + H).
      { change (53 - 1) with 52 in Hmz. fold U in Hle'.
        apply Z.le_trans with ((Zpos mz - 1) * U); [|exact Hle'].
        apply Z.mul_le_mono_nonneg_r; [unfold U; apply Z.pow_nonneg; lia|].
        apply Z.sub_le_mono_r, Hmz. }
      change (2 ^ 52 - 1) with 4503599627370495 in H0. lia. }
    assert (Ec : c = 0).
    { destruct gz as [|p|p]; try lia. unfold IEEE.truncate in Ht.
      replace (z <? 0) with false in Ht by (symmetry; apply Z.ltb_ge; lia).
      unfold cond_Zopp in Ht.
      rewrite Z.div_small in Ht; [congruence|].
      split; [lia|]. apply Z.lt_le_trans with (2 ^ 53); [lia|].
      apply Z.pow_le_mono_r; lia. }
    rewrite Ec. symmetry. apply Z.quot_small. lia.
  - destruct (Z_lt_le_dec e 0) as [R2|R2].
    + (* the sum fits at the exponent of the mean *)
      apply (Fits (cond_Zopp s (Zpos m) + 2 ^ (-1 - e)) e).
      * rewrite Hz. unfold V, scaled, H. rewrite Z.mul_add_distr_r.
        f_equal. rewrite <- Z.pow_add_r by (unfold scale; lia).
        f_equal. lia.
      * assert (2 ^ (-1 - e) <= 2 ^ 52) by (apply Z.pow_le_mono_r; lia).
        pose proof (pow2_pos (-1 - e) ltac:(lia)).
        pose proof (abs_cond_Zopp s (Zpos m)).
        change (2 ^ 53) with (2 * 2 ^ 52). change (2 ^ 24) with 16777216 in Hm.
        change (2 ^ 52) with 4503599627370496 in *. lia.
      * lia.
    + destruct (Z_lt_le_dec (Zpos m * 2 ^ (e + 1) + 1) (2 ^ 53)) as [R3|R3].
      * (* the sum fits at exponent -1 *)
        apply (Fits (cond_Zopp s (Zpos m * 2 ^ (e + 1)) + 1) (-1)).
        -- rewrite Hz. unfold V, scaled, H. rewrite Z.mul_add_distr_r.
           replace (-1 + scale) with (scale - 1) by lia.
           f_equal. rewrite cond_Zopp_mul, <- Z.mul_assoc.
           rewrite <- Z.pow_add_r by (unfold scale; lia).
           do 2 f_equal. lia.
        -- pose proof (abs_cond_Zopp s (Zpos m * 2 ^ (e + 1))) as Ha.
           pose proof (pow2_pos (e + 1) ltac:(lia)) as Hp.
           assert (0 <= Zpos m * 2 ^ (e + 1)) by nia.
           lia.
        -- lia.
      * (* the sum is too large in magnitude to convert *)
        exfalso.
        assert (EV : Z.abs V = Zpos m * 2 ^ (e + 1) * H).
        { rewrite HV. unfold H. rewrite <- Z.mul_assoc.
          rewrite <- Z.pow_add_r by (unfold scale; lia).
          do 2 f_equal. lia. }
        assert (Hlo : 2 ^ (scale + 51) <= Z.abs (V + H)).
        { replace (scale + 51) with (52 + (scale - 1)) by lia.
          rewrite Z.pow_add_r by (unfold scale; lia). fold H.
          change (2 ^ 52) with 4503599627370496.
          change (2 ^ 53) with 9007199254740992 in R3. nia. }
        assert (Hhi : Z.abs (V + H) < 2 ^ (scale + 129)).
        { assert (Z.abs V < 2 ^ (scale + 128)).
          { rewrite HV.
            apply Z.lt_le_trans with (2 ^ 24 * 2 ^ (e + scale)); [nia|].
            rewrite <- Z.pow_add_r by (unfold scale; lia).
            apply Z.pow_le_mono_r; unfold scale; lia. }
          assert (H < 2 ^ (scale + 128)).
          { apply Z.pow_lt_mono_r; unfold scale; lia. }
          replace (scale + 129) with (1 + (scale + 128)) by lia.
          rewrite Z.pow_add_r by (unfold scale; lia).
          change (2 ^ 1) with 2. lia. }
        assert (Hz0 : z <> 0).
        { intros ->. rewrite Z.mul_0_l in Hz. rewrite <- Hz in Hlo.
          pose proof (pow2_pos (scale + 51) ltac:(unfold scale; lia)).
          simpl in Hlo. lia. }
        assert (Hza : Z.abs z * 2 ^ (ez + scale) = Z.abs (V + H)).
        { rewrite <- Hz, Z.abs_mul. f_equal. lia. }
        assert (Hdz : Zdigits2 (Z.abs z) + (ez + scale)
                      = Zdigits2 (Z.abs (V + H))).
        { rewrite <- Hza. rewrite Zdigits2_mul_pow2 by lia. reflexivity. }
        assert (Hmu1 : scale + 51 < Zdigits2 (Z.abs (V + H))).
        { apply Zdigits2_lower; [assumption|unfold scale; lia]. }
        assert (Hmu2 : Zdigits2 (Z.abs (V + H)) <= scale + 129).
        { apply Zdigits2_bound; [lia|unfold scale; lia]. }
        destruct (binary_normalize_round F64.prec F64.emax ltac:(reflexivity) z ez false)
          as (mz & gz & E & Hmz & Hgz & Hle);
          try (unfold F64.prec, F64.emax, emin in *; lia).
        rewrite E in Ht. unfold F64.prec in *.
        change (2 ^ (53 - 1)) with 4503599627370496 in Hmz.
        assert (Hg : -1 <= gz) by lia.
        unfold IEEE.truncate in Ht.
        assert (Hbig : 2 ^ 51 <=
                       match gz with
                       | 0 => Z.pos mz
                       | Z.pos _ => Z.pos mz * 2 ^ gz
                       | Z.neg p => Z.pos mz / 2 ^ Z.pos p
                       end).
        { change (2 ^ 51) with 2251799813685248.
          destruct gz as [|p|p].
          - lia.
          - pose proof (pow2_pos (Zpos p) ltac:(lia)).
            apply Z.le_trans with (Zpos mz * 1); [lia|].
            apply Z.mul_le_mono_nonneg_l; lia.
          - assert (Ep : Zpos p = 1) by lia. rewrite Ep.
            change (2 ^ 1) with 2.
            apply Z.div_le_lower_bound; lia. }
        change (2 ^ 51) with 2251799813685248 in Hbig.
        unfold UINT32_MAX in Hr. change (2 ^ 32 - 1) with 4294967295 in Hr.
        set (t := match gz with
                  | 0 => Z.pos mz
                  | Z.pos _ => Z.pos mz * 2 ^ gz
                  | Z.neg p => Z.pos mz / 2 ^ Z.pos p
                  end) in *.
        destruct (z <? 0); unfold cond_Zopp in Ht.
        -- assert (c = - t) by congruence. lia.
        -- assert (c = t) by congruence. lia.
Qed.

Lemma quotient_of_integer (w c p h : Z) :
  0 < h -> p = 2 * h -> c * p <= w * p + h -> w * p + h < c * p + p -> c = w.
Proof. intros. nia. Qed.

(** The offset is the exact difference between the mean and the center. *)
Lemma offset_exact (s : bool) (m : positive) (e c : Z) :
  F32.valid (S754_finite s m e) = true ->
  c = Z.quot (scaled (S754_finite s m e) + 2 ^ (scale - 1)) (2 ^ scale) ->
  0 <= c ->
  represents (F32.sub (S754_finite s m e) (F32.of_Z c))
             (scaled (S754_finite s m e) - c * 2 ^ scale).
Proof.
  intros Hv Hc Hc0. destruct (valid32_finite s m e Hv) as [Hd He].
  destruct (mantissa24 m Hd) as [Hm0 Hm].
  pose proof (eq_refl : scale = 1074) as Escale.
  set (V := scaled (S754_finite s m e)) in *.
  set (H := 2 ^ (scale - 1)) in *.
  pose proof (pow2_pos (e + scale) ltac:(unfold scale; lia)) as Hpe.
  assert (HH : 0 < H) by (apply pow2_pos; unfold scale; lia).
  pose proof scale_half as HP. fold H in HP.
  destruct (Z.eq_dec c 0) as [->|Hcn].
  { replace (F32.sub (S754_finite s m e) (F32.of_Z 0))
      with (S754_finite s m e) by reflexivity.
    unfold represents. fold V. split; [unfold scale; lia|lia]. }
  assert (Hpos : 2 ^ scale <= V + H).
  { destruct (Z_lt_le_dec (V + H) (2 ^ scale)) as [Hlt|]; [|assumption].
    exfalso. destruct (Z_lt_le_dec (V + H) 0) as [Hn|Hn].
    - assert (Z.quot (V + H) (2 ^ scale) <= 0).
      { apply Z.quot_le_upper_bound; lia. }
      lia.
    - rewrite Z.quot_small in Hc by lia. lia. }
  assert (Es : s = false).
  { destruct s; [|reflexivity]. exfalso. unfold V, scaled, cond_Zopp in Hpos.
    nia. }
  subst s. 
  assert (EV : V = Zpos m * 2 ^ (e + scale)) by reflexivity.
  rewrite Z.quot_div_nonneg in Hc by lia.
  assert (Hcl : c * 2 ^ scale <= V + H).
  { rewrite Hc, Z.mul_comm. apply Z.mul_div_le. lia. }
  assert (Hcu : V + H < c * 2 ^ scale + 2 ^ scale).
  { rewrite Hc.
    pose proof (Z.mul_succ_div_gt (V + H) (2 ^ scale) ltac:(lia)). lia. }
  assert (He24 : -24 <= e).
  { assert (2 ^ (scale - 1) < 2 ^ (24 + (e + scale))).
    { rewrite (Z.pow_add_r 2 24) by (unfold scale; lia). fold H. nia. }
    apply Z.pow_lt_mono_r_iff in H0; lia. }
  assert (emin_ok : - scale <= emin F32.prec F32.emax)
    by (vm_compute; discriminate).
  (* the center converts to [float] without rounding *)
  assert (Hfc : exists mc gc,
    F32.of_Z c = S754_finite false mc gc /\ -149 <= gc /\
    Zpos mc * 2 ^ (gc + scale) = c * 2 ^ scale).
  { destruct c as [|pc|pc]; try lia.
    unfold F32.of_Z, IEEE.of_Z. simpl binary_normalize.
    destruct (Z_lt_le_dec e 0) as [Hneg|Hnn].
    - destruct (binary_round_fits F32.prec F32.emax ltac:(reflexivity)
                  emin_ok false pc 0 (Zpos pc) 0)
        as (mc & gc & E & _ & Hg & Hval);
        try (unfold scale, emin, F32.prec, F32.emax; lia).
      + assert (V < 2 ^ 23 * 2 ^ scale).
        { rewrite EV, HP.
          assert (2 ^ (e + scale) <= H).
          { apply Z.pow_le_mono_r; unfold scale; lia. }
          change (2 ^ 23) with 8388608. change (2 ^ 24) with 16777216 in Hm.
          nia. }
        unfold F32.prec. change (2 ^ 24) with 16777216.
        change (2 ^ 23) with 8388608 in H0. nia.
      + exists mc, gc. split; [exact E|]. split; [exact Hg|].
        rewrite Hval. rewrite Z.add_0_l. reflexivity.
    - assert (Ew : Zpos pc = Zpos m * 2 ^ e).
      { assert (EV' : V = Zpos m * 2 ^ e * 2 ^ scale).
        { rewrite EV, <- Z.mul_assoc, <- Z.pow_add_r by (unfold scale; lia).
          reflexivity. }
        pose proof (pow2_pos e Hnn). nia. }
      destruct (binary_round_fits F32.prec F32.emax ltac:(reflexivity)
                  emin_ok false pc 0 (Zpos m) e)
        as (mc & gc & E & _ & Hg & Hval);
        try (unfold scale, emin, F32.prec, F32.emax; lia).
      + rewrite Ew, Z.add_0_l, <- Z.mul_assoc.
        rewrite <- Z.pow_add_r by (unfold scale; lia). reflexivity.
      + exists mc, gc. split; [exact E|]. split; [exact Hg|].
        rewrite Hval. rewrite Z.add_0_l. reflexivity. }
  destruct Hfc as (mc & gc & -> & Hgc & Hmc).
  unfold F32.sub. rewrite SFsub_finite.
  set (ez := Z.min e gc).
  assert (Hez : - scale <= ez) by (unfold ez, scale; lia).
  set (zo := cond_Zopp false (Zpos m * 2 ^ (e - ez)) -
             cond_Zopp false (Zpos mc * 2 ^ (gc - ez))).
  assert (Hzo : zo * 2 ^ (ez + scale) = V - c * 2 ^ scale).
  { unfold zo. rewrite Z.mul_sub_distr_r.
    rewrite (aligned_scaled false m e ez) by (unfold ez in *; lia).
    rewrite (aligned_scaled false mc gc ez) by (unfold ez in *; lia).
    fold V. f_equal. exact Hmc. }
  rewrite <- Hzo.
  destruct (Z_lt_le_dec e 0) as [Hneg|Hnn].
  - apply (binary_normalize_fits F32.prec F32.emax ltac:(reflexivity)
             emin_ok zo ez (Zpos m - c * 2 ^ (- e)) e).
    + exact Hez.
    + rewrite Hzo, EV, Z.mul_sub_distr_r, <- Z.mul_assoc.
      rewrite <- Z.pow_add_r by (unfold scale; lia).
      do 3 f_equal. lia.
    + assert (Hk : Z.abs (Zpos m - c * 2 ^ (- e)) * 2 ^ (e + scale) <= H).
      { assert (E1 : (Zpos m - c * 2 ^ (- e)) * 2 ^ (e + scale)
                     = V - c * 2 ^ scale).
        { rewrite EV, Z.mul_sub_distr_r, <- Z.mul_assoc.
          rewrite <- Z.pow_add_r by (unfold scale; lia).
          do 3 f_equal. lia. }
        rewrite <- (Z.abs_eq (2 ^ (e + scale))) at 1 by lia.
        rewrite <- Z.abs_mul, E1. lia. }
      assert (EH : H = 2 ^ (-1 - e) * 2 ^ (e + scale)).
      { unfold H. rewrite <- Z.pow_add_r by (unfold scale; lia).
        f_equal. lia. }
      rewrite EH in Hk.
      apply Z.mul_le_mono_pos_r in Hk; [|lia].
      assert (2 ^ (-1 - e) <= 2 ^ 23) by (apply Z.pow_le_mono_r; lia).
      unfold F32.prec. change (2 ^ 24) with 16777216.
      change (2 ^ 23) with 8388608 in H0. lia.
    + unfold emin, F32.prec, F32.emax. lia.
  - assert (E0 : V - c * 2 ^ scale = 0).
    { assert (EV' : V = Zpos m * 2 ^ e * 2 ^ scale).
      { rewrite EV, <- Z.mul_assoc, <- Z.pow_add_r by (unfold scale; lia).
        reflexivity. }
      rewrite EV' in Hcl, Hcu.
      rewrite (quotient_of_integer (Zpos m * 2 ^ e) c (2 ^ scale) H HH HP
                 Hcl Hcu).
      rewrite EV'. lia. }
    apply (binary_normalize_fits F32.prec F32.emax ltac:(reflexivity)
             emin_ok zo ez 0 0).
    + exact Hez.
    + rewrite Hzo, E0. reflexivity.
    + reflexivity.
    + unfold emin, F32.prec, F32.emax. lia.
Qed.

Lemma F32_of_Z_0 : F32.of_Z 0 = S754_zero false.
Proof. reflexivity. Qed.

(** The whole of the calibration arithmetic: when the conversion of
    [(double)mean + .5] to the unsigned center is defined, the mean is a
    number, the center is the exact sum truncated, and the subtraction that
    gives the offset is exact. *)
Lemma calibration_exact (x : float) (c : Z) :
  F32.valid x = true ->
  IEEE.to_integer 0 UINT32_MAX (F64.add (F64.of_float x) F64.lit_0_5)
    = Some c ->
  exists v,
    represents x v /\
    c = Z.quot (v + 2 ^ (scale - 1)) (2 ^ scale) /\
    represents (F32.sub x (F32.of_Z c)) (v - c * 2 ^ scale).
Proof.
  intros Hv Hc. destruct x as [s|s| |s m e].
  - assert (Ec : c = 0).
    { destruct s; vm_compute in Hc; congruence. }
    subst c. exists 0. split; [reflexivity|]. split.
    + symmetry. apply Z.quot_small. unfold scale. simpl Z.sub.
      split; [apply Z.lt_le_incl, pow2_pos; lia|].
      apply Z.pow_lt_mono_r; lia.
    + destruct s; reflexivity.
  - destruct s; vm_compute in Hc; discriminate.
  - vm_compute in Hc. discriminate.
  - destruct (to_integer_Some _ _ _ _ Hc) as [_ Hr].
    pose proof (center_exact s m e c Hv Hc) as Ec.
    exists (scaled (S754_finite s m e)). split; [|split].
    + destruct (valid32_finite s m e Hv) as [_ He].
      split; [unfold scale; lia|reflexivity].
    + exact Ec.
    + apply offset_exact; [assumption|assumption|lia].
Qed.

(** ** Values as rational numbers *)

Lemma SF2Q_represents (x : spec_float) (v : Z) :
  represents x v ->
  (IEEE.SF2Q x == inject_Z v / inject_Z (2 ^ scale))%Q.
Proof.
  assert (H2 : ~ (2 == 0)%Q) by discriminate.
  assert (HP : ~ (inject_Z (2 ^ scale) == 0)%Q).
  { rewrite Zpower_Qpower by (unfold scale; lia).
    apply Qpower_not_0. exact H2. }
  destruct x as [s|s| |s m e]; unfold represents; try contradiction.
  - intros ->. unfold IEEE.SF2Q. field. exact HP.
  - intros [He <-]. unfold IEEE.SF2Q, scaled.
    rewrite inject_Z_mult.
    rewrite (Zpower_Qpower 2 (e + scale)) by lia.
    rewrite (Zpower_Qpower 2 scale) in * by (unfold scale; lia).
    rewrite Qpower_plus by exact H2.
    change (inject_Z 2) with 2%Q. field. exact HP.
Qed.

Lemma Qtruncate_quot (q : Q) (a b : Z) :
  0 < b -> (q == inject_Z a / inject_Z b)%Q -> IEEE.Qtruncate q = Z.quot a b.
Proof.
  intros Hb Hq. destruct q as [n d]. unfold IEEE.Qtruncate. simpl.
  assert (E : n * b = a * Zpos d).
  { assert (Hb' : ~ (inject_Z b == 0)%Q).
    { unfold Qeq. simpl. lia. }
    assert (Hq' : ((n # d) * inject_Z b == inject_Z a)%Q).
    { rewrite Hq. field. exact Hb'. }
    unfold Qeq in Hq'. simpl in Hq'. lia. }
  rewrite <- (Z.quot_mul_cancel_r n (Zpos d) b) by lia.
  rewrite E, (Z.mul_comm (Zpos d) b).
  apply Z.quot_mul_cancel_r; lia.
Qed.

(** The calibration arithmetic, read in the rational numbers. *)
Lemma calibration_exact_Q (x : float) (c : Z) :
  F32.valid x = true ->
  IEEE.to_integer 0 UINT32_MAX (F64.add (F64.of_float x) F64.lit_0_5)
    = Some c ->
  IEEE.is_finite x = true /\
  c = IEEE.Qtruncate (IEEE.SF2Q x + (1 # 2)) /\
  (IEEE.SF2Q (F32.sub x (F32.of_Z c)) == IEEE.SF2Q x - inject_Z c)%Q.
Proof.
  intros Hv Hc.
  destruct (calibration_exact x c Hv Hc) as (v & Hx & Ec & Ho).
  assert (H2 : ~ (inject_Z (2 ^ scale) == 0)%Q).
  { rewrite Zpower_Qpower by (unfold scale; lia).
    apply Qpower_not_0. discriminate. }
  pose proof (pow2_pos scale ltac:(unfold scale; lia)) as HP.
  split; [|split].
  - destruct x; simpl in Hx; try contradiction; reflexivity.
  - rewrite Ec. symmetry. apply Qtruncate_quot; [exact HP|].
    rewrite (SF2Q_represents x v Hx).
    rewrite inject_Z_plus, scale_half, inject_Z_mult.
    rewrite scale_half, inject_Z_mult in H2.
    change (inject_Z 2) with 2%Q in *. 
    assert (H3 : ~ (inject_Z (2 ^ (scale - 1)) == 0)%Q).
    { intros E. apply H2. rewrite E. ring. }
    field. exact H3.
  - rewrite (SF2Q_represents _ _ Ho), (SF2Q_represents x v Hx).
    unfold Zminus. rewrite inject_Z_plus, inject_Z_opp, inject_Z_mult.
    field. exact H2.
Qed.

(** ** Arithmetic of the rate at rest *)

Lemma SFsub_valid (prec emax : Z) (x y : spec_float) :
  valid_binary prec emax x = true -> valid_binary prec emax y = true ->
  valid_binary prec emax (SFsub prec emax x y) = true.
Proof.
  intros Hx Hy.
  destruct x as [sx|sx| |sx mx ex], y as [sy|sy| |sy my ey];
    try reflexivity; try assumption;
    try (destruct sx, sy; reflexivity).
  unfold SFsub. apply binary_normalize_valid.
Qed.

Lemma F64_of_float_represents (x : float) (v : Z) :
  F32.valid x = true -> represents x v -> represents (F64.of_float x) v.
Proof.
  intros Hv Hx. destruct x as [s|s| |s m e]; try exact Hx.
  destruct (F64_of_float_finite s m e Hv) as (m' & e' & -> & He' & Hm').
  destruct (valid32_finite s m e Hv) as [_ He].
  pose proof (Zdigits2_pos (Zpos m) ltac:(lia)).
  destruct Hx as [_ <-]. split; [unfold scale; lia|].
  unfold scaled. rewrite <- !cond_Zopp_mul. f_equal. exact Hm'.
Qed.

Lemma F64_of_Z_represents (c : Z) :
  0 <= c < 2 ^ 53 -> represents (F64.of_Z c) (c * 2 ^ scale).
Proof.
  intros Hc.
  pose proof (binary_normalize_fits F64.prec F64.emax ltac:(reflexivity)
                ltac:(vm_compute; discriminate) c 0 c 0 false) as H.
  rewrite Z.add_0_l in H. apply H.
  - unfold scale; lia.
  - reflexivity.
  - unfold F64.prec. lia.
  - unfold emin, F64.prec, F64.emax. lia.
Qed.

(** An addition whose exact result fits the format is exact. *)
Lemma F64_add_represents (x y : double) (vx vy k g0 : Z) :
  represents x vx -> represents y vy ->
  vx + vy = k * 2 ^ (g0 + scale) ->
  Z.abs k < 2 ^ 53 -> -1074 <= g0 <= 971 ->
  represents (F64.add x y) (vx + vy).
Proof.
  intros Hx Hy Hk1 Hk2 Hk3.
  destruct x as [sx|sx| |sx mx ex], y as [sy|sy| |sy my ey];
    try contradiction.
  - simpl in Hx, Hy. subst. destruct sx, sy; reflexivity.
  - simpl in Hx. subst vx. rewrite Z.add_0_l. exact Hy.
  - simpl in Hy. subst vy. rewrite Z.add_0_r. exact Hx.
  - destruct Hx as [Hex <-], Hy as [Hey <-].
    unfold F64.add. rewrite SFadd_finite.
    set (ez := Z.min ex ey).
    assert (Hez : - scale <= ez) by (unfold ez; lia).
    set (z := cond_Zopp sx (Zpos mx * 2 ^ (ex - ez)) +
              cond_Zopp sy (Zpos my * 2 ^ (ey - ez))).
    assert (Hz : z * 2 ^ (ez + scale) =
                 scaled (S754_finite sx mx ex) + scaled (S754_finite sy my ey)).
    { unfold z. rewrite Z.mul_add_distr_r.
      rewrite (aligned_scaled sx mx ex ez) by (unfold ez in *; lia).
      rewrite (aligned_scaled sy my ey ez) by (unfold ez in *; lia).
      reflexivity. }
    rewrite <- Hz.
    apply (binary_normalize_fits F64.prec F64.emax ltac:(reflexivity)
             ltac:(vm_compute; discriminate) z ez k g0 false Hez).
    + rewrite Hz. exact Hk1.
    + exact Hk2.
    + exact Hk3.
Qed.

(** The difference of two numbers of the same value is a zero. *)
Lemma F64_sub_same (x y : double) (v : Z) :
  represents x v -> represents y v -> IEEE.is_zero (F64.sub x y) = true.
Proof.
  intros Hx Hy.
  destruct x as [sx|sx| |sx mx ex], y as [sy|sy| |sy my ey];
    try contradiction.
  - destruct sx, sy; reflexivity.
  - exfalso. simpl in Hx. subst v. destruct Hy as [He Hy].
    unfold scaled in Hy. pose proof (pow2_pos (ey + scale) ltac:(lia)).
    destruct sy; unfold cond_Zopp in Hy; nia.
  - exfalso. simpl in Hy. subst v. destruct Hx as [He Hx].
    unfold scaled in Hx. pose proof (pow2_pos (ex + scale) ltac:(lia)).
    destruct sx; unfold cond_Zopp in Hx; nia.
  - destruct Hx as [Hex Hx], Hy as [Hey Hy].
    unfold F64.sub. rewrite SFsub_finite.
    set (ez := Z.min ex ey).
    set (z := cond_Zopp sx (Zpos mx * 2 ^ (ex - ez)) -
              cond_Zopp sy (Zpos my * 2 ^ (ey - ez))).
    assert (Hz : z * 2 ^ (ez + scale) = 0).
    { unfold z. rewrite Z.mul_sub_distr_r.
      rewrite (aligned_scaled sx mx ex ez) by (unfold ez in *; lia).
      rewrite (aligned_scaled sy my ey ez) by (unfold ez in *; lia).
      lia. }
    pose proof (pow2_pos (ez + scale) ltac:(unfold ez; lia)).
    assert (z = 0) by nia. rewrite H0. reflexivity.
Qed.

Lemma F64_mul_zero_l (z x : double) :
  IEEE.is_zero z = true -> IEEE.is_finite x = true ->
  IEEE.is_zero (F64.mul z x) = true.
Proof.
  destruct z as [sz|sz| |sz mz ez]; try discriminate.
  destruct x as [sx|sx| |sx mx ex]; try discriminate; reflexivity.
Qed.

Lemma F64_div_zero_l (z d : double) :
  IEEE.is_zero z = true -> IEEE.is_zero d = false -> IEEE.is_nan d = false ->
  IEEE.is_zero (F64.div z d) = true.
Proof.
  destruct z as [sz|sz| |sz mz ez]; try discriminate.
  destruct d as [sx|sx| |sx mx ex]; try discriminate; reflexivity.
Qed.

(** After a calibration the bias [center + offset], as [GetRate] forms it,
    is the mean again. *)
Lemma bias_is_mean (x : float) (c : Z) :
  F32.valid x = true ->
  IEEE.to_integer 0 UINT32_MAX (F64.add (F64.of_float x) F64.lit_0_5)
    = Some c ->
  IEEE.is_zero
    (F64.sub (F64.of_float x)
       (F64.add (F64.of_Z c) (F64.of_float (F32.sub x (F32.of_Z c)))))
    = true.
Proof.
  intros Hv Hc.
  destruct (to_integer_Some _ _ _ _ Hc) as [_ Hr].
  destruct (calibration_exact x c Hv Hc) as (v & Hx & Ec & Ho).
  assert (Hvo : F32.valid (F32.sub x (F32.of_Z c)) = true).
  { apply SFsub_valid; [exact Hv|]. apply binary_normalize_valid. }
  apply F64_sub_same with v.
  - apply F64_of_float_represents; assumption.
  - replace v with (c * 2 ^ scale + (v - c * 2 ^ scale)) at 1 by lia.
    assert (Hfit : exists k g0, c * 2 ^ scale + (v - c * 2 ^ scale)
                                = k * 2 ^ (g0 + scale) /\
                                Z.abs k < 2 ^ 53 /\ -1074 <= g0 <= 971).
    { replace (c * 2 ^ scale + (v - c * 2 ^ scale)) with v by lia.
      destruct x as [s|s| |s m e]; try contradiction.
      - simpl in Hx. subst v. exists 0, 0. repeat split; lia.
      - destruct Hx as [_ <-].
        destruct (valid32_finite s m e Hv) as [Hd He].
        destruct (mantissa24 m Hd) as [Hm0 Hm].
        exists (cond_Zopp s (Zpos m)), e. split; [reflexivity|].
        split; [|lia]. rewrite abs_cond_Zopp.
        apply Z.lt_trans with (2 ^ 24); [lia|reflexivity]. }
    destruct Hfit as (k & g0 & Hk1 & Hk2 & Hk3).
    apply F64_add_represents with k g0; try assumption.
    + apply F64_of_Z_represents. unfold UINT32_MAX in Hr.
      change (2 ^ 32 - 1) with 4294967295 in Hr.
      change (2 ^ 53) with 9007199254740992. lia.
    + apply F64_of_float_represents; assumption.
Qed.

(** The floating-integral conversion is the truncation toward zero of the
    value. *)
Lemma truncate_Qtruncate (x : spec_float) (z : Z) :
  IEEE.truncate x = Some z -> z = IEEE.Qtruncate (IEEE.SF2Q x).
Proof.
  destruct x as [s|s| |s m e]; try discriminate.
  - intros [= <-]. reflexivity.
  - unfold IEEE.truncate. intros H.
    assert (E : forall a b : Z, Some a = Some b -> b = a)
      by (intros a b Hab; congruence).
    apply E in H. rewrite H. clear H E.
    assert (H2 : ~ (2 == 0)%Q) by discriminate.
    destruct e as [|p|p].
    + symmetry. transitivity (Z.quot (cond_Zopp s (Zpos m)) 1).
      * apply Qtruncate_quot; [lia|].
        unfold IEEE.SF2Q. simpl Qpower. field.
      * apply Z.quot_1_r.
    + symmetry. transitivity (Z.quot (cond_Zopp s (Zpos m) * 2 ^ Zpos p) 1).
      * apply Qtruncate_quot; [lia|].
        unfold IEEE.SF2Q. rewrite inject_Z_mult.
        rewrite (Zpower_Qpower 2 (Zpos p)) by lia.
        change (inject_Z 2) with 2%Q. change (inject_Z 1) with 1%Q. field.
      * rewrite Z.quot_1_r. symmetry. apply cond_Zopp_mul.
    + pose proof (pow2_pos (Zpos p) ltac:(lia)) as Hp.
      symmetry. transitivity (Z.quot (cond_Zopp s (Zpos m)) (2 ^ Zpos p)).
      * apply Qtruncate_quot; [exact Hp|].
        unfold IEEE.SF2Q.
        rewrite (Zpower_Qpower 2 (Zpos p)) by lia.
        change (inject_Z 2) with 2%Q.
        change (Zneg p) with (- Zpos p).
        rewrite Qpower_opp. field.
        apply Qpower_not_0. exact H2.
      * destruct s; unfold cond_Zopp.
        -- rewrite Z.quot_opp_l by lia.
           rewrite Z.quot_div_nonneg by lia. reflexivity.
        -- rewrite Z.quot_div_nonneg by lia. reflexivity.
Qed.

(** ** Magnitudes

    How far the operations can move a number: bounds on [digits + exponent]
    through rounding, multiplication and division, and the error of a
    rounding. *)

Lemma represents_is_finite (x : spec_float) (v : Z) :
  represents x v -> IEEE.is_finite x = true.
Proof. destruct x; simpl; try contradiction; reflexivity. Qed.

Lemma pow2_lt_53 (n : Z) : 0 <= n < 31 -> 0 <= 2 ^ n < 2 ^ 53.
Proof.
  intros H. split; [apply Z.lt_le_incl, pow2_pos; lia|].
  apply Z.pow_lt_mono_r; lia.
Qed.

Lemma Zdigits2_succ (n : Z) : 0 <= n -> Zdigits2 (n + 1) <= Zdigits2 n + 1.
Proof.
  intros Hn. pose proof (Zdigits2_nonneg n) as Hd.
  apply Zdigits2_bound; [|lia].
  destruct (Z.eq_dec n 0) as [->|Hn0].
  - simpl. lia.
  - pose proof (Zdigits2_spec n ltac:(lia)) as [_ H].
    rewrite Z.pow_add_r by lia. change (2 ^ 1) with 2. lia.
Qed.

Lemma Zdigits2_div_upper (m k : Z) :
  0 <= m -> 0 <= k -> Zdigits2 (m / 2 ^ k) <= Z.max (Zdigits2 m - k) 0.
Proof.
  intros Hm Hk. pose proof (pow2_pos k Hk) as Hp.
  assert (Hq : 0 <= m / 2 ^ k) by (apply Z.div_pos; lia).
  destruct (Z.eq_dec (m / 2 ^ k) 0) as [E|E].
  - rewrite E. simpl. lia.
  - rewrite Zdigits2_div_pow2; try lia.
    destruct (Z.eq_dec m 0) as [->|Hm0]; [rewrite Z.div_0_l in E; lia|lia].
Qed.

Section Magnitude.

Variables prec emax : Z.
Hypothesis prec_gt_1 : 1 < prec.

(** The result of the renormalisation has the magnitude of what it is
    given. *)
Lemma finish_finite (sx : bool) (r g : Z) :
  0 < r -> g <= fexp prec emax (Zdigits2 r + g) ->
  0 < r / 2 ^ (fexp prec emax (Zdigits2 r + g) - g) ->
  fexp prec emax (Zdigits2 r + g) <= emax - prec ->
  exists mz ez,
    IEEE.finish prec emax sx r g = S754_finite sx mz ez /\
    Zdigits2 (Zpos mz) + ez = Zdigits2 r + g.
Proof.
  intros Hr Hg Hq Hmax. rewrite finish_spec by assumption.
  set (g' := fexp prec emax (Zdigits2 r + g)) in *.
  replace (g' <=? emax - prec) with true by (symmetry; apply Z.leb_le; lia).
  eexists. eexists. split; [reflexivity|].
  rewrite Z2Pos.id by lia. rewrite Zdigits2_div_pow2 by lia. lia.
Qed.

Lemma finish_cases (sx : bool) (r g mu : Z) :
  0 <= r -> g <= fexp prec emax (Zdigits2 r + g) ->
  Zdigits2 r + g <= mu -> fexp prec emax mu <= emax - prec ->
  match IEEE.finish prec emax sx r g with
  | S754_zero s => s = sx
  | S754_finite s mz ez => s = sx /\ Zdigits2 (Zpos mz) + ez <= mu
  | _ => False
  end.
Proof.
  intros Hr Hg Hmu Hmax.
  set (g' := fexp prec emax (Zdigits2 r + g)) in *.
  assert (Hg' : g' <= emax - prec).
  { apply Z.le_trans with (2 := Hmax). apply fexp_mono. exact Hmu. }
  assert (Hq0 : 0 <= r / 2 ^ (g' - g)).
  { apply Z.div_pos; [lia|apply pow2_pos; lia]. }
  destruct (Z.eq_dec (r / 2 ^ (g' - g)) 0) as [E|E].
  - unfold IEEE.finish, shr_fexp. fold g'.
    destruct (shr_spec (shr_record_of_loc r loc_Exact) g (g' - g))
      as [H1 H2]; [simpl; lia|lia|].
    destruct (shr (shr_record_of_loc r loc_Exact) g (g' - g)) as [mrs e].
    simpl in H1, H2. rewrite H1, E. reflexivity.
  - assert (Hr0 : 0 < r).
    { destruct (Z.eq_dec r 0) as [->|]; [rewrite Z.div_0_l in E; lia|lia]. }
    destruct (finish_finite sx r g Hr0 Hg ltac:(fold g'; lia)
                ltac:(fold g'; lia)) as (mz & ez & -> & Hd).
    split; [reflexivity|lia].
Qed.

(** Rounding raises the magnitude [digits + exponent] by one at most. *)
Lemma binary_round_aux_cases (sx : bool) (mx ex : Z) (lx : location)
    (mu : Z) :
  0 <= mx -> ex <= fexp prec emax (Zdigits2 mx + ex) ->
  Zdigits2 mx + ex + 1 <= mu -> emin prec emax + 1 <= mu ->
  fexp prec emax mu <= emax - prec ->
  match binary_round_aux prec emax sx mx ex lx with
  | S754_zero s => s = sx
  | S754_finite s mz ez => s = sx /\ Zdigits2 (Zpos mz) + ez <= mu
  | _ => False
  end.
Proof.
  intros Hm Hg Hmu Hmin Hmax.
  destruct (binary_round_aux_stage1 prec emax sx mx ex lx Hm Hg)
    as (r & Hr & _ & ->).
  set (g := fexp prec emax (Zdigits2 mx + ex)) in *.
  assert (Hq0 : 0 <= mx / 2 ^ (g - ex)).
  { apply Z.div_pos; [lia|apply pow2_pos; lia]. }
  pose proof (Zdigits2_div_pow2_le mx (g - ex) Hm ltac:(lia)) as Hd.
  pose proof (Zdigits2_div_upper mx (g - ex) Hm ltac:(lia)) as Hu.
  pose proof (Zdigits2_succ (mx / 2 ^ (g - ex)) Hq0) as Hs.
  assert (Hd' : Zdigits2 (mx / 2 ^ (g - ex)) <= Zdigits2 r).
  { apply Zdigits2_le. lia. }
  assert (Hr' : Zdigits2 r <= Zdigits2 (mx / 2 ^ (g - ex)) + 1).
  { destruct Hr as [->| ->]; lia. }
  apply finish_cases; [lia| | |exact Hmax].
  - unfold g at 1. apply fexp_mono. lia.
  - assert (g <= Z.max (Zdigits2 mx + ex) (emin prec emax)).
    { unfold g, fexp. fold (emin prec emax). lia. }
    lia.
Qed.

(** Division: the magnitude of the quotient is at most the difference of
    the magnitudes, plus two. *)
Lemma SFdiv_cases (sx : bool) (mx : positive) (ex : Z) (sy : bool)
    (my : positive) (ey mu : Z) :
  Zdigits2 (Zpos mx) + ex - (Zdigits2 (Zpos my) + ey) + 2 <= mu ->
  emin prec emax + 1 <= mu ->
  fexp prec emax mu <= emax - prec ->
  match SFdiv prec emax (S754_finite sx mx ex) (S754_finite sy my ey) with
  | S754_zero s => s = xorb sx sy
  | S754_finite s mz ez => s = xorb sx sy /\ Zdigits2 (Zpos mz) + ez <= mu
  | _ => False
  end.
Proof.
  intros Hmu Hmin Hmax. unfold SFdiv.
  destruct (SFdiv_core_binary_ok prec emax ltac:(lia) (Zpos mx) ex (Zpos my) ey)
    as [H1 H2]; try lia.
  assert (H3 : Zdigits2
                 (fst (fst (SFdiv_core_binary prec emax (Zpos mx) ex
                              (Zpos my) ey)))
               + snd (fst (SFdiv_core_binary prec emax (Zpos mx) ex
                             (Zpos my) ey))
               <= Z.max (Zdigits2 (Zpos mx) + ex
                         - (Zdigits2 (Zpos my) + ey) + 1)
                        (emin prec emax)).
  { clear H1 H2. unfold SFdiv_core_binary.
    set (m1 := Zpos mx). set (m2 := Zpos my).
    set (d1 := Zdigits2 m1). set (d2 := Zdigits2 m2).
    set (t := d1 + ex - (d2 + ey)).
    set (e' := Z.min (fexp prec emax t) (ex - ey)).
    set (s := ex - ey - e').
    set (m' := match s with
               | 0 => m1
               | Zpos _ => Z.shiftl m1 s
               | Zneg _ => 0
               end).
    assert (Hs : 0 <= s) by (unfold s, e'; lia).
    assert (Em : m' = m1 * 2 ^ s).
    { unfold m'. destruct s as [|p|p] eqn:Es; try lia.
      apply Z.shiftl_mul_pow2. lia. }
    assert (Eq : fst (Z.div_eucl m' m2) = m' / m2) by reflexivity.
    destruct (Z.div_eucl m' m2) as [q r]. simpl in Eq. simpl.
    pose proof (pow2_pos s Hs) as Hps.
    pose proof (Zdigits2_spec m1 ltac:(unfold m1; lia)) as [Ha1 Ha2].
    pose proof (Zdigits2_spec m2 ltac:(unfold m2; lia)) as [Hb1 Hb2].
    fold d1 in Ha1, Ha2. fold d2 in Hb1, Hb2.
    pose proof (Zdigits2_pos m1 ltac:(unfold m1; lia)) as Hd1.
    pose proof (Zdigits2_pos m2 ltac:(unfold m2; lia)) as Hd2.
    fold d1 in Hd1. fold d2 in Hd2.
    pose proof (pow2_pos (d2 - 1) ltac:(lia)) as Hp2.
    assert (Hq0 : 0 <= q).
    { rewrite Eq. apply Z.div_pos; [|unfold m2; lia]. unfold m1 in *. nia. }
    assert (He' : e' <= Z.max t (emin prec emax)).
    { unfold e', fexp. fold (emin prec emax). lia. }
    destruct (Z_lt_le_dec (d1 + s - d2 + 1) 0) as [Hneg|Hpos].
    - (* the quotient is zero *)
      assert (q = 0).
      { rewrite Eq. apply Z.div_small. split; [unfold m1 in *; nia|].
        rewrite Em. apply Z.lt_le_trans with (2 ^ d1 * 2 ^ s); [nia|].
        rewrite <- Z.pow_add_r by lia.
        apply Z.le_trans with (2 ^ (d2 - 1)); [|lia].
        apply Z.pow_le_mono_r; lia. }
      rewrite H. change (Zdigits2 0) with 0. lia.
    - assert (Hq : q < 2 ^ (d1 + s - d2 + 1)).
      { rewrite Eq. apply Z.div_lt_upper_bound; [unfold m2; lia|].
        rewrite Em.
        apply Z.lt_le_trans with (2 ^ d1 * 2 ^ s); [nia|].
        apply Z.le_trans with (2 ^ (d2 - 1) * 2 ^ (d1 + s - d2 + 1)).
        - rewrite <- !Z.pow_add_r by lia.
          apply Z.pow_le_mono_r; lia.
        - pose proof (pow2_pos (d1 + s - d2 + 1) Hpos). nia. }
      pose proof (Zdigits2_bound q (d1 + s - d2 + 1) ltac:(lia) Hpos).
      unfold s, t in *. lia. }
  destruct (SFdiv_core_binary prec emax (Zpos mx) ex (Zpos my) ey)
    as [[mz ez] lz].
  cbn [fst snd] in H1, H2, H3.
  apply binary_round_aux_cases; try assumption. lia.
Qed.

(** Normalisation of a positive integer in the normal range: the
    magnitude is kept or raised by one. *)
Lemma binary_round_magnitude (sx : bool) (mx : positive) (ex : Z) :
  emin prec emax <= Zdigits2 (Zpos mx) + ex - prec ->
  Zdigits2 (Zpos mx) + ex + 1 <= emax ->
  exists mz ez,
    binary_round prec emax sx mx ex = S754_finite sx mz ez /\
    Zdigits2 (Zpos mx) + ex <= Zdigits2 (Zpos mz) + ez
      <= Zdigits2 (Zpos mx) + ex + 1.
Proof.
  intros Hmin Hmax.
  destruct (binary_round_as_finish prec emax sx mx ex)
    as (r & Hup & Hdown & ->).
  set (d := Zdigits2 (Zpos mx)) in *.
  set (g := fexp prec emax (d + ex)) in *.
  assert (Eg : g = d + ex - prec).
  { unfold g, fexp. fold (emin prec emax). lia. }
  pose proof (Zdigits2_pos (Zpos mx) ltac:(lia)) as Hd0. fold d in Hd0.
  assert (Hr : prec <= Zdigits2 r <= prec + 1 /\ 0 < r).
  { destruct (Z_le_gt_dec g ex) as [Hc|Hc].
    - rewrite (Hup Hc). pose proof (pow2_pos (ex - g) ltac:(lia)).
      rewrite Zdigits2_mul_pow2 by lia. fold d. lia.
    - destruct (Hdown ltac:(lia)) as [Hq _].
      pose proof (Zdigits2_spec (Zpos mx) ltac:(lia)) as [Hlo _].
      fold d in Hlo.
      assert (Hq1 : 2 ^ (prec - 1) <= Zpos mx / 2 ^ (g - ex)).
      { apply Z.div_le_lower_bound; [apply pow2_pos; lia|].
        rewrite <- Z.pow_add_r by lia.
        replace (g - ex + (prec - 1)) with (d - 1) by lia. exact Hlo. }
      pose proof (pow2_pos (prec - 1) ltac:(lia)) as Hpp.
      assert (Hdq : Zdigits2 (Zpos mx / 2 ^ (g - ex)) = prec).
      { rewrite Zdigits2_div_pow2 by lia. fold d. lia. }
      pose proof (Zdigits2_succ (Zpos mx / 2 ^ (g - ex)) ltac:(lia)) as Hs.
      pose proof (Zdigits2_le (Zpos mx / 2 ^ (g - ex))
                    (Zpos mx / 2 ^ (g - ex) + 1) ltac:(lia)) as Hm.
      destruct Hq as [->| ->]; lia. }
  destruct Hr as [[Hr1 Hr2] Hr0].
  set (g' := fexp prec emax (Zdigits2 r + g)).
  assert (Eg' : g' = Zdigits2 r + g - prec).
  { unfold g', fexp. fold (emin prec emax). lia. }
  destruct (finish_finite sx r g Hr0) as (mz & ez & E & Hd).
  - fold g'. lia.
  - fold g'. pose proof (Zdigits2_spec r Hr0) as [Hlo _].
    apply Z.div_str_pos. split; [apply pow2_pos; lia|].
    apply Z.le_trans with (2 := Hlo). apply Z.pow_le_mono_r; lia.
  - fold g'. lia.
  - exists mz, ez. split; [exact E|]. lia.
Qed.

End Magnitude.

(** The conversion of a positive integer of 64 bits to [float] keeps its
    magnitude or raises it by one. *)
Lemma F32_of_Z_magnitude (z : Z) :
  0 < z < 2 ^ 64 ->
  exists m e,
    F32.of_Z z = S754_finite false m e /\
    Zdigits2 z <= Zdigits2 (Zpos m) + e <= Zdigits2 z + 1.
Proof.
  intros Hz. destruct z as [|p|p]; try lia.
  pose proof (Zdigits2_pos (Zpos p) ltac:(lia)) as Hd0.
  pose proof (Zdigits2_bound (Zpos p) 64 ltac:(lia) ltac:(lia)) as Hd1.
  destruct (binary_round_magnitude F32.prec F32.emax ltac:(reflexivity)
              false p 0) as (m & e & E & Hm).
  - unfold emin, F32.prec, F32.emax. lia.
  - unfold F32.emax. lia.
  - exists m, e. split; [exact E|]. lia.
Qed.

Lemma Zdigits2_mul_bounds (a b : Z) :
  0 < a -> 0 < b ->
  Zdigits2 a + Zdigits2 b - 1 <= Zdigits2 (a * b)
    <= Zdigits2 a + Zdigits2 b.
Proof.
  intros Ha Hb.
  pose proof (Zdigits2_spec a Ha) as [Ha1 Ha2].
  pose proof (Zdigits2_spec b Hb) as [Hb1 Hb2].
  pose proof (Zdigits2_pos a Ha) as Hda.
  pose proof (Zdigits2_pos b Hb) as Hdb.
  pose proof (pow2_pos (Zdigits2 a - 1) ltac:(lia)) as Hpa.
  pose proof (pow2_pos (Zdigits2 b - 1) ltac:(lia)) as Hpb.
  split.
  - assert (H : Zdigits2 a - 1 + (Zdigits2 b - 1) < Zdigits2 (a * b)).
    { apply Zdigits2_lower; [|lia]. rewrite Z.pow_add_r by lia.
      apply Z.mul_le_mono_nonneg; lia. }
    lia.
  - apply Zdigits2_bound; [|lia]. split; [lia|].
    rewrite Z.pow_add_r by lia.
    apply Z.mul_lt_mono_nonneg; lia.
Qed.

Section Product.

Variables prec emax : Z.
Hypothesis prec_gt_1 : 1 < prec.

(** Multiplication: the magnitude of the product is at most the sum of the
    magnitudes, plus one. *)
Lemma SFmul_cases (sx : bool) (mx : positive) (ex : Z) (sy : bool)
    (my : positive) (ey mu : Z) :
  prec + 1 <= Zdigits2 (Zpos mx) + Zdigits2 (Zpos my) ->
  Zdigits2 (Zpos mx) + ex + (Zdigits2 (Zpos my) + ey) + 1 <= mu ->
  emin prec emax + 1 <= mu ->
  fexp prec emax mu <= emax - prec ->
  match SFmul prec emax (S754_finite sx mx ex) (S754_finite sy my ey) with
  | S754_zero s => s = xorb sx sy
  | S754_finite s mz ez => s = xorb sx sy /\ Zdigits2 (Zpos mz) + ez <= mu
  | _ => False
  end.
Proof.
  intros Hd Hmu Hmin Hmax. unfold SFmul.
  pose proof (Zdigits2_mul_bounds (Zpos mx) (Zpos my) ltac:(lia) ltac:(lia))
    as [Hl Hu].
  rewrite <- Pos2Z.inj_mul in Hl, Hu.
  apply (binary_round_aux_cases prec emax prec_gt_1); try assumption.
  - lia.
  - unfold fexp. lia.
  - lia.
Qed.

End Product.

(** The integer part of a number below [2 ^ k]. *)
Lemma truncate_below (x : spec_float) (k : Z) :
  0 <= k -> below_pow2 x k ->
  exists t, IEEE.truncate x = Some t /\ Z.abs t < 2 ^ k.
Proof.
  intros Hk Hx. pose proof (pow2_pos k Hk) as Hpk.
  destruct x as [s|s| |s m e]; try contradiction.
  - exists 0. split; [reflexivity|simpl; lia].
  - unfold below_pow2 in Hx. unfold IEEE.truncate.
    set (t := match e with
              | 0 => Zpos m
              | Zpos _ => Zpos m * 2 ^ e
              | Zneg q => Zpos m / 2 ^ Zpos q
              end).
    assert (Ht : 0 <= t < 2 ^ k).
    { assert (Hb : forall n, 0 <= n -> Zdigits2 n <= k -> n < 2 ^ k).
      { intros n Hn Hd. destruct (Z.eq_dec n 0) as [->|]; [assumption|].
        pose proof (Zdigits2_spec n ltac:(lia)) as [_ H].
        apply Z.lt_le_trans with (1 := H).
        apply Z.pow_le_mono_r; lia. }
      unfold t. destruct e as [|q|q].
      - split; [lia|]. apply Hb; lia.
      - pose proof (pow2_pos (Zpos q) ltac:(lia)).
        split; [lia|]. apply Hb; [lia|].
        rewrite Zdigits2_mul_pow2 by lia. exact Hx.
      - pose proof (pow2_pos (Zpos q) ltac:(lia)).
        assert (0 <= Zpos m / 2 ^ Zpos q) by (apply Z.div_pos; lia).
        split; [assumption|]. apply Hb; [assumption|].
        pose proof (Zdigits2_div_upper (Zpos m) (Zpos q) ltac:(lia)
                      ltac:(lia)).
        change (Zneg q) with (- Zpos q) in Hx. lia. }
    exists (cond_Zopp s t). split; [reflexivity|].
    rewrite abs_cond_Zopp. lia.
Qed.

Lemma below_pow2_le (x : spec_float) (k k' : Z) :
  k <= k' -> below_pow2 x k -> below_pow2 x k'.
Proof. destruct x; simpl; try tauto. lia. Qed.

(** A [float] keeps its magnitude as a [double], with a full mantissa. *)
Lemma F64_of_float_below (x : float) (k : Z) :
  F32.valid x = true -> below_pow2 x k ->
  match F64.of_float x with
  | S754_zero _ => True
  | S754_finite _ m e =>
      Zdigits2 (Zpos m) = 53 /\ Zdigits2 (Zpos m) + e <= k
  | _ => False
  end.
Proof.
  intros Hv Hx. destruct x as [s|s| |s m e]; try contradiction.
  - exact I.
  - destruct (F64_of_float_finite s m e Hv) as (m' & e' & -> & He' & Hm').
    destruct (valid32_finite s m e Hv) as [_ He].
    pose proof (Zdigits2_pos (Zpos m) ltac:(lia)) as Hd.
    assert (E : Zdigits2 (Zpos m') + (e' + scale)
                = Zdigits2 (Zpos m) + (e + scale)).
    { rewrite <- !Zdigits2_mul_pow2 by (unfold scale; lia).
      rewrite Hm'. reflexivity. }
    unfold below_pow2 in Hx. lia.
Qed.

(** Product of a number below [2 ^ kx] and a number with a full mantissa
    below [2 ^ ky]. *)
Lemma F64_mul_below (x y : double) (kx ky : Z) :
  below_pow2 x kx ->
  match y with
  | S754_finite _ m e => Zdigits2 (Zpos m) = 53 /\ Zdigits2 (Zpos m) + e <= ky
  | _ => False
  end ->
  -1074 <= kx + ky <= 1000 ->
  below_pow2 (F64.mul x y) (kx + ky + 1).
Proof.
  intros Hx Hy Hk.
  destruct y as [sy|sy| |sy my ey]; try contradiction.
  destruct Hy as [Hd Hy].
  destruct x as [sx|sx| |sx mx ex]; try contradiction; [exact I|].
  unfold below_pow2 in Hx.
  pose proof (Zdigits2_pos (Zpos mx) ltac:(lia)) as Hdx.
  pose proof (SFmul_cases F64.prec F64.emax ltac:(reflexivity) sx mx ex
                sy my ey (kx + ky + 1)) as H.
  assert (H' : match F64.mul (S754_finite sx mx ex) (S754_finite sy my ey)
               with
               | S754_zero s => s = xorb sx sy
               | S754_finite s mz ez =>
                   s = xorb sx sy /\ Zdigits2 (Zpos mz) + ez <= kx + ky + 1
               | _ => False
               end).
  { apply H.
    - unfold F64.prec. lia.
    - lia.
    - unfold emin, F64.prec, F64.emax. lia.
    - unfold fexp, emin, F64.prec, F64.emax. lia. }
  destruct (F64.mul (S754_finite sx mx ex) (S754_finite sy my ey));
    try contradiction; [exact I|apply H'].
Qed.

(** Quotient of a number below [2 ^ kx] by a number of at least
    [2 ^ ky]. *)
Lemma F64_div_below (x y : double) (kx ky : Z) :
  below_pow2 x kx -> at_least_pow2 y ky ->
  -1074 <= kx - ky <= 1000 ->
  below_pow2 (F64.div x y) (kx - ky + 1).
Proof.
  intros Hx Hy Hk.
  destruct y as [sy|sy| |sy my ey]; try contradiction.
  destruct x as [sx|sx| |sx mx ex]; try contradiction; [exact I|].
  unfold below_pow2 in Hx. unfold at_least_pow2 in Hy.
  pose proof (SFdiv_cases F64.prec F64.emax ltac:(reflexivity) sx mx ex
                sy my ey (kx - ky + 1)) as H.
  assert (H' : match F64.div (S754_finite sx mx ex) (S754_finite sy my ey)
               with
               | S754_zero s => s = xorb sx sy
               | S754_finite s mz ez =>
                   s = xorb sx sy /\ Zdigits2 (Zpos mz) + ez <= kx - ky + 1
               | _ => False
               end).
  { apply H.
    - lia.
    - unfold emin, F64.prec, F64.emax. lia.
    - unfold fexp, emin, F64.prec, F64.emax. lia. }
  destruct (F64.div (S754_finite sx mx ex) (S754_finite sy my ey));
    try contradiction; [exact I|apply H'].
Qed.

(** A power of two below [2 ^ 31] as a [double]. *)
Lemma F64_of_pow2_full (n : Z) :
  0 <= n < 31 ->
  match F64.of_Z (2 ^ n) with
  | S754_finite _ m e =>
      Zdigits2 (Zpos m) = 53 /\ Zdigits2 (Zpos m) + e <= n + 1
  | _ => False
  end.
Proof.
  intros Hn.
  pose proof (F64_of_Z_represents (2 ^ n) (pow2_lt_53 n Hn)) as Hr.
  assert (Hv : F64.valid (F64.of_Z (2 ^ n)) = true)
    by apply binary_normalize_valid.
  pose proof (pow2_pos n ltac:(lia)) as Hp.
  pose proof (pow2_pos scale ltac:(unfold scale; lia)) as Hs.
  destruct (F64.of_Z (2 ^ n)) as [s|s| |s m e]; try contradiction.
  - simpl in Hr. nia.
  - destruct Hr as [He Hr]. unfold scaled in Hr.
    assert (Es : s = false).
    { destruct s; [|reflexivity]. unfold cond_Zopp in Hr.
      pose proof (pow2_pos (e + scale) ltac:(lia)). nia. }
    subst s. unfold cond_Zopp in Hr.
    assert (E : Zdigits2 (Zpos m) + (e + scale) = n + 1 + scale).
    { rewrite <- Zdigits2_mul_pow2 by lia. rewrite Hr.
      rewrite <- Z.pow_add_r by (unfold scale; lia).
      apply Zdigits2_unique; [apply pow2_pos; unfold scale; lia|].
      split; [apply Z.pow_le_mono_r; lia|apply Z.pow_lt_mono_r;
                                          unfold scale; lia]. }
    unfold F64.valid, valid_binary, bounded, canonical_mantissa in Hv.
    apply andb_prop in Hv. destruct Hv as [H1 _].
    apply Z.eqb_eq in H1.
    change (Zpos (digits2_pos m)) with (Zdigits2 (Zpos m)) in H1.
    unfold fexp, emin, F64.prec, F64.emax in H1. lia.
Qed.

Lemma F64_of_pow2_finite (n : Z) :
  0 <= n < 31 -> IEEE.is_finite (F64.of_Z (2 ^ n)) = true.
Proof.
  intros H. apply represents_is_finite with (2 ^ n * 2 ^ scale).
  apply F64_of_Z_represents. apply pow2_lt_53. exact H.
Qed.

(** A power of two below [2 ^ 31] converts to [float] as [2 ^ 23] at the
    exponent [n - 23]. *)
Lemma F32_of_pow2 (n : Z) :
  0 <= n < 31 ->
  exists my,
    F32.of_Z (2 ^ n) = S754_finite false my (n - 23) /\ Zpos my = 2 ^ 23.
Proof.
  intros Hn. pose proof (pow2_pos n ltac:(lia)) as Hp.
  unfold F32.of_Z, IEEE.of_Z.
  destruct (2 ^ n) as [|p|p] eqn:E; try lia.
  cbn [binary_normalize].
  destruct (binary_round_fits F32.prec F32.emax ltac:(reflexivity)
              ltac:(vm_compute; discriminate) false p 0 1 n)
    as (mz & gz & Hr & Hg & _ & Hm).
  - unfold scale; lia.
  - rewrite <- E. rewrite Z.add_0_l, Z.mul_1_l.
    symmetry. apply pow2_split; unfold scale; lia.
  - reflexivity.
  - unfold emin, F32.prec, F32.emax. lia.
  - assert (Hd : Zdigits2 (Zpos p) = n + 1).
    { rewrite <- E. apply Zdigits2_unique; [lia|].
      replace (n + 1 - 1) with n by lia. split; [lia|].
      apply Z.pow_lt_mono_r; lia. }
    assert (Eg : gz = n - 23).
    { rewrite Hg, Hd. unfold fexp, emin, F32.prec, F32.emax. lia. }
    exists mz. rewrite Hr, Eg. split; [reflexivity|].
    rewrite Eg, <- E, Z.add_0_l in Hm.
    pose proof (pow2_pos (n - 23 + scale) ltac:(unfold scale; lia)) as Hq.
    assert (E2 : 2 ^ n * 2 ^ scale = 2 ^ 23 * 2 ^ (n - 23 + scale)).
    { rewrite <- !pow2_split by (unfold scale; lia). f_equal. lia. }
    rewrite E2 in Hm.
    apply Z.mul_reg_r in Hm; [exact Hm|lia].
Qed.

(** Multiplication of a [float] by such a power of two does not round,
    unless it overflows. *)
Lemma F32_mul_pow2 (x : float) (n v : Z) :
  F32.valid x = true -> represents x v -> 0 <= n < 31 ->
  IEEE.is_finite (F32.mul x (F32.of_Z (2 ^ n))) = true ->
  F32.valid (F32.mul x (F32.of_Z (2 ^ n))) = true /\
  represents (F32.mul x (F32.of_Z (2 ^ n))) (v * 2 ^ n).
Proof.
  intros Hv Hx Hn Hf.
  destruct (F32_of_pow2 n Hn) as (my & Ey & Hmy).
  rewrite Ey in *.
  destruct x as [sx|sx| |sx mx ex]; try contradiction.
  - simpl in Hx. subst v. split; reflexivity.
  - destruct Hx as [Hex <-].
    assert (Hcan : fexp F32.prec F32.emax (Zdigits2 (Zpos mx) + ex) = ex).
    { unfold F32.valid, valid_binary, bounded, canonical_mantissa in Hv.
      apply andb_prop in Hv. destruct Hv as [H1 _].
      apply Z.eqb_eq in H1. exact H1. }
    unfold F32.mul, SFmul in *. rewrite xorb_false_r in *.
    set (M := Zpos (mx * my)) in *.
    set (E := ex + (n - 23)) in *.
    assert (HM : M = Zpos mx * 2 ^ 23).
    { unfold M. rewrite Pos2Z.inj_mul, Hmy. reflexivity. }
    assert (HdM : Zdigits2 M = Zdigits2 (Zpos mx) + 23).
    { rewrite HM. apply Zdigits2_mul_pow2; lia. }
    pose proof (Zdigits2_pos (Zpos mx) ltac:(lia)) as Hd1.
    set (G := fexp F32.prec F32.emax (Zdigits2 M + E)) in *.
    assert (HG : E <= G /\ G <= ex + n /\ -149 <= G).
    { unfold G, E. rewrite HdM.
      unfold fexp, emin, F32.prec, F32.emax in *. lia. }
    destruct HG as (HG1 & HG2 & HG3).
    assert (Hval : F32.valid
                     (binary_round_aux F32.prec F32.emax sx M E loc_Exact)
                   = true).
    { apply binary_round_aux_valid; [unfold M; lia|exact HG1]. }
    split; [exact Hval|].
    destruct (binary_round_aux_stage1 F32.prec F32.emax
                sx M E loc_Exact ltac:(unfold M; lia) HG1)
      as (r & _ & Hr & Hfin).
    fold G in Hr, Hfin.
    pose proof (pow2_pos (G - E) ltac:(lia)) as Hp1.
    pose proof (pow2_pos (ex + n - G) ltac:(lia)) as Hp2.
    assert (HMs : M = Zpos mx * 2 ^ (ex + n - G) * 2 ^ (G - E)).
    { rewrite HM, <- Z.mul_assoc, <- pow2_split by lia.
      do 2 f_equal. unfold E. lia. }
    assert (Er : r = Zpos mx * 2 ^ (ex + n - G)).
    { rewrite Hr; [|reflexivity|exists (Zpos mx * 2 ^ (ex + n - G)); exact HMs].
      rewrite HMs. apply Z.div_mul. lia. }
    assert (Hr0 : 0 < r) by (rewrite Er; lia).
    assert (Hdr : Zdigits2 r + G = Zdigits2 M + E).
    { rewrite Er, Zdigits2_mul_pow2 by lia. rewrite HdM. unfold E. lia. }
    assert (Hc : fexp F32.prec F32.emax (Zdigits2 r + G) = G).
    { rewrite Hdr. reflexivity. }
    assert (Efin : IEEE.finish F32.prec F32.emax sx r G =
                   if G <=? F32.emax - F32.prec
                   then S754_finite sx (Z.to_pos r) G
                   else S754_infinity sx).
    { rewrite finish_spec; rewrite ?Hc, ?Z.sub_diag, ?Z.div_1_r; try lia.
      reflexivity. }
    rewrite Hfin, Efin in Hf. rewrite Hfin, Efin.
    destruct (G <=? F32.emax - F32.prec); [|discriminate Hf].
    unfold represents. split; [unfold scale; lia|].
    unfold scaled. rewrite Z2Pos.id by lia.
    rewrite <- !cond_Zopp_mul. f_equal.
    rewrite Er, <- !Z.mul_assoc. f_equal.
    rewrite <- !pow2_split by (unfold scale; lia). f_equal. lia.
Qed.

(** ** The error of a rounding *)

Section Enclosure.

Variables prec emax : Z.
Hypothesis prec_gt_1 : 1 < prec.

(** Rounding in the normal range: the result is the truncated mantissa or
    the next one, at the exponent of the format. *)
Lemma binary_round_aux_enclosure (sx : bool) (mx ex : Z) (lx : location) :
  0 < mx -> ex <= Zdigits2 mx + ex - prec ->
  emin prec emax <= Zdigits2 mx + ex - prec ->
  Zdigits2 mx + ex - prec + 1 <= emax - prec ->
  exists mz gz,
    binary_round_aux prec emax sx mx ex lx = S754_finite sx mz gz /\
    Zdigits2 mx + ex - prec <= gz /\
    (Zpos mz * 2 ^ (gz - (Zdigits2 mx + ex - prec))
       = mx / 2 ^ (Zdigits2 mx - prec) \/
     Zpos mz * 2 ^ (gz - (Zdigits2 mx + ex - prec))
       = mx / 2 ^ (Zdigits2 mx - prec) + 1) /\
    2 ^ (prec - 1) <= mx / 2 ^ (Zdigits2 mx - prec).
Proof.
  intros Hm Hle Hnorm Hmax.
  set (d := Zdigits2 mx) in *.
  assert (Eg : fexp prec emax (d + ex) = d + ex - prec).
  { unfold fexp. fold (emin prec emax). lia. }
  destruct (binary_round_aux_stage1 prec emax sx mx ex lx ltac:(lia)
              ltac:(fold d; rewrite Eg; exact Hle)) as (r & Hr & _ & E).
  fold d in Hr, E. rewrite Eg in Hr, E. rewrite E. clear E.
  replace (d + ex - prec - ex) with (d - prec) in * by lia.
  set (q := mx / 2 ^ (d - prec)) in *.
  pose proof (Zdigits2_spec mx Hm) as [Hm1 Hm2]. fold d in Hm1, Hm2.
  pose proof (pow2_pos (d - prec) ltac:(lia)) as Hp.
  pose proof (pow2_pos (prec - 1) ltac:(lia)) as Hp1.
  assert (E2 : 2 ^ prec = 2 * 2 ^ (prec - 1)).
  { replace prec with (1 + (prec - 1)) at 1 by lia.
    rewrite Z.pow_add_r by lia. reflexivity. }
  assert (Hq : 2 ^ (prec - 1) <= q < 2 ^ prec).
  { unfold q. split.
    - apply Z.div_le_lower_bound; [lia|]. rewrite <- Z.pow_add_r by lia.
      replace (d - prec + (prec - 1)) with (d - 1) by lia. lia.
    - apply Z.div_lt_upper_bound; [lia|]. rewrite <- Z.pow_add_r by lia.
      replace (d - prec + prec) with d by lia. lia. }
  destruct (Z_lt_le_dec r (2 ^ prec)) as [Hs|Hs].
  - assert (Hdr : Zdigits2 r = prec).
    { apply Zdigits2_unique; lia. }
    assert (Hc : fexp prec emax (Zdigits2 r + (d + ex - prec))
                 = d + ex - prec).
    { rewrite Hdr. unfold fexp. fold (emin prec emax). lia. }
    rewrite finish_spec; rewrite ?Hc, ?Z.sub_diag, ?Z.div_1_r; try lia.
    replace (d + ex - prec <=? emax - prec) with true
      by (symmetry; apply Z.leb_le; lia).
    exists (Z.to_pos r), (d + ex - prec). rewrite Z2Pos.id by lia.
    split; [reflexivity|]. split; [lia|].
    rewrite Z.sub_diag. change (2 ^ 0) with 1. rewrite Z.mul_1_r.
    split; [exact Hr|lia].
  - assert (Er : r = 2 ^ prec) by lia.
    assert (Hdr : Zdigits2 r = prec + 1).
    { apply Zdigits2_unique; [lia|].
      replace (prec + 1 - 1) with prec by lia.
      rewrite Z.pow_add_r by lia. change (2 ^ 1) with 2. lia. }
    assert (Hc : fexp prec emax (Zdigits2 r + (d + ex - prec))
                 = d + ex - prec + 1).
    { rewrite Hdr. unfold fexp. fold (emin prec emax). lia. }
    assert (Eh : r / 2 ^ 1 = 2 ^ (prec - 1)).
    { change (2 ^ 1) with 2. rewrite Er, E2.
      rewrite Z.mul_comm, Z.div_mul by lia. reflexivity. }
    rewrite finish_spec; rewrite ?Hc;
      replace (d + ex - prec + 1 - (d + ex - prec)) with 1 by lia;
      rewrite ?Eh; try lia.
    replace (d + ex - prec + 1 <=? emax - prec) with true
      by (symmetry; apply Z.leb_le; lia).
    exists (Z.to_pos (2 ^ (prec - 1))), (d + ex - prec + 1).
    rewrite Z2Pos.id by lia.
    split; [reflexivity|]. split; [lia|].
    replace (d + ex - prec + 1 - (d + ex - prec)) with 1 by lia.
    change (2 ^ 1) with 2. split; [|lia].
    destruct Hr as [Hr|Hr]; [left|right]; lia.
Qed.

(** The same, as a relative error: the mantissa kept, at the exponent of
    the mantissa rounded, is that mantissa up to one part in
    [2 ^ (prec - 1)], and the magnitude rises by one at most. *)
Lemma binary_round_aux_near (sx : bool) (mx ex : Z) (lx : location) :
  0 < mx -> ex <= Zdigits2 mx + ex - prec ->
  emin prec emax <= Zdigits2 mx + ex - prec ->
  Zdigits2 mx + ex - prec + 1 <= emax - prec ->
  exists mz gz,
    binary_round_aux prec emax sx mx ex lx = S754_finite sx mz gz /\
    ex <= gz /\
    Z.abs (Zpos mz * 2 ^ (gz - ex) - mx) * 2 ^ (prec - 1) <= mx /\
    Zdigits2 mx + ex <= Zdigits2 (Zpos mz) + gz <= Zdigits2 mx + ex + 1.
Proof.
  intros Hm Hle Hnorm Hmax.
  destruct (binary_round_aux_enclosure sx mx ex lx Hm Hle Hnorm Hmax)
    as (mz & gz & E & Hg & Hc & Hq).
  exists mz, gz. split; [exact E|].
  set (d := Zdigits2 mx) in *.
  set (k := d - prec) in *.
  assert (Hk : 0 <= k) by (unfold k; lia).
  replace (d + ex - prec) with (ex + k) in * by (unfold k; lia).
  set (q := mx / 2 ^ k) in *.
  set (Y := Zpos mz * 2 ^ (gz - (ex + k))) in *.
  pose proof (pow2_pos k Hk) as Hp.
  pose proof (pow2_pos (prec - 1) ltac:(lia)) as Hp1.
  pose proof (Zdigits2_spec mx Hm) as [Hm1 Hm2]. fold d in Hm1, Hm2.
  assert (Hq1 : q * 2 ^ k <= mx).
  { unfold q. rewrite Z.mul_comm. apply Z.mul_div_le. exact Hp. }
  assert (Hq2 : mx < (q + 1) * 2 ^ k).
  { unfold q. rewrite Z.mul_comm.
    pose proof (Z.mul_succ_div_gt mx (2 ^ k) Hp). lia. }
  assert (Hq3 : q < 2 ^ prec).
  { unfold q. apply Z.div_lt_upper_bound; [exact Hp|].
    rewrite <- Z.pow_add_r by lia.
    replace (k + prec) with d by (unfold k; lia). lia. }
  assert (EY : Zpos mz * 2 ^ (gz - ex) = Y * 2 ^ k).
  { unfold Y. rewrite <- Z.mul_assoc, <- Z.pow_add_r by lia.
    do 2 f_equal. lia. }
  assert (HY : 2 ^ (prec - 1) <= Y <= 2 ^ prec) by lia.
  split; [lia|]. split.
  - rewrite EY.
    assert (Hd : Z.abs (Y * 2 ^ k - mx) <= 2 ^ k).
    { destruct Hc as [Hc|Hc]; rewrite Hc; lia. }
    apply Z.le_trans with (2 ^ k * 2 ^ (prec - 1)).
    + apply Z.mul_le_mono_nonneg_r; lia.
    + apply Z.le_trans with (q * 2 ^ k); [|exact Hq1].
      rewrite Z.mul_comm. apply Z.mul_le_mono_nonneg_r; lia.
  - assert (HdY : Zdigits2 Y = Zdigits2 (Zpos mz) + (gz - (ex + k))).
    { unfold Y. apply Zdigits2_mul_pow2; lia. }
    pose proof (Zdigits2_lower Y (prec - 1) ltac:(lia) ltac:(lia)) as H1.
    assert (H2 : Zdigits2 Y <= prec + 1).
    { apply Zdigits2_bound; [|lia]. split; [lia|].
      replace (prec + 1) with (1 + prec) by lia.
      rewrite Z.pow_add_r by lia. change (2 ^ 1) with 2. lia. }
    unfold k in *. lia.
Qed.

(** Division in the normal range: the quotient returned is within one unit
    in the last place of the exact one, and that unit is at most the exact
    quotient divided by [2 ^ (prec - 1)].  The inequality is written at the
    exponent [e'] at which the division is carried out. *)
Lemma SFdiv_enclosure (sx : bool) (mx : positive) (ex : Z) (sy : bool)
    (my : positive) (ey : Z) :
  emin prec emax
    <= Zdigits2 (Zpos mx) + ex - (Zdigits2 (Zpos my) + ey) - prec ->
  Zdigits2 (Zpos mx) + ex - (Zdigits2 (Zpos my) + ey) + 2 <= emax ->
  exists mz gz e',
    SFdiv prec emax (S754_finite sx mx ex) (S754_finite sy my ey)
      = S754_finite (xorb sx sy) mz gz /\
    e' = Z.min (Zdigits2 (Zpos mx) + ex - (Zdigits2 (Zpos my) + ey) - prec)
               (ex - ey) /\
    e' <= gz /\
    Z.abs (Zpos mz * 2 ^ (gz - e') * Zpos my - Zpos mx * 2 ^ (ex - ey - e'))
      * 2 ^ (prec - 1)
    <= Zpos mx * 2 ^ (ex - ey - e').
Proof.
  intros Hnorm Hmax. unfold SFdiv, SFdiv_core_binary.
  set (m1 := Zpos mx) in *. set (m2 := Zpos my) in *.
  set (d1 := Zdigits2 m1) in *. set (d2 := Zdigits2 m2) in *.
  set (t := d1 + ex - (d2 + ey)) in *.
  assert (Et : fexp prec emax t = t - prec).
  { unfold fexp. fold (emin prec emax). lia. }
  rewrite Et.
  set (e' := Z.min (t - prec) (ex - ey)).
  set (s := ex - ey - e').
  set (m' := match s with
             | 0 => m1
             | Zpos _ => Z.shiftl m1 s
             | Zneg _ => 0
             end).
  assert (Hs : 0 <= s) by (unfold s, e'; lia).
  assert (Em : m' = m1 * 2 ^ s).
  { unfold m'. destruct s as [|p|p] eqn:Es; try lia.
    apply Z.shiftl_mul_pow2. lia. }
  pose proof (Z_div_mod m' m2 ltac:(unfold m2; lia)) as Hdm.
  assert (Eq : fst (Z.div_eucl m' m2) = m' / m2) by reflexivity.
  destruct (Z.div_eucl m' m2) as [q r]. cbn [fst] in Eq.
  destruct Hdm as [Hdm Hrem].
  pose proof (pow2_pos s Hs) as Hps.
  pose proof (Zdigits2_spec m1 ltac:(unfold m1; lia)) as [Ha1 Ha2].
  pose proof (Zdigits2_spec m2 ltac:(unfold m2; lia)) as [Hb1 Hb2].
  fold d1 in Ha1, Ha2. fold d2 in Hb1, Hb2.
  pose proof (Zdigits2_pos m1 ltac:(unfold m1; lia)) as Hd1.
  pose proof (Zdigits2_pos m2 ltac:(unfold m2; lia)) as Hd2.
  fold d1 in Hd1. fold d2 in Hd2.
  assert (Hm1 : 0 < m1) by (unfold m1; lia).
  assert (Hm2 : 0 < m2) by (unfold m2; lia).
  assert (Hs' : prec - d1 + d2 <= s) by (unfold s, e', t; lia).
  set (k0 := d1 - 1 + s - d2).
  assert (Hk0 : prec - 1 <= k0) by (unfold k0; lia).
  assert (Hqk : 2 ^ k0 <= q).
  { rewrite Eq. apply Z.div_le_lower_bound; [lia|].
    assert (E : 2 ^ (d1 - 1) * 2 ^ s = 2 ^ k0 * 2 ^ d2).
    { rewrite <- !Z.pow_add_r by lia. f_equal. unfold k0. lia. }
    pose proof (pow2_pos k0 ltac:(lia)).
    rewrite Em. apply Z.le_trans with (2 ^ k0 * 2 ^ d2).
    - rewrite (Z.mul_comm m2). apply Z.mul_le_mono_nonneg_l; lia.
    - rewrite <- E. apply Z.mul_le_mono_nonneg_r; lia. }
  pose proof (pow2_pos k0 ltac:(lia)) as Hpk0.
  assert (Hq0 : 0 < q) by lia.
  pose proof (Zdigits2_lower q k0 Hqk ltac:(lia)) as Hdq.
  assert (Hqu : q < 2 ^ (d1 + s - d2 + 1)).
  { rewrite Eq. apply Z.div_lt_upper_bound; [lia|].
    rewrite Em.
    apply Z.lt_le_trans with (2 ^ d1 * 2 ^ s).
    - apply Z.mul_lt_mono_pos_r; lia.
    - apply Z.le_trans with (2 ^ (d2 - 1) * 2 ^ (d1 + s - d2 + 1)).
      + rewrite <- !Z.pow_add_r by lia. apply Z.pow_le_mono_r; lia.
      + apply Z.mul_le_mono_nonneg_r; [|lia].
        apply Z.lt_le_incl, pow2_pos. lia. }
  pose proof (Zdigits2_bound q (d1 + s - d2 + 1) ltac:(lia) ltac:(lia))
    as Hdq'.
  destruct (binary_round_aux_enclosure (xorb sx sy) q e' (new_location m2 r)
              Hq0) as (mz & gz & E & Hg & Hmz & Hq').
  - unfold k0 in *. lia.
  - unfold k0, s, t in *. lia.
  - unfold k0, s, t in *. lia.
  - exists mz, gz, e'. split; [exact E|]. split; [reflexivity|].
    set (k := Zdigits2 q - prec) in *.
    assert (Hk : 0 <= k) by (unfold k, k0 in *; lia).
    split; [lia|].
    replace (gz - e') with (gz - (Zdigits2 q + e' - prec) + k)
      by (unfold k; lia).
    rewrite Z.pow_add_r by lia. rewrite Z.mul_assoc.
    set (Rm := Zpos mz * 2 ^ (gz - (Zdigits2 q + e' - prec))) in *.
    set (q' := q / 2 ^ k) in *.
    pose proof (pow2_pos k Hk) as Hpk.
    pose proof (Z_div_mod_eq_full q (2 ^ k)) as Eqq. fold q' in Eqq.
    pose proof (Z.mod_pos_bound q (2 ^ k) Hpk) as Hrho.
    pose proof (pow2_pos (prec - 1) ltac:(lia)) as Hpp.
    fold m1 m2. fold s. rewrite <- Em.
    set (W := 2 ^ k * m2).
    assert (HW : 0 < W) by (unfold W; lia).
    assert (Hlo : q' * W <= m').
    { apply Z.le_trans with (q * m2); [|lia].
      unfold W. rewrite Z.mul_assoc.
      apply Z.mul_le_mono_nonneg_r; lia. }
    assert (Hhi : m' < (q' + 1) * W).
    { apply Z.lt_le_trans with ((q + 1) * m2); [lia|].
      unfold W. rewrite Z.mul_assoc.
      apply Z.mul_le_mono_nonneg_r; lia. }
    assert (HWp : W * 2 ^ (prec - 1) <= m').
    { apply Z.le_trans with (2 := Hlo). rewrite Z.mul_comm.
      apply Z.mul_le_mono_nonneg_r; lia. }
    replace (Rm * 2 ^ k * m2) with (Rm * W) by (unfold W; ring).
    assert (Hd : Z.abs (Rm * W - m') <= W).
    { destruct Hmz as [->| ->]; lia. }
    apply Z.le_trans with (2 := HWp).
    apply Z.mul_le_mono_nonneg_r; lia.
Qed.

End Enclosure.

(** The conversion of a positive integer of 64 bits to [float]: the
    result is within [2 ^ -23] of the integer, relatively. *)
Lemma F32_of_Z_error (z : Z) :
  0 < z < 2 ^ 64 ->
  exists m e,
    F32.of_Z z = S754_finite false m e /\
    -149 <= e /\
    Z.abs (Zpos m * 2 ^ (e + scale) - z * 2 ^ scale) * 2 ^ 23
      <= z * 2 ^ scale.
Proof.
  intros Hz.
  pose proof (pow2_pos scale ltac:(unfold scale; lia)) as HS.
  assert (Hv : F32.valid (F32.of_Z z) = true)
    by apply binary_normalize_valid.
  pose proof (Zdigits2_spec z ltac:(lia)) as [Hz1 Hz2].
  pose proof (Zdigits2_pos z ltac:(lia)) as Hd0.
  pose proof (Zdigits2_bound z 64 ltac:(lia) ltac:(lia)) as Hd64.
  destruct (Z_le_gt_dec (Zdigits2 z) 24) as [Hd|Hd].
  - (* the integer is a [float] *)
    assert (Hr : represents (F32.of_Z z) (z * 2 ^ (0 + scale))).
    { apply (binary_normalize_fits F32.prec F32.emax ltac:(reflexivity)
               ltac:(vm_compute; discriminate) z 0 z 0 false).
      - unfold scale; lia.
      - reflexivity.
      - rewrite Z.abs_eq by lia.
        apply Z.lt_le_trans with (1 := Hz2).
        apply Z.pow_le_mono_r; unfold F32.prec; lia.
      - unfold emin, F32.prec, F32.emax. lia. }
    rewrite Z.add_0_l in Hr.
    destruct (F32.of_Z z) as [s|s| |s m e]; try contradiction.
    + simpl in Hr. nia.
    + destruct (valid32_finite s m e Hv) as [_ He].
      destruct Hr as [_ Hr]. unfold scaled in Hr.
      pose proof (pow2_pos (e + scale) ltac:(unfold scale; lia)) as Hp.
      assert (Es : s = false).
      { destruct s; [|reflexivity]. unfold cond_Zopp in Hr. nia. }
      subst s. unfold cond_Zopp in Hr.
      exists m, e. split; [reflexivity|]. split; [lia|].
      rewrite Hr, Z.sub_diag. simpl Z.abs. lia.
  - (* it is rounded *)
    destruct z as [|p|p]; try lia.
    unfold F32.of_Z, IEEE.of_Z. cbn [binary_normalize].
    set (d := Zdigits2 (Zpos p)) in *.
    assert (Eg : fexp F32.prec F32.emax (d + 0) = d - 24).
    { unfold fexp, emin, F32.prec, F32.emax. lia. }
    destruct (binary_round_inexact F32.prec F32.emax ltac:(reflexivity)
                false p 0) as (mz & gz & E & Hc & Hq & _).
    + fold d. rewrite Eg. lia.
    + fold d. unfold emin, F32.prec, F32.emax. lia.
    + fold d. rewrite Eg. unfold F32.prec, F32.emax. lia.
    + fold d in Hc, Hq. rewrite Eg in Hc, Hq.
      replace (d - 24 - 0) with (d - 24) in Hc, Hq by lia.
      set (g := d - 24) in *. set (q := Zpos p / 2 ^ g) in *.
      pose proof (pow2_pos g ltac:(unfold g; lia)) as Hpg.
      pose proof (Z_div_mod_eq_full (Zpos p) (2 ^ g)) as Eq. fold q in Eq.
      pose proof (Z.mod_pos_bound (Zpos p) (2 ^ g) Hpg) as Hrho.
      unfold F32.prec in Hq.
      exists mz, gz. split; [exact E|].
      assert (Hval : gz >= g /\
                     (Zpos mz * 2 ^ (gz - g) = q \/
                      Zpos mz * 2 ^ (gz - g) = q + 1)).
      { destruct Hc as [[-> Hm]|[-> Hm]].
        - rewrite Z.sub_diag, Z.mul_1_r. split; [lia|exact Hm].
        - replace (g + 1 - g) with 1 by lia. change (2 ^ 1) with 2.
          split; [lia|right; lia]. }
      destruct Hval as [Hgz Hm]. split; [unfold g in *; lia|].
      replace (gz + scale) with (gz - g + (g + scale)) by lia.
      rewrite Z.pow_add_r by (unfold scale, g in *; lia).
      rewrite Z.mul_assoc.
      set (Rm := Zpos mz * 2 ^ (gz - g)) in *.
      rewrite (Z.pow_add_r 2 g scale) by (unfold scale, g in *; lia).
      rewrite Z.mul_assoc, <- Z.mul_sub_distr_r.
      rewrite Z.abs_mul, (Z.abs_eq (2 ^ scale)) by lia.
      rewrite <- Z.mul_assoc, (Z.mul_comm (2 ^ scale)), Z.mul_assoc.
      apply Z.mul_le_mono_nonneg_r; [lia|].
      assert (Hd1 : Z.abs (Rm * 2 ^ g - Zpos p) <= 2 ^ g).
      { destruct Hm as [->| ->]; lia. }
      assert (Hlo : 2 ^ g * 2 ^ 23 <= Zpos p).
      { apply Z.le_trans with (2 ^ g * q); [|lia].
        apply Z.mul_le_mono_nonneg_l; lia. }
      apply Z.le_trans with (2 := Hlo).
      apply Z.mul_le_mono_nonneg_r; lia.
Qed.

(** A count below [2 ^ 24] converts to [float] without rounding. *)
Lemma F32_of_Z_exact (n : Z) :
  0 < n < 2 ^ 24 ->
  exists m e,
    F32.of_Z n = S754_finite false m e /\
    -149 <= e /\
    Zpos m * 2 ^ (e + scale) = n * 2 ^ scale.
Proof.
  intros Hn.
  pose proof (pow2_pos scale ltac:(unfold scale; lia)) as HS.
  assert (Hv : F32.valid (F32.of_Z n) = true)
    by apply binary_normalize_valid.
  assert (Hr : represents (F32.of_Z n) (n * 2 ^ (0 + scale))).
  { apply (binary_normalize_fits F32.prec F32.emax ltac:(reflexivity)
             ltac:(vm_compute; discriminate) n 0 n 0 false).
    - unfold scale; lia.
    - reflexivity.
    - rewrite Z.abs_eq by lia. unfold F32.prec. lia.
    - unfold emin, F32.prec, F32.emax. lia. }
  rewrite Z.add_0_l in Hr.
  destruct (F32.of_Z n) as [s|s| |s m e]; try contradiction.
  - simpl in Hr. nia.
  - destruct (valid32_finite s m e Hv) as [_ He].
    destruct Hr as [_ Hr]. unfold scaled in Hr.
    pose proof (pow2_pos (e + scale) ltac:(unfold scale; lia)) as Hp.
    assert (Es : s = false).
    { destruct s; [|reflexivity]. unfold cond_Zopp in Hr. nia. }
    subst s. unfold cond_Zopp in Hr.
    exists m, e. split; [reflexivity|]. split; [lia|exact Hr].
Qed.

(** The [float] mean of a window of [n] samples that add up to [s * n] is
    within [2 ^ -21] of [s], relatively. *)
Lemma mean_error (s n : Z) :
  0 <= s < 2 ^ 31 -> 0 < n < 2 ^ 24 ->
  exists v,
    represents (F32.div (F32.of_Z (s * n)) (F32.of_Z n)) v /\
    Z.abs (v - s * 2 ^ scale) * 2 ^ 21 <= s * 2 ^ scale.
Proof.
  intros Hs Hn.
  pose proof (eq_refl : scale = 1074) as Escale.
  pose proof (pow2_pos scale ltac:(lia)) as HS.
  destruct (F32_of_Z_exact n Hn) as (m2 & e2 & E2 & He2 & Hm2).
  assert (Hv2 : F32.valid (F32.of_Z n) = true)
    by apply binary_normalize_valid.
  destruct (Z.eq_dec s 0) as [->|Hs0].
  { exists 0. rewrite Z.mul_0_l. rewrite E2. split; [reflexivity|].
    simpl. lia. }
  assert (HV : 0 < s * n < 2 ^ 64).
  { split; [apply Z.mul_pos_pos; lia|].
    apply Z.lt_trans with (2 ^ 31 * 2 ^ 24); [|reflexivity].
    apply Z.mul_lt_mono_nonneg; lia. }
  destruct (F32_of_Z_error (s * n) HV) as (m1 & e1 & E1 & He1 & Herr).
  assert (Hv1 : F32.valid (F32.of_Z (s * n)) = true)
    by apply binary_normalize_valid.
  destruct (F32_of_Z_magnitude (s * n) HV) as (m1' & e1' & E1' & Hmag1).
  rewrite E1 in E1', Hv1. injection E1' as <- <-.
  rewrite E2 in Hv2.
  destruct (valid32_finite false m1 e1 Hv1) as [_ Hr1].
  destruct (valid32_finite false m2 e2 Hv2) as [_ Hr2].
  assert (Hmag2 : Zdigits2 (Zpos m2) + e2 = Zdigits2 n).
  { assert (E : Zdigits2 (Zpos m2) + (e2 + scale) = Zdigits2 n + scale).
    { rewrite <- !Zdigits2_mul_pow2 by lia. rewrite Hm2. reflexivity. }
    lia. }
  assert (Hdn : Zdigits2 n <= Zdigits2 (s * n)).
  { apply Zdigits2_le. split; [lia|].
    rewrite <- (Z.mul_1_l n) at 1. apply Z.mul_le_mono_nonneg_r; lia. }
  pose proof (Zdigits2_bound (s * n) 64 ltac:(lia) ltac:(lia)) as Hd64.
  pose proof (Zdigits2_pos n ltac:(lia)) as Hdn0.
  rewrite E1, E2. unfold F32.div.
  destruct (SFdiv_enclosure F32.prec F32.emax ltac:(reflexivity)
              false m1 e1 false m2 e2)
    as (mz & gz & e' & E & Ee' & Hge & Hq).
  { unfold emin, F32.prec, F32.emax. lia. }
  { unfold F32.emax. lia. }
  rewrite E. cbn [xorb].
  unfold F32.prec in Ee', Hq. change (24 - 1) with 23 in Hq.
  exists (Zpos mz * 2 ^ (gz + scale)).
  assert (Hgz : - scale <= gz) by lia.
  split; [split; [exact Hgz|reflexivity]|].
  set (v := Zpos mz * 2 ^ (gz + scale)).
  set (Xv := Zpos m1 * 2 ^ (e1 + scale)) in *.
  set (T := s * n * 2 ^ scale) in *.
  (* the enclosure, at the scale of the numbers *)
  assert (Hdiv : Z.abs (v * n - Xv) * 2 ^ 23 <= Xv).
  { set (a := gz - e') in *. set (b := e1 - e2 - e') in *.
    set (c := e' + e2 + scale + scale).
    assert (Ha : 0 <= a) by (unfold a; lia).
    assert (Hb : 0 <= b) by (unfold b; lia).
    assert (Hc : 0 <= c) by (unfold c; lia).
    pose proof (pow2_pos c Hc) as Hpc.
    assert (EAC : 2 ^ a * 2 ^ c = 2 ^ (gz + scale) * 2 ^ (e2 + scale)).
    { rewrite <- !Z.pow_add_r by lia. f_equal. unfold a, c. lia. }
    assert (EBC : 2 ^ b * 2 ^ c = 2 ^ (e1 + scale) * 2 ^ scale).
    { rewrite <- !Z.pow_add_r by lia. f_equal. unfold b, c. lia. }
    assert (K1 : Zpos mz * 2 ^ a * Zpos m2 * 2 ^ c = v * n * 2 ^ scale).
    { transitivity (Zpos mz * Zpos m2 * (2 ^ a * 2 ^ c)); [ring|].
      rewrite EAC.
      transitivity (Zpos mz * 2 ^ (gz + scale) * (Zpos m2 * 2 ^ (e2 + scale)));
        [ring|].
      rewrite Hm2. unfold v. ring. }
    assert (K2 : Zpos m1 * 2 ^ b * 2 ^ c = Xv * 2 ^ scale).
    { transitivity (Zpos m1 * (2 ^ b * 2 ^ c)); [ring|].
      rewrite EBC. unfold Xv. ring. }
    assert (Hq' : Z.abs (Zpos mz * 2 ^ a * Zpos m2 - Zpos m1 * 2 ^ b)
                    * 2 ^ 23 * 2 ^ c
                  <= Zpos m1 * 2 ^ b * 2 ^ c).
    { apply Z.mul_le_mono_nonneg_r; [lia|exact Hq]. }
    rewrite K2 in Hq'.
    replace (Z.abs (Zpos mz * 2 ^ a * Zpos m2 - Zpos m1 * 2 ^ b)
             * 2 ^ 23 * 2 ^ c)
      with (Z.abs (v * n - Xv) * 2 ^ 23 * 2 ^ scale) in Hq'.
    - apply Z.mul_le_mono_pos_r in Hq'; [exact Hq'|exact HS].
    - transitivity (Z.abs ((v * n - Xv) * 2 ^ scale) * 2 ^ 23).
      + rewrite Z.abs_mul, (Z.abs_eq (2 ^ scale)) by lia. ring.
      + rewrite Z.mul_sub_distr_r, <- K1, <- K2.
        transitivity
          (Z.abs ((Zpos mz * 2 ^ a * Zpos m2 - Zpos m1 * 2 ^ b) * 2 ^ c)
           * 2 ^ 23); [f_equal; f_equal; ring|].
        rewrite Z.abs_mul, (Z.abs_eq (2 ^ c)) by lia. ring. }
  (* the two errors together *)
  assert (HXT : Z.abs (Xv - T) * 2 ^ 23 <= T) by exact Herr.
  assert (HT : 0 < T).
  { unfold T. apply Z.mul_pos_pos; [apply Z.mul_pos_pos; lia|exact HS]. }
  change (2 ^ 23) with 8388608 in Hdiv, HXT.
  assert (Hsum : Z.abs (v * n - T) * 2 ^ 21 <= T).
  { change (2 ^ 21) with 2097152. clear - Hdiv HXT HT. lia. }
  assert (En : Z.abs (v * n - T) = Z.abs (v - s * 2 ^ scale) * n).
  { unfold T. replace (v * n - s * n * 2 ^ scale)
      with ((v - s * 2 ^ scale) * n) by ring.
    rewrite Z.abs_mul, (Z.abs_eq n) by lia. reflexivity. }
  rewrite En in Hsum. unfold T in Hsum.
  apply Z.mul_le_mono_pos_r with n; [lia|].
  replace (Z.abs (v - s * 2 ^ scale) * 2 ^ 21 * n)
    with (Z.abs (v - s * 2 ^ scale) * n * 2 ^ 21) by ring.
  replace (s * 2 ^ scale * n) with (s * n * 2 ^ scale) by ring.
  exact Hsum.
Qed.

(** ** Relative errors *)

#[global] Instance within_Proper :
  Proper (Qeq ==> Qeq ==> Qeq ==> iff) within.
Proof.
  intros u u' Hu x x' Hx q q' Hq. unfold within.
  rewrite Hu, Hx, Hq. reflexivity.
Qed.

Lemma within_morph (u x x' q q' : Q) :
  (x == x')%Q -> (q == q')%Q -> within u x q -> within u x' q'.
Proof. unfold within. intros -> ->. exact (fun H => H). Qed.

Lemma within_weaken (u u' x q : Q) :
  (u <= u')%Q -> within u x q -> within u' x q.
Proof.
  unfold within. intros Hu H. pose proof (Qabs_nonneg q).
  apply Qle_trans with (u * Qabs q)%Q; [exact H|]. nra.
Qed.

Lemma within_scale (u x q c : Q) :
  within u x q -> within u (x * c)%Q (q * c)%Q.
Proof.
  unfold within. intros H.
  assert (E : (x * c - q * c == (x - q) * c)%Q) by ring.
  rewrite E, !Qabs_Qmult. pose proof (Qabs_nonneg c). nra.
Qed.

Lemma within_trans (u v x y z : Q) :
  (0 <= u)%Q -> within u x y -> within v y z ->
  within (u + v + u * v)%Q x z.
Proof.
  unfold within. intros Hu H1 H2.
  assert (E1 : (x - z == (x - y) + (y - z))%Q) by ring.
  assert (E2 : (y == z + (y - z))%Q) by ring.
  pose proof (Qabs_triangle (x - y) (y - z)) as T1. rewrite <- E1 in T1.
  pose proof (Qabs_triangle z (y - z)) as T2. rewrite <- E2 in T2.
  pose proof (Qabs_nonneg z).
  nra.
Qed.

Lemma within_opp (u x q : Q) : within u x q -> within u (- x)%Q (- q)%Q.
Proof.
  unfold within. intros H.
  assert (E : (- x - - q == - (x - q))%Q) by ring.
  rewrite E, !Qabs_opp. exact H.
Qed.

Lemma within_zero (u q : Q) : (q == 0)%Q -> within u 0%Q q.
Proof.
  unfold within. intros ->. simpl. lra.
Qed.

Lemma Qpow2_pos (k : Z) : (0 < 2 ^ k)%Q.
Proof. apply Qpower_0_lt. reflexivity. Qed.

Lemma Qpow2_split (a b : Z) : (2 ^ (a + b) == 2 ^ a * 2 ^ b)%Q.
Proof. apply Qpower_plus. discriminate. Qed.

Lemma Qpow2_inject (k : Z) : 0 <= k -> (inject_Z (2 ^ k) == 2 ^ k)%Q.
Proof. intros H. rewrite Zpower_Qpower by exact H. reflexivity. Qed.

(** From an enclosure between integers to a relative error between the
    numbers they stand for. *)
Lemma dyadic_within (mz : positive) (gz b M N : Z) (K : positive) :
  b <= gz -> 0 < N ->
  Z.abs (Zpos mz * 2 ^ (gz - b) * N - M) * Zpos K <= M ->
  within (1 # K) (inject_Z (Zpos mz) * 2 ^ gz)%Q
         (inject_Z M * 2 ^ b / inject_Z N)%Q.
Proof.
  intros Hb HN H.
  assert (HM : 0 <= M).
  { pose proof (Z.abs_nonneg (Zpos mz * 2 ^ (gz - b) * N - M)). nia. }
  set (T := Zpos mz * 2 ^ (gz - b) * N - M) in *.
  pose proof (Qpow2_pos b) as HP.
  assert (Hn : (0 < inject_Z N)%Q).
  { change 0%Q with (inject_Z 0). rewrite <- Zlt_Qlt. exact HN. }
  assert (Hm : (0 <= inject_Z M)%Q).
  { change 0%Q with (inject_Z 0). rewrite <- Zle_Qle. exact HM. }
  assert (Eg : (2 ^ gz == inject_Z (2 ^ (gz - b)) * 2 ^ b)%Q).
  { rewrite Qpow2_inject by lia. rewrite <- Qpow2_split.
    replace (gz - b + b) with gz by lia. reflexivity. }
  assert (ET : (inject_Z T ==
               inject_Z (Zpos mz) * inject_Z (2 ^ (gz - b)) * inject_Z N
               - inject_Z M)%Q).
  { unfold T. unfold Qminus. rewrite <- inject_Z_opp, <- !inject_Z_mult,
      <- inject_Z_plus. reflexivity. }
  assert (E : (inject_Z (Zpos mz) * 2 ^ gz - inject_Z M * 2 ^ b / inject_Z N
              == inject_Z T * (2 ^ b / inject_Z N))%Q).
  { rewrite ET, Eg. field. lra. }
  assert (Hg : (0 < 2 ^ b / inject_Z N)%Q).
  { apply Qlt_shift_div_l; [exact Hn|]. lra. }
  assert (HK : (inject_Z (Z.abs T) * inject_Z (Zpos K) <= inject_Z M)%Q).
  { rewrite <- inject_Z_mult, <- Zle_Qle. exact H. }
  unfold within. rewrite E, Qabs_Qmult.
  assert (Eq : (inject_Z M * 2 ^ b / inject_Z N
               == inject_Z M * (2 ^ b / inject_Z N))%Q) by (field; lra).
  rewrite Eq, Qabs_Qmult.
  rewrite (Qabs_pos (2 ^ b / inject_Z N)) by lra.
  rewrite (Qabs_pos (inject_Z M)) by exact Hm.
  change (Qabs (inject_Z T)) with (inject_Z (Z.abs T)).
  set (t := inject_Z (Z.abs T)) in *.
  set (g := (2 ^ b / inject_Z N)%Q) in *.
  assert (Ek : ((1 # K) * inject_Z (Zpos K) == 1)%Q).
  { unfold Qeq, Qmult, inject_Z. simpl. lia. }
  assert (Hu : (0 < 1 # K)%Q) by reflexivity.
  assert (Ht : (t <= (1 # K) * inject_Z M)%Q).
  { apply Qle_trans with ((1 # K) * (t * inject_Z (Zpos K)))%Q.
    - assert (E3 : ((1 # K) * (t * inject_Z (Zpos K))
                   == t * ((1 # K) * inject_Z (Zpos K)))%Q) by ring.
      rewrite E3, Ek. lra.
    - apply Qmult_le_l; [exact Hu|exact HK]. }
  assert (E4 : ((1 # K) * (inject_Z M * g) == ((1 # K) * inject_Z M) * g)%Q)
    by ring.
  rewrite E4. apply Qmult_le_compat_r; [exact Ht|lra].
Qed.

Lemma SF2Q_finite (s : bool) (m : positive) (e : Z) :
  (IEEE.SF2Q (S754_finite s m e) ==
   if s then - (inject_Z (Zpos m) * 2 ^ e) else inject_Z (Zpos m) * 2 ^ e)%Q.
Proof.
  unfold IEEE.SF2Q. destruct s; cbn [cond_Zopp].
  - change (inject_Z (- Zpos m)) with (- inject_Z (Zpos m))%Q. ring.
  - reflexivity.
Qed.

(** ** The error of an addition and of a subtraction *)

(** A [double] from an integer mantissa at an exponent of the format: the
    value is kept up to one part in [2 ^ 52], and a power of two that
    divides the value divides the result. *)
Lemma F64_round_near (s : bool) (p : positive) (ez : Z) :
  - scale <= ez -> Zdigits2 (Zpos p) + ez <= 1022 ->
  exists m g,
    binary_round F64.prec F64.emax s p ez = S754_finite s m g /\
    - scale <= g /\
    Z.abs (Zpos m * 2 ^ (g + scale) - Zpos p * 2 ^ (ez + scale)) * 2 ^ 52
      <= Zpos p * 2 ^ (ez + scale) /\
    forall T, 0 <= T -> (2 ^ T | Zpos p * 2 ^ (ez + scale)) ->
              (2 ^ T | Zpos m * 2 ^ (g + scale)).
Proof.
  intros Hez Hmag.
  pose proof (eq_refl : scale = 1074) as Escale.
  assert (Hprec : 0 < F64.prec) by reflexivity.
  set (d := Zdigits2 (Zpos p)) in *.
  pose proof (Zdigits2_pos (Zpos p) ltac:(lia)) as Hd. fold d in Hd.
  set (g := fexp F64.prec F64.emax (d + ez)).
  assert (Hg : g = Z.max (d + ez - 53) (-1074)).
  { unfold g, fexp, emin, F64.prec, F64.emax. lia. }
  pose proof (pow2_pos (ez + scale) ltac:(lia)) as Hpe.
  destruct (Z_le_gt_dec g ez) as [Hle|Hgt];
    [|destruct (Z.eq_dec (Zpos p mod 2 ^ (g - ez)) 0) as [Hdiv|Hnd]].
  - destruct (binary_round_exact F64.prec F64.emax
                s p ez) as (m & E & Hv).
    + left. fold d. fold g. exact Hle.
    + fold d. fold g. unfold F64.emax, F64.prec. lia.
    + fold d in E, Hv. fold g in E, Hv.
      exists m, g. split; [exact E|]. split; [lia|].
      specialize (Hv (- scale) ltac:(lia) ltac:(lia)).
      replace (g - - scale) with (g + scale) in Hv by lia.
      replace (ez - - scale) with (ez + scale) in Hv by lia.
      rewrite Hv, Z.sub_diag. simpl Z.abs. split; [lia|].
      intros T _ HT. exact HT.
  - destruct (binary_round_exact F64.prec F64.emax
                s p ez) as (m & E & Hv).
    + right. fold d. fold g. apply Z.mod_divide; [|exact Hdiv].
      pose proof (pow2_pos (g - ez) ltac:(lia)). lia.
    + fold d. fold g. unfold F64.emax, F64.prec. lia.
    + fold d in E, Hv. fold g in E, Hv.
      exists m, g. split; [exact E|]. split; [lia|].
      specialize (Hv (- scale) ltac:(lia) ltac:(lia)).
      replace (g - - scale) with (g + scale) in Hv by lia.
      replace (ez - - scale) with (ez + scale) in Hv by lia.
      rewrite Hv, Z.sub_diag. simpl Z.abs. split; [lia|].
      intros T _ HT. exact HT.
  - assert (Eg : g = d + ez - 53) by lia.
    destruct (binary_round_inexact F64.prec F64.emax Hprec
                s p ez) as (m & gz & E & Hc & Hq & Hm).
    + fold d. fold g. lia.
    + fold d. unfold emin, F64.prec, F64.emax. lia.
    + fold d. fold g. unfold F64.emax, F64.prec. lia.
    + fold d in Hc, Hq. fold g in Hc, Hq.
      set (k := g - ez) in *.
      assert (Hk : 0 < k) by (unfold k; lia).
      set (q := Zpos p / 2 ^ k) in *.
      pose proof (pow2_pos k ltac:(lia)) as Hpk.
      change (2 ^ (F64.prec - 1)) with (2 ^ 52) in Hq, Hm.
      assert (Hq1 : q * 2 ^ k <= Zpos p).
      { unfold q. rewrite Z.mul_comm. apply Z.mul_div_le. exact Hpk. }
      assert (Hq2 : Zpos p < (q + 1) * 2 ^ k).
      { unfold q. rewrite Z.mul_comm.
        pose proof (Z.mul_succ_div_gt (Zpos p) (2 ^ k) Hpk). lia. }
      pose proof (pow2_pos (g + scale) ltac:(lia)) as Hpg.
      assert (EP : 2 ^ (g + scale) = 2 ^ k * 2 ^ (ez + scale)).
      { rewrite <- Z.pow_add_r by lia. f_equal. unfold k. lia. }
      assert (HY : exists Y, (Y = q \/ Y = q + 1) /\
                             Zpos m * 2 ^ (gz + scale) = Y * 2 ^ (g + scale) /\
                             g <= gz).
      { destruct Hc as [[-> Hc]|[-> Hc]].
        - exists (Zpos m). split; [exact Hc|]. split; [reflexivity|lia].
        - exists (q + 1). split; [right; reflexivity|]. split; [|lia].
          replace (g + 1 + scale) with (1 + (g + scale)) by lia.
          rewrite Z.pow_add_r by lia. change (2 ^ 1) with 2. lia. }
      destruct HY as (Y & HY & EY & Hgz).
      exists m, gz. split; [exact E|]. split; [lia|]. split.
      * rewrite EY, EP, Z.mul_assoc, <- Z.mul_sub_distr_r.
        rewrite Z.abs_mul, (Z.abs_eq (2 ^ (ez + scale))) by lia.
        assert (Hd1 : Z.abs (Y * 2 ^ k - Zpos p) <= 2 ^ k).
        { destruct HY as [-> | ->]; lia. }
        rewrite <- Z.mul_assoc, (Z.mul_comm (2 ^ (ez + scale))), Z.mul_assoc.
        apply Z.mul_le_mono_nonneg_r; [lia|].
        apply Z.le_trans with (2 ^ k * 2 ^ 52).
        -- apply Z.mul_le_mono_nonneg_r; lia.
        -- apply Z.le_trans with (q * 2 ^ k); [|exact Hq1].
           rewrite Z.mul_comm. apply Z.mul_le_mono_nonneg_r; lia.
      * intros T HT0 HT. rewrite EY.
        destruct (Z_le_gt_dec T (g + scale)) as [Hs|Hs].
        -- apply Z.divide_mul_r. exists (2 ^ (g + scale - T)).
           rewrite <- Z.pow_add_r by lia. f_equal. lia.
        -- exfalso. apply Hnd. apply Z.mod_divide; [lia|].
           destruct HT as [c Hc'].
           exists (c * 2 ^ (T - (g + scale))).
           apply Z.mul_cancel_r with (2 ^ (ez + scale)); [lia|].
           rewrite Hc'. rewrite <- !Z.mul_assoc. f_equal.
           rewrite <- !Z.pow_add_r by lia. f_equal. unfold k. lia.
Qed.

Lemma F64_normalize_near (z ez : Z) :
  - scale <= ez -> (z <> 0 -> Zdigits2 (Z.abs z) + ez <= 1022) ->
  exists v,
    represents (binary_normalize F64.prec F64.emax z ez false) v /\
    Z.abs (v - z * 2 ^ (ez + scale)) * 2 ^ 52
      <= Z.abs (z * 2 ^ (ez + scale)) /\
    forall T, 0 <= T -> (2 ^ T | z * 2 ^ (ez + scale)) -> (2 ^ T | v).
Proof.
  intros Hez Hmag.
  pose proof (pow2_pos (ez + scale) ltac:(lia)) as Hpe.
  destruct z as [|p|p]; cbn [binary_normalize].
  - exists 0. split; [reflexivity|]. split; [simpl; lia|].
    intros T _ _. apply Z.divide_0_r.
  - destruct (F64_round_near false p ez Hez (Hmag ltac:(discriminate)))
      as (m & g & -> & Hg & He & Hd).
    exists (Zpos m * 2 ^ (g + scale)). split; [split; [exact Hg|reflexivity]|].
    split; [|exact Hd].
    rewrite (Z.abs_eq (Zpos p * 2 ^ (ez + scale))) by lia. exact He.
  - destruct (F64_round_near true p ez Hez (Hmag ltac:(discriminate)))
      as (m & g & -> & Hg & He & Hd).
    exists (- (Zpos m * 2 ^ (g + scale))).
    split; [split; [exact Hg|]|].
    { unfold scaled. simpl cond_Zopp. lia. }
    split.
    + replace (- (Zpos m * 2 ^ (g + scale)) - Zneg p * 2 ^ (ez + scale))
        with (- (Zpos m * 2 ^ (g + scale) - Zpos p * 2 ^ (ez + scale)))
        by lia.
      rewrite Z.abs_opp.
      replace (Z.abs (Zneg p * 2 ^ (ez + scale)))
        with (Zpos p * 2 ^ (ez + scale)) by lia.
      exact He.
    + intros T HT0 HT. apply Z.divide_opp_r. apply Hd; [exact HT0|].
      replace (Zpos p * 2 ^ (ez + scale))
        with (- (Zneg p * 2 ^ (ez + scale))) by lia.
      apply Z.divide_opp_r. exact HT.
Qed.

Lemma scaled_magnitude (z ez k : Z) :
  - scale <= ez -> 0 <= k -> z <> 0 ->
  Z.abs (z * 2 ^ (ez + scale)) < 2 ^ k ->
  Zdigits2 (Z.abs z) + ez <= k - scale.
Proof.
  intros Hez Hk Hz H.
  pose proof (pow2_pos (ez + scale) ltac:(lia)) as Hp.
  rewrite Z.abs_mul, (Z.abs_eq (2 ^ (ez + scale))) in H by lia.
  pose proof (Zdigits2_bound (Z.abs z * 2 ^ (ez + scale)) k
                ltac:(lia) Hk) as Hb.
  rewrite Zdigits2_mul_pow2 in Hb by lia. lia.
Qed.

(** The difference of two numbers, up to one part in [2 ^ 52]. *)
Lemma F64_sub_near (x y : double) (vx vy : Z) :
  represents x vx -> represents y vy ->
  Z.abs (vx - vy) < 2 ^ (1022 + scale) ->
  exists v,
    represents (F64.sub x y) v /\
    Z.abs (v - (vx - vy)) * 2 ^ 52 <= Z.abs (vx - vy) /\
    forall T, 0 <= T -> (2 ^ T | vx) -> (2 ^ T | vy) -> (2 ^ T | v).
Proof.
  intros Hx Hy Hd.
  pose proof (eq_refl : scale = 1074) as Escale.
  destruct x as [sx|sx| |sx mx ex], y as [sy|sy| |sy my ey];
    try contradiction.
  - simpl in Hx, Hy. subst. exists 0.
    split; [destruct sx, sy; reflexivity|]. split; [simpl; lia|].
    intros T _ _ _. apply Z.divide_0_r.
  - simpl in Hx. subst vx. destruct Hy as [Hey Hy].
    exists (- vy). split; [|split].
    + split; [exact Hey|]. rewrite <- Hy.
      change (F64.sub (S754_zero sx) (S754_finite sy my ey))
        with (S754_finite (negb sy) my ey).
      unfold scaled, cond_Zopp. destruct sy; cbn [negb]; ring.
    + replace (- vy - (0 - vy)) with 0 by lia. simpl. lia.
    + intros T _ _ H. apply Z.divide_opp_r. exact H.
  - simpl in Hy. subst vy. exists vx. split; [exact Hx|]. split.
    + replace (vx - (vx - 0)) with 0 by lia. simpl. lia.
    + intros T _ H _. exact H.
  - destruct Hx as [Hex <-], Hy as [Hey <-].
    unfold F64.sub. rewrite SFsub_finite.
    set (ez := Z.min ex ey).
    assert (Hez : - scale <= ez) by (unfold ez; lia).
    set (z := cond_Zopp sx (Zpos mx * 2 ^ (ex - ez)) -
              cond_Zopp sy (Zpos my * 2 ^ (ey - ez))).
    assert (Hz : z * 2 ^ (ez + scale) =
                 scaled (S754_finite sx mx ex) - scaled (S754_finite sy my ey)).
    { unfold z. rewrite Z.mul_sub_distr_r.
      rewrite (aligned_scaled sx mx ex ez) by (unfold ez in *; lia).
      rewrite (aligned_scaled sy my ey ez) by (unfold ez in *; lia).
      reflexivity. }
    rewrite <- Hz in *.
    destruct (F64_normalize_near z ez Hez) as (v & Hv & He & HT).
    { intros Hz0.
      pose proof (scaled_magnitude z ez (1022 + scale) Hez ltac:(lia) Hz0 Hd).
      lia. }
    exists v. split; [exact Hv|]. split; [exact He|].
    intros T HT0 H1 H2. apply HT; [exact HT0|]. rewrite Hz.
    apply Z.divide_sub_r; assumption.
Qed.

(** The sum of two numbers, up to one part in [2 ^ 52]. *)
Lemma F64_add_near (x y : double) (vx vy : Z) :
  represents x vx -> represents y vy ->
  Z.abs (vx + vy) < 2 ^ (1022 + scale) ->
  exists v,
    represents (F64.add x y) v /\
    Z.abs (v - (vx + vy)) * 2 ^ 52 <= Z.abs (vx + vy) /\
    forall T, 0 <= T -> (2 ^ T | vx) -> (2 ^ T | vy) -> (2 ^ T | v).
Proof.
  intros Hx Hy Hd.
  pose proof (eq_refl : scale = 1074) as Escale.
  destruct x as [sx|sx| |sx mx ex], y as [sy|sy| |sy my ey];
    try contradiction.
  - simpl in Hx, Hy. subst. exists 0.
    split; [destruct sx, sy; reflexivity|]. split; [simpl; lia|].
    intros T _ _ _. apply Z.divide_0_r.
  - simpl in Hx. subst vx. exists vy. split; [exact Hy|]. split.
    + replace (vy - (0 + vy)) with 0 by lia. simpl. lia.
    + intros T _ _ H. exact H.
  - simpl in Hy. subst vy. exists vx. split; [exact Hx|]. split.
    + replace (vx - (vx + 0)) with 0 by lia. simpl. lia.
    + intros T _ H _. exact H.
  - destruct Hx as [Hex <-], Hy as [Hey <-].
    unfold F64.add. rewrite SFadd_finite.
    set (ez := Z.min ex ey).
    assert (Hez : - scale <= ez) by (unfold ez; lia).
    set (z := cond_Zopp sx (Zpos mx * 2 ^ (ex - ez)) +
              cond_Zopp sy (Zpos my * 2 ^ (ey - ez))).
    assert (Hz : z * 2 ^ (ez + scale) =
                 scaled (S754_finite sx mx ex) + scaled (S754_finite sy my ey)).
    { unfold z. rewrite Z.mul_add_distr_r.
      rewrite (aligned_scaled sx mx ex ez) by (unfold ez in *; lia).
      rewrite (aligned_scaled sy my ey ez) by (unfold ez in *; lia).
      reflexivity. }
    rewrite <- Hz in *.
    destruct (F64_normalize_near z ez Hez) as (v & Hv & He & HT).
    { intros Hz0.
      pose proof (scaled_magnitude z ez (1022 + scale) Hez ltac:(lia) Hz0 Hd).
      lia. }
    exists v. split; [exact Hv|]. split; [exact He|].
    intros T HT0 H1 H2. apply HT; [exact HT0|]. rewrite Hz.
    apply Z.divide_add_r; assumption.
Qed.

(** ** The error of a product and of a quotient *)

Lemma within_signs (u : Q) (sx sy : bool) (z x y : Q) :
  within u z (x * y)%Q ->
  within u (if xorb sx sy then - z else z)%Q
         ((if sx then - x else x) * (if sy then - y else y))%Q.
Proof.
  intros H. destruct sx, sy; cbn [xorb].
  - apply within_morph with z (x * y)%Q; [reflexivity|ring|exact H].
  - apply within_morph with (- z)%Q (- (x * y))%Q;
      [reflexivity|ring|apply within_opp; exact H].
  - apply within_morph with (- z)%Q (- (x * y))%Q;
      [reflexivity|ring|apply within_opp; exact H].
  - exact H.
Qed.

Lemma F64_mul_within (x y : double) (ax bx ay by_ : Z) :
  zero_or_between x ax bx ->
  match y with
  | S754_finite _ m e =>
      Zdigits2 (Zpos m) = 53 /\ ay + 1 <= Zdigits2 (Zpos m) + e <= by_
  | _ => False
  end ->
  -1022 <= ax + ay -> bx + by_ <= 1023 ->
  zero_or_between (F64.mul x y) (ax + ay) (bx + by_ + 1) /\
  within (1 # 2 ^ 52) (IEEE.SF2Q (F64.mul x y))
         (IEEE.SF2Q x * IEEE.SF2Q y)%Q.
Proof.
  intros Hx Hy Hlo Hhi.
  destruct y as [sy|sy| |sy my ey]; try contradiction.
  destruct Hy as [Hdy Hy].
  destruct x as [sx|sx| |sx mx ex]; try contradiction.
  - split; [exact I|]. apply within_zero. unfold IEEE.SF2Q. ring.
  - unfold zero_or_between in Hx.
    pose proof (Zdigits2_pos (Zpos mx) ltac:(lia)) as Hdx.
    pose proof (Zdigits2_mul_bounds (Zpos mx) (Zpos my) ltac:(lia) ltac:(lia))
      as [Hl Hu].
    rewrite <- Pos2Z.inj_mul in Hl, Hu.
    destruct (binary_round_aux_near F64.prec F64.emax ltac:(reflexivity)
                (xorb sx sy) (Zpos (mx * my)) (ex + ey) loc_Exact)
      as (mz & gz & E & Hg & He & Hm).
    + lia.
    + unfold F64.prec. lia.
    + unfold emin, F64.prec, F64.emax. lia.
    + unfold F64.prec, F64.emax. lia.
    + change (F64.mul (S754_finite sx mx ex) (S754_finite sy my ey))
        with (binary_round_aux F64.prec F64.emax (xorb sx sy)
                (Zpos (mx * my)) (ex + ey) loc_Exact).
      rewrite E. split; [unfold zero_or_between; lia|].
      rewrite !SF2Q_finite. apply within_signs.
      apply within_morph with
        (inject_Z (Zpos mz) * 2 ^ gz)%Q
        (inject_Z (Zpos (mx * my)) * 2 ^ (ex + ey) / inject_Z 1)%Q.
      * reflexivity.
      * rewrite Pos2Z.inj_mul, inject_Z_mult, Qpow2_split.
        change (inject_Z 1) with 1%Q. field.
      * apply dyadic_within; [exact Hg|lia|].
        rewrite Z.mul_1_r. exact He.
Qed.

Lemma F64_div_within (x y : double) (ax bx ay by_ : Z) :
  zero_or_between x ax bx ->
  match y with
  | S754_finite _ m e => ay + 1 <= Zdigits2 (Zpos m) + e <= by_
  | _ => False
  end ->
  -1022 <= ax - by_ -> bx - ay <= 1023 ->
  IEEE.is_finite (F64.div x y) = true /\
  within (1 # 2 ^ 52) (IEEE.SF2Q (F64.div x y))
         (IEEE.SF2Q x / IEEE.SF2Q y)%Q.
Proof.
  intros Hx Hy Hlo Hhi.
  destruct y as [sy|sy| |sy my ey]; try contradiction.
  destruct x as [sx|sx| |sx mx ex]; try contradiction.
  - split; [reflexivity|]. apply within_zero. unfold IEEE.SF2Q.
    unfold Qdiv. ring.
  - unfold zero_or_between in Hx.
    destruct (SFdiv_enclosure F64.prec F64.emax ltac:(reflexivity)
                sx mx ex sy my ey)
      as (mz & gz & e' & E & Ee & Hg & He).
    + unfold emin, F64.prec, F64.emax. lia.
    + unfold F64.emax. lia.
    + unfold F64.div. rewrite E. split; [reflexivity|].
      assert (He' : e' <= ex - ey) by lia.
      pose proof (Qpow2_pos ey) as Hpy.
      assert (Hmy : (0 < inject_Z (Zpos my))%Q) by reflexivity.
      rewrite !SF2Q_finite.
      apply within_morph with
        (if xorb sx sy then - (inject_Z (Zpos mz) * 2 ^ gz)
         else inject_Z (Zpos mz) * 2 ^ gz)%Q
        ((if sx then - (inject_Z (Zpos mx) * 2 ^ ex)
          else inject_Z (Zpos mx) * 2 ^ ex) *
         (if sy then - / (inject_Z (Zpos my) * 2 ^ ey)
          else / (inject_Z (Zpos my) * 2 ^ ey)))%Q.
      * reflexivity.
      * destruct sx, sy; field; lra.
      * apply within_signs.
        apply within_morph with
          (inject_Z (Zpos mz) * 2 ^ gz)%Q
          (inject_Z (Zpos mx * 2 ^ (ex - ey - e')) * 2 ^ e'
           / inject_Z (Zpos my))%Q.
        -- reflexivity.
        -- rewrite inject_Z_mult, Qpow2_inject by lia.
           replace ex with ((ex - ey - e') + e' + ey) at 2 by lia.
           rewrite !Qpow2_split. field. lra.
        -- apply dyadic_within; [exact Hg|lia|].
           change (Zpos (2 ^ 52)) with (2 ^ (F64.prec - 1)). exact He.
Qed.

(** A relative error between scaled integers is one between the numbers. *)
Lemma within_of_scaled (x : spec_float) (v q : Z) (K : positive) :
  represents x v ->
  Z.abs (v - q) * Zpos K <= Z.abs q ->
  within (1 # K) (IEEE.SF2Q x) (inject_Z q / inject_Z (2 ^ scale))%Q.
Proof.
  intros Hx H.
  assert (HP : (0 < inject_Z (2 ^ scale))%Q).
  { rewrite Qpow2_inject by (unfold scale; lia). apply Qpow2_pos. }
  apply within_morph with (inject_Z v / inject_Z (2 ^ scale))%Q
                          (inject_Z q / inject_Z (2 ^ scale))%Q.
  - symmetry. apply SF2Q_represents. exact Hx.
  - reflexivity.
  - unfold within.
    assert (E : (inject_Z v / inject_Z (2 ^ scale)
                 - inject_Z q / inject_Z (2 ^ scale)
                 == inject_Z (v - q) * / inject_Z (2 ^ scale))%Q).
    { unfold Z.sub. rewrite inject_Z_plus, inject_Z_opp. field. lra. }
    rewrite E. unfold Qdiv. rewrite !Qabs_Qmult.
    set (g := Qabs (/ inject_Z (2 ^ scale))).
    assert (Hg : (0 <= g)%Q) by apply Qabs_nonneg.
    change (Qabs (inject_Z (v - q))) with (inject_Z (Z.abs (v - q))).
    change (Qabs (inject_Z q)) with (inject_Z (Z.abs q)).
    assert (HK : (inject_Z (Z.abs (v - q)) * inject_Z (Zpos K)
                  <= inject_Z (Z.abs q))%Q).
    { rewrite <- inject_Z_mult, <- Zle_Qle. exact H. }
    set (t := inject_Z (Z.abs (v - q))) in *.
    set (m := inject_Z (Z.abs q)) in *.
    assert (Ek : ((1 # K) * inject_Z (Zpos K) == 1)%Q).
    { unfold Qeq, Qmult, inject_Z. simpl. lia. }
    assert (Hu : (0 < 1 # K)%Q) by reflexivity.
    assert (Ht : (t <= (1 # K) * m)%Q).
    { apply Qle_trans with ((1 # K) * (t * inject_Z (Zpos K)))%Q.
      - assert (E3 : ((1 # K) * (t * inject_Z (Zpos K))
                     == t * ((1 # K) * inject_Z (Zpos K)))%Q) by ring.
        rewrite E3, Ek. lra.
      - apply Qmult_le_l; [exact Hu|exact HK]. }
    assert (E4 : ((1 # K) * (m * g) == ((1 # K) * m) * g)%Q) by ring.
    rewrite E4. apply Qmult_le_compat_r; [exact Ht|exact Hg].
Qed.

(** ** The error of the rate *)

(** A value computed from a bias that is itself rounded: the error is
    relative to the residual and to the bias together. *)
Lemma within_residual (w u U r A b B G : Q) :
  (0 <= w)%Q -> (0 <= u)%Q -> (w <= U)%Q -> (w * u + u <= U)%Q ->
  within w r ((A - b) * G)%Q -> within u b B ->
  (Qabs (r - (A - B) * G) <= U * (Qabs (A - B) + Qabs B) * Qabs G)%Q.
Proof.
  unfold within. intros Hw Hu HwU HuU H1 H2.
  rewrite Qabs_Qmult in H1.
  assert (E1 : (r - (A - B) * G == (r - (A - b) * G) + (B - b) * G)%Q)
    by ring.
  assert (E2 : (A - b == (A - B) + (B - b))%Q) by ring.
  assert (E3 : (B - b == - (b - B))%Q) by ring.
  pose proof (Qabs_triangle (r - (A - b) * G) ((B - b) * G)) as T1.
  rewrite <- E1, Qabs_Qmult in T1.
  pose proof (Qabs_triangle (A - B) (B - b)) as T2. rewrite <- E2 in T2.
  rewrite E3, Qabs_opp in T1, T2.
  pose proof (Qabs_nonneg G) as N1. pose proof (Qabs_nonneg B) as N2.
  pose proof (Qabs_nonneg (A - B)) as N3.
  pose proof (Qabs_nonneg (b - B)) as N4.
  pose proof (Qabs_nonneg (A - b)) as N5.
  set (x := Qabs (A - B)) in *. set (y := Qabs B) in *.
  set (g := Qabs G) in *. set (t := Qabs (A - b)) in *.
  set (e := Qabs (b - B)) in *.
  set (e1 := Qabs (r - (A - b) * G)) in *.
  set (e0 := Qabs (r - (A - B) * G)) in *.
  assert (Ht : (t * g <= (x + u * y) * g)%Q).
  { apply Qmult_le_compat_r; [lra|assumption]. }
  assert (H3 : (w * (t * g) <= w * ((x + u * y) * g))%Q).
  { rewrite !(Qmult_comm w). apply Qmult_le_compat_r; assumption. }
  assert (H4 : (e * g <= u * y * g)%Q).
  { apply Qmult_le_compat_r; assumption. }
  assert (H5 : (e0 <= (w * x + (w * u + u) * y) * g)%Q).
  { assert (E : ((w * x + (w * u + u) * y) * g
                 == w * ((x + u * y) * g) + u * y * g)%Q) by ring.
    rewrite E. lra. }
  apply Qle_trans with (1 := H5).
  apply Qmult_le_compat_r; [|assumption].
  assert (H6 : (w * x <= U * x)%Q)
    by (apply Qmult_le_compat_r; assumption).
  assert (H7 : ((w * u + u) * y <= U * y)%Q)
    by (apply Qmult_le_compat_r; assumption).
  lra.
Qed.

(** The five roundings of the rate, composed. *)
Lemma rate_chain (u r p2 p1 d E E9 L V X : Q) :
  (0 <= u)%Q ->
  within u r (p2 / V)%Q -> within u p2 (p1 * L)%Q ->
  within u p1 (d * E)%Q -> within u E E9 -> within u d X ->
  exists w, (w == (1 + u) * (1 + u) * (1 + u) * (1 + u) * (1 + u) - 1)%Q /\
            within w r (X * (E9 * L / V))%Q.
Proof.
  intros Hu Hr H2 H1 HE Hd.
  assert (W1 : within u (d * E)%Q (d * E9)%Q).
  { apply within_morph with (E * d)%Q (E9 * d)%Q; [ring|ring|].
    apply within_scale. exact HE. }
  pose proof (within_trans u u _ _ _ Hu H1 W1) as W2.
  pose proof (within_scale _ _ _ L W2) as W3.
  pose proof (within_trans u _ _ _ _ Hu H2 W3) as W4.
  pose proof (within_scale _ _ _ (/ V)%Q W4) as W5.
  pose proof (within_trans u _ _ _ _ Hu Hr W5) as W6.
  pose proof (within_scale _ _ _ (E9 * L / V)%Q Hd) as W7.
  assert (W8 : within (u + (u + (u + u + u * u) + u * (u + u + u * u))
                       + u * (u + (u + u + u * u) + u * (u + u + u * u)))%Q
                      r (d * (E9 * L / V))%Q).
  { apply within_morph with (3 := W6); [reflexivity|].
    unfold Qdiv. ring. }
  assert (H0 : (0 <= u + (u + (u + u + u * u) + u * (u + u + u * u))
                + u * (u + (u + u + u * u) + u * (u + u + u * u)))%Q)
    by nra.
  pose proof (within_trans _ u _ _ _ H0 W8 W7) as W9.
  eexists. split; [|exact W9]. ring.
Qed.

(** ** The operands of the rate *)

Lemma F64_of_Z_signed (c : Z) :
  Z.abs c < 2 ^ 53 -> represents (F64.of_Z c) (c * 2 ^ scale).
Proof.
  intros Hc.
  pose proof (binary_normalize_fits F64.prec F64.emax ltac:(reflexivity)
                ltac:(vm_compute; discriminate) c 0 c 0 false) as H.
  rewrite Z.add_0_l in H. apply H.
  - unfold scale; lia.
  - reflexivity.
  - exact Hc.
  - unfold emin, F64.prec, F64.emax. lia.
Qed.

Lemma pow2_divides_scale (x : Z) : (2 ^ 925 | x * 2 ^ scale).
Proof.
  apply Z.divide_mul_r. exists (2 ^ 149).
  rewrite <- Z.pow_add_r by lia. reflexivity.
Qed.

Lemma scaled_int_below (x k : Z) :
  0 <= k -> Z.abs x < 2 ^ k -> Z.abs (x * 2 ^ scale) < 2 ^ (k + scale).
Proof.
  intros Hk H. pose proof (pow2_pos scale ltac:(unfold scale; lia)) as Hp.
  rewrite Z.abs_mul, (Z.abs_eq (2 ^ scale)) by lia.
  rewrite Z.pow_add_r by (unfold scale; lia).
  apply Z.mul_lt_mono_pos_r; assumption.
Qed.

Lemma below_mono (x j k : Z) :
  Z.abs x < 2 ^ j -> 0 <= j <= k -> Z.abs x < 2 ^ k.
Proof.
  intros H Hk. apply Z.lt_le_trans with (1 := H).
  apply Z.pow_le_mono_r; lia.
Qed.

Lemma below_add (x y k : Z) :
  0 <= k -> Z.abs x < 2 ^ k -> Z.abs y < 2 ^ k -> Z.abs (x + y) < 2 ^ (k + 1).
Proof.
  intros Hk Hx Hy. rewrite Z.pow_add_r by lia. change (2 ^ 1) with 2.
  pose proof (Z.abs_triangle x y). lia.
Qed.

Lemma below_sub (x y k : Z) :
  0 <= k -> Z.abs x < 2 ^ k -> Z.abs y < 2 ^ k -> Z.abs (x - y) < 2 ^ (k + 1).
Proof.
  intros Hk Hx Hy. rewrite Z.pow_add_r by lia. change (2 ^ 1) with 2.
  pose proof (Z.abs_triangle x (- y)) as H. rewrite Z.abs_opp in H.
  replace (x + - y) with (x - y) in H by lia. lia.
Qed.

Lemma below_near (v q k : Z) :
  0 <= k -> Z.abs (v - q) * 2 ^ 52 <= Z.abs q -> Z.abs q < 2 ^ k ->
  Z.abs v < 2 ^ (k + 1).
Proof.
  intros Hk He Hq. rewrite Z.pow_add_r by lia. change (2 ^ 1) with 2.
  pose proof (Z.abs_triangle q (v - q)) as H.
  replace (q + (v - q)) with v in H by lia.
  pose proof (Z.abs_nonneg (v - q)) as H0.
  assert (H1 : Z.abs (v - q) <= Z.abs (v - q) * 2 ^ 52).
  { rewrite <- (Z.mul_1_r (Z.abs (v - q))) at 1.
    apply Z.mul_le_mono_nonneg_l; [exact H0|lia]. }
  lia.
Qed.

(** A [float] is a multiple of [2 ^ -149] below [2 ^ 128]. *)
Lemma float_scaled (o : float) :
  F32.valid o = true -> IEEE.is_finite o = true ->
  exists v, represents o v /\ (2 ^ 925 | v) /\
            Z.abs v < 2 ^ (128 + scale).
Proof.
  intros Hv Hf. pose proof (eq_refl : scale = 1074) as Escale.
  destruct o as [s|s| |s m e]; try discriminate.
  - exists 0. split; [reflexivity|]. split; [apply Z.divide_0_r|].
    simpl Z.abs. apply pow2_pos. lia.
  - destruct (valid32_finite s m e Hv) as [Hd He].
    exists (scaled (S754_finite s m e)).
    split; [split; [lia|reflexivity]|].
    unfold scaled. split.
    + apply Z.divide_mul_r. exists (2 ^ (e + scale - 925)).
      rewrite <- Z.pow_add_r by lia. f_equal. lia.
    + pose proof (pow2_pos (e + scale) ltac:(lia)) as Hp.
      rewrite Z.abs_mul, abs_cond_Zopp, !Z.abs_eq by lia.
      pose proof (Zdigits2_spec (Zpos m) ltac:(lia)) as [_ Hm].
      apply Z.lt_le_trans with (2 ^ Zdigits2 (Zpos m) * 2 ^ (e + scale)).
      * apply Z.mul_lt_mono_pos_r; assumption.
      * pose proof (Zdigits2_pos (Zpos m) ltac:(lia)).
        rewrite <- Z.pow_add_r by lia. apply Z.pow_le_mono_r; lia.
Qed.

(** A number that is a multiple of [2 ^ (T - scale)] and below
    [2 ^ (H - scale)] is a zero or lies between these two. *)
Lemma represents_between (x : spec_float) (v T H : Z) :
  represents x v -> 0 <= T -> 0 <= H ->
  (2 ^ T | v) -> Z.abs v < 2 ^ H ->
  zero_or_between x (T - scale) (H - scale).
Proof.
  intros Hx HT HH Hd Hb.
  destruct x as [s|s| |s m e]; try contradiction; [exact I|].
  destruct Hx as [He <-]. unfold scaled in *. unfold zero_or_between.
  pose proof (pow2_pos (e + scale) ltac:(lia)) as Hp.
  rewrite Z.abs_mul, abs_cond_Zopp, !Z.abs_eq in Hb by lia.
  pose proof (Zdigits2_mul_pow2 (Zpos m) (e + scale) ltac:(lia) ltac:(lia))
    as Hdg.
  split.
  - assert (Hge : 2 ^ T <= Zpos m * 2 ^ (e + scale)).
    { destruct Hd as [k Hk].
      assert (Hk' : Zpos m * 2 ^ (e + scale) = Z.abs k * 2 ^ T).
      { pose proof (pow2_pos T HT).
        destruct s; cbn [cond_Zopp] in Hk; nia. }
      rewrite Hk'. pose proof (pow2_pos T HT).
      assert (0 < Z.abs k) by nia. nia. }
    pose proof (Zdigits2_lower _ T Hge HT). lia.
  - pose proof (Zdigits2_bound (Zpos m * 2 ^ (e + scale)) H
                  ltac:(lia) HH). lia.
Qed.

(** A [double] in the normal range has a full mantissa. *)
Lemma valid64_normal_digits (s : bool) (m : positive) (e : Z) :
  F64.valid (S754_finite s m e) = true ->
  -1021 <= Zdigits2 (Zpos m) + e -> Zdigits2 (Zpos m) = 53.
Proof.
  unfold F64.valid, valid_binary, bounded, canonical_mantissa, fexp, emin,
    F64.prec, F64.emax.
  change (Zpos (digits2_pos m)) with (Zdigits2 (Zpos m)).
  intros H Hn. apply andb_prop in H. destruct H as [H1 _].
  apply Z.eqb_eq in H1. lia.
Qed.

Lemma F32_mul_comm (x y : float) : F32.mul x y = F32.mul y x.
Proof.
  unfold F32.mul, SFmul.
  destruct x as [sx|sx| |sx mx ex], y as [sy|sy| |sy my ey];
    try reflexivity;
    rewrite ?(xorb_comm sx sy); try reflexivity.
  rewrite (Pos.mul_comm mx my), (Z.add_comm ex ey). reflexivity.
Qed.

(** The divisor of the rate, [2 ^ n] times the sensitivity, is formed
    without rounding, and lies between [2 ^ -149] and [2 ^ 128]. *)
Lemma divisor_exact (n : Z) (S : float) :
  0 <= n < 31 -> F32.valid S = true -> IEEE.is_zero S = false ->
  IEEE.is_finite (F32.mul (F32.of_Z (2 ^ n)) S) = true ->
  match F64.of_float (F32.mul (F32.of_Z (2 ^ n)) S) with
  | S754_finite _ m e => -149 + 1 <= Zdigits2 (Zpos m) + e <= 128
  | _ => False
  end /\
  (IEEE.SF2Q (F64.of_float (F32.mul (F32.of_Z (2 ^ n)) S))
   == inject_Z (2 ^ n) * IEEE.SF2Q S)%Q.
Proof.
  intros Hn Hv Hz Hf. pose proof (eq_refl : scale = 1074) as Escale.
  rewrite F32_mul_comm in *.
  assert (HS : exists v, represents S v /\ v <> 0).
  { destruct S as [s|s| |s m e]; try discriminate.
    - destruct (F32.of_Z (2 ^ n)) as [sy|sy| |sy my ey];
        cbv in Hf; discriminate.
    - destruct (valid32_finite s m e Hv) as [_ He].
      exists (scaled (S754_finite s m e)).
      split; [split; [lia|reflexivity]|].
      unfold scaled. pose proof (pow2_pos (e + scale) ltac:(lia)).
      destruct s; cbn [cond_Zopp]; nia. }
  destruct HS as (v & HSv & Hv0).
  destruct (F32_mul_pow2 S n v Hv HSv Hn Hf) as [HvP HP].
  set (P := F32.mul S (F32.of_Z (2 ^ n))) in *.
  assert (HQ : (IEEE.SF2Q (F64.of_float P)
                == inject_Z (2 ^ n) * IEEE.SF2Q S)%Q).
  { rewrite (SF2Q_represents _ _ (F64_of_float_represents P _ HvP HP)).
    rewrite (SF2Q_represents _ _ HSv), inject_Z_mult.
    field. rewrite Qpow2_inject by lia.
    pose proof (Qpow2_pos scale). lra. }
  split; [|exact HQ].
  destruct P as [s|s| |s m e]; try contradiction.
  - exfalso. simpl in HP. pose proof (pow2_pos n ltac:(lia)). nia.
  - destruct (F64_of_float_finite s m e HvP) as (m' & e' & -> & He' & Hm').
    destruct (valid32_finite s m e HvP) as [Hd He].
    pose proof (Zdigits2_pos (Zpos m) ltac:(lia)) as Hd0.
    assert (Hdg : Zdigits2 (Zpos m') + e' = Zdigits2 (Zpos m) + e).
    { pose proof (Zdigits2_mul_pow2 (Zpos m') (e' + scale)
                    ltac:(lia) ltac:(lia)) as H1.
      pose proof (Zdigits2_mul_pow2 (Zpos m) (e + scale)
                    ltac:(lia) ltac:(lia)) as H2.
      rewrite Hm' in H1. lia. }
    lia.
Qed.

(** The literal [1e-9]. *)
Lemma lit_1em9_accurate :
  match F64.lit_1em9 with
  | S754_finite _ m e =>
      Zdigits2 (Zpos m) = 53 /\ -30 + 1 <= Zdigits2 (Zpos m) + e <= -29
  | _ => False
  end /\
  within (1 # 2 ^ 52) (IEEE.SF2Q F64.lit_1em9) (1 # 1000000000).
Proof.
  split; [vm_compute; repeat split; discriminate|].
  unfold within. vm_compute. discriminate.
Qed.

(** ** The rate against the formula in the rational numbers *)

(** A [double] that is a zero, or between [2 ^ -148] and [2 ^ 64], is a
    multiple of [2 ^ -200]. *)
Lemma double_scaled (x : double) :
  F64.valid x = true -> zero_or_between x (-148) 64 ->
  exists v, represents x v /\ (2 ^ 874 | v) /\
            Z.abs v < 2 ^ (64 + scale).
Proof.
  intros Hv Hw. pose proof (eq_refl : scale = 1074) as Escale.
  destruct x as [s|s| |s m e]; try contradiction.
  - exists 0. split; [reflexivity|]. split; [apply Z.divide_0_r|].
    simpl Z.abs. apply pow2_pos. lia.
  - unfold zero_or_between in Hw.
    pose proof (valid64_normal_digits s m e Hv ltac:(lia)) as Hd.
    exists (scaled (S754_finite s m e)).
    split; [split; [lia|reflexivity]|].
    unfold scaled. split.
    + apply Z.divide_mul_r. exists (2 ^ (e + scale - 874)).
      rewrite <- Z.pow_add_r by lia. f_equal. lia.
    + pose proof (pow2_pos (e + scale) ltac:(lia)) as Hp.
      rewrite Z.abs_mul, abs_cond_Zopp, !Z.abs_eq by lia.
      pose proof (Zdigits2_spec (Zpos m) ltac:(lia)) as [_ Hm].
      apply Z.lt_le_trans with (2 ^ Zdigits2 (Zpos m) * 2 ^ (e + scale)).
      * apply Z.mul_lt_mono_pos_r; assumption.
      * rewrite <- Z.pow_add_r by lia. apply Z.pow_le_mono_r; lia.
Qed.

Lemma rate_of_accurate (avg : double) (c n : Z) (o S : float)
    (L : double) :
  F64.valid avg = true -> zero_or_between avg (-148) 64 ->
  0 <= c <= UINT32_MAX ->
  F32.valid o = true -> IEEE.is_finite o = true ->
  F64.valid L = true -> at_least_pow2 L (-500) -> below_pow2 L 500 ->
  0 <= n < 31 ->
  F32.valid S = true -> IEEE.is_zero S = false ->
  IEEE.is_finite (F32.mul (F32.of_Z (2 ^ n)) S) = true ->
  IEEE.is_finite (rate_of avg c o L n S) = true /\
  (Qabs (IEEE.SF2Q (rate_of avg c o L n S)
         - (IEEE.SF2Q avg - (inject_Z c + IEEE.SF2Q o))
           * ((1 # 1000000000) * IEEE.SF2Q L
              / (inject_Z (2 ^ n) * IEEE.SF2Q S)))
   <= (1 # 2 ^ 49)
      * (Qabs (IEEE.SF2Q avg - (inject_Z c + IEEE.SF2Q o))
         + Qabs (inject_Z c + IEEE.SF2Q o))
      * Qabs ((1 # 1000000000) * IEEE.SF2Q L
              / (inject_Z (2 ^ n) * IEEE.SF2Q S)))%Q.
Proof.
  intros Hva Hwa Hc Hvo Hfo HvL HL1 HL2 Hn HvS HzS HfS.
  pose proof (eq_refl : scale = 1074) as Escale.
  unfold UINT32_MAX in Hc.
  assert (P32 : 2 ^ 32 < 2 ^ 53) by (apply Z.pow_lt_mono_r; lia).
  (* the operands *)
  assert (Hc32 : Z.abs c < 2 ^ 32) by lia.
  assert (Hc53 : Z.abs c < 2 ^ 53) by lia.
  clear Hc P32.
  destruct (double_scaled avg Hva Hwa) as (va & Ha & Da & Bs).
  pose proof (F64_of_Z_signed c Hc53) as Hcr.
  destruct (float_scaled o Hvo Hfo) as (vo & Ho & Hdo & Hbo).
  pose proof (F64_of_float_represents o vo Hvo Ho) as Hor.
  pose proof (scaled_int_below c 32 ltac:(clear; lia) Hc32) as Bc.
  assert (A1 : 0 <= 32 + scale <= 128 + scale) by (clear - Escale; lia).
  assert (A2 : 0 <= 128 + scale) by (clear - Escale; lia).
  assert (A3 : 0 <= 128 + scale + 1 <= 1022 + scale)
    by (clear - Escale; lia).
  assert (A4 : 0 <= 64 + scale <= 128 + scale + 1 + 1)
    by (clear - Escale; lia).
  assert (A5 : 0 <= 128 + scale + 1 + 1 + 1 <= 1022 + scale)
    by (clear - Escale; lia).
  assert (A6 : 0 <= 128 + scale + 1) by (clear - Escale; lia).
  assert (A7 : 0 <= 128 + scale + 1 + 1) by (clear - Escale; lia).
  assert (A8 : 0 <= 128 + scale + 1 + 1 + 1) by (clear - Escale; lia).
  assert (A9 : 0 <= 128 + scale + 1 + 1 + 1 + 1) by (clear - Escale; lia).
  assert (E1 : 874 - scale = -200) by (clear - Escale; lia).
  assert (E2 : 128 + scale + 1 + 1 + 1 + 1 - scale = 132)
    by (clear - Escale; lia).
  assert (D0 : (2 ^ 874 | 2 ^ 925)).
  { exists (2 ^ 51). rewrite <- Z.pow_add_r by (clear; lia). reflexivity. }
  (* the bias *)
  pose proof (below_add _ _ _ A2 (below_mono _ _ _ Bc A1) Hbo) as BB.
  destruct (F64_add_near _ _ _ _ Hcr Hor (below_mono _ _ _ BB A3))
    as (vb & Hb & Eb & Db).
  pose proof (below_near _ _ _ A6 Eb BB) as Bb.
  pose proof (Z.divide_trans _ _ _ D0
                (Db 925 ltac:(clear; lia) (pow2_divides_scale c) Hdo))
    as Db'.
  clear Db.
  (* the residual *)
  pose proof (below_sub _ _ _ A7 (below_mono _ _ _ Bs A4) Bb) as BR.
  destruct (F64_sub_near _ _ _ _ Ha Hb (below_mono _ _ _ BR A5))
    as (vd & Hd & Ed & Dd).
  pose proof (below_near _ _ _ A8 Ed BR) as Bd.
  pose proof (Dd 874 ltac:(clear; lia) Da Db') as Dd'.
  clear Dd.
  set (bias := F64.add (F64.of_Z c) (F64.of_float o)) in *.
  set (D := F64.sub avg bias) in *.
  assert (HD : zero_or_between D (-200) 132).
  { rewrite <- E1, <- E2.
    apply (represents_between D vd 874 _ Hd ltac:(clear; lia) A9 Dd' Bd). }
  clear A1 A2 A3 A4 A5 A6 A7 A8 A9 E1 E2 Bs Bc BB Bb BR Bd Hbo Dd' Db' Hdo
        Da D0.
  (* the two products *)
  destruct lit_1em9_accurate as [HE WE].
  destruct (F64_mul_within D F64.lit_1em9 (-200) 132 (-30) (-29) HD HE
              ltac:(lia) ltac:(lia)) as [HP1 W1].
  set (P1 := F64.mul D F64.lit_1em9) in *.
  assert (HLd : match L with
                | S754_finite _ m e =>
                    Zdigits2 (Zpos m) = 53 /\
                    -500 + 1 <= Zdigits2 (Zpos m) + e <= 500
                | _ => False
                end).
  { destruct L as [sl|sl| |sl ml el]; try contradiction.
    unfold at_least_pow2 in HL1. unfold below_pow2 in HL2.
    split; [|lia]. apply (valid64_normal_digits sl ml el HvL). lia. }
  destruct (F64_mul_within P1 L _ _ (-500) 500 HP1 HLd
              ltac:(lia) ltac:(lia)) as [HP2 W2].
  set (P2 := F64.mul P1 L) in *.
  (* the quotient *)
  destruct (divisor_exact n S Hn HvS HzS HfS) as [HV EV].
  set (V := F64.of_float (F32.mul (F32.of_Z (2 ^ n)) S)) in *.
  destruct (F64_div_within P2 V _ _ (-149) 128 HP2 HV
              ltac:(lia) ltac:(lia)) as [HR W3].
  change (F64.div P2 V) with (rate_of avg c o L n S) in HR, W3.
  split; [exact HR|].
  (* the errors, in the rational numbers *)
  assert (HP : (0 < inject_Z (2 ^ scale))%Q).
  { rewrite Qpow2_inject by lia. apply Qpow2_pos. }
  assert (Wd : within (1 # 2 ^ 52) (IEEE.SF2Q D)
                      (IEEE.SF2Q avg - IEEE.SF2Q bias)%Q).
  { apply within_morph with
      (IEEE.SF2Q D) (inject_Z (va - vb) / inject_Z (2 ^ scale))%Q.
    - reflexivity.
    - rewrite (SF2Q_represents _ _ Hb), (SF2Q_represents _ _ Ha).
      unfold Z.sub. rewrite inject_Z_plus, inject_Z_opp.
      field. lra.
    - exact (within_of_scaled D vd _ (2 ^ 52)%positive Hd Ed). }
  assert (Wb : within (1 # 2 ^ 52) (IEEE.SF2Q bias)
                      (inject_Z c + IEEE.SF2Q o)%Q).
  { apply within_morph with
      (IEEE.SF2Q bias)
      (inject_Z (c * 2 ^ scale + vo) / inject_Z (2 ^ scale))%Q.
    - reflexivity.
    - rewrite (SF2Q_represents _ _ Ho).
      rewrite inject_Z_plus, inject_Z_mult. field. lra.
    - exact (within_of_scaled bias vb _ (2 ^ 52)%positive Hb Eb). }
  destruct (rate_chain (1 # 2 ^ 52) _ _ _ _ _ _ _ _ _
              ltac:(discriminate) W3 W2 W1 WE Wd) as (w & Ew & Ww).
  rewrite <- EV.
  apply within_residual with (w := w) (u := (1 # 2 ^ 52)%Q)
                             (b := IEEE.SF2Q bias).
  - rewrite Ew. vm_compute. discriminate.
  - discriminate.
  - rewrite Ew. vm_compute. discriminate.
  - rewrite Ew. vm_compute. discriminate.
  - exact Ww.
  - exact Wb.
Qed.

(** * The claims *)

Lemma usable_inv (w : World) (a : AnalogInput) :
  usable w a ->
  w = mkWorld (mkAnalogGyro (Some a) (m_voltsPerDegreePerSecond (self w))
                 (m_offset (self w)) (m_center (self w)) None
                 (m_pidSource (self w))) (events w).
Proof.
  open_world w. unfold usable. simpl. intros [-> ->]. reflexivity.
Qed.

Lemma fatal_inv (w : World) :
  fatal w = true -> exists e, m_error (self w) = Some e.
Proof.
  unfold fatal. destruct (m_error (self w)) as [e|]; [eauto|discriminate].
Qed.

Lemma shl1_defined (n : Z) (w : World) :
  0 <= n < 31 -> shl1 n w = Done (2 ^ n) w.
Proof.
  intros H. unfold shl1.
  replace ((0 <=? n) && (n <? 31)) with true; [reflexivity|].
  symmetry. apply andb_true_intro. split; [apply Z.leb_le|apply Z.ltb_lt]; lia.
Qed.

Lemma shl1_undefined (n : Z) (w : World) :
  32 <= n -> shl1 n w = Crash (UndefinedShift n) w.
Proof.
  intros H. unfold shl1.
  replace (n <? 31) with false by (symmetry; apply Z.ltb_ge; lia).
  replace (n =? 31) with false by (symmetry; apply Z.eqb_neq; lia).
  rewrite andb_false_r. reflexivity.
Qed.

(** ** Invalid state *)

(** C5. In the fatal state [GetAngle] returns [0.0f], [GetRate] returns
    [0.0] and [Reset] does nothing; all three return normally and leave the
    world as it is. *)
Theorem fatal_state_reads_zero (w : World) :
  fatal w = true ->
  GetAngle w = Done F32.zero w /\
  GetRate w = Done F64.zero w /\
  Reset w = Done tt w.
Proof.
  intros H. destruct (fatal_inv w H) as [e He].
  open_world w. simpl in He. subst err.
  repeat split.
Qed.

(** The object constructed on a null channel is in that state. *)
Lemma fatal_state_reads_zero_witness :
  let w := final (AnalogGyro_shared Sample.K Sample.silent Sample.raw None) in
  m_error (self w) = Some NullParameter /\
  GetAngle w = Done F32.zero w /\
  GetRate w = Done F64.zero w /\
  Reset w = Done tt w.
Proof.
  split; [reflexivity|].
  apply (fatal_state_reads_zero
           (final (AnalogGyro_shared Sample.K Sample.silent Sample.raw None))).
  reflexivity.
Defined.

Lemma null_channel_is_fatal (K : Constants)
    (elapse : double -> AnalogInput -> AnalogInput) (raw : AnalogGyro) :
  exists w, AnalogGyro_shared K elapse raw None = Done tt w /\
            m_error (self w) = Some NullParameter /\ m_analog (self w) = None.
Proof. eexists. repeat split. Qed.

(** [InitGyro] rejects a channel that cannot accumulate: it records the
    error and clears the reference. *)
Lemma InitGyro_rejects (K : Constants)
    (elapse : double -> AnalogInput -> AnalogInput) (w : World)
    (a : AnalogInput) :
  usable w a -> IsAccumulatorChannel a = false ->
  InitGyro K elapse w =
    Done tt (mkWorld (set_analog None (set_error ParameterOutOfRange (self w)))
               (events w)).
Proof.
  intros Hu Ha. rewrite (usable_inv w a Hu). unfold InitGyro. run.
  rewrite Ha. reflexivity.
Qed.

(** C9, as the code has it.  In the fatal state the operations that go
    through the channel ([InitGyro], [Calibrate], [Reset], [SetDeadband])
    do nothing and the two readings return zero.  [SetSensitivity] still
    stores its argument, and [GetOffset] and [GetCenter] return the stored
    members; none of the three consults the status. *)
Theorem fatal_state_operations (K : Constants)
    (elapse : double -> AnalogInput -> AnalogInput) (w : World) (v : float) :
  fatal w = true ->
  InitGyro K elapse w = Done tt w /\
  Calibrate K elapse w = Done tt w /\
  Reset w = Done tt w /\
  SetDeadband v w = Done tt w /\
  GetAngle w = Done F32.zero w /\
  GetRate w = Done F64.zero w /\
  SetSensitivity v w =
    Done tt (mkWorld (set_voltsPerDegreePerSecond v (self w)) (events w)) /\
  GetOffset w = Done (m_offset (self w)) w /\
  GetCenter w = Done (m_center (self w)) w.
Proof.
  intros H. destruct (fatal_inv w H) as [e He].
  open_world w. simpl in He. subst err.
  repeat split.
Qed.

Lemma fatal_state_operations_witness :
  let w := final (AnalogGyro_shared Sample.K Sample.silent Sample.raw
                    (Some Sample.plain_channel)) in
  (m_error (self w) = Some ParameterOutOfRange /\ m_analog (self w) = None) /\
  InitGyro Sample.K Sample.silent w = Done tt w /\
  Calibrate Sample.K Sample.silent w = Done tt w /\
  Reset w = Done tt w /\
  SetDeadband Sample.half w = Done tt w /\
  GetAngle w = Done F32.zero w /\
  GetRate w = Done F64.zero w /\
  SetSensitivity Sample.half w =
    Done tt (mkWorld (set_voltsPerDegreePerSecond Sample.half (self w))
               (events w)) /\
  GetOffset w = Done (m_offset (self w)) w /\
  GetCenter w = Done (m_center (self w)) w.
Proof.
  split; [split; reflexivity|].
  apply (fatal_state_operations Sample.K Sample.silent
           (final (AnalogGyro_shared Sample.K Sample.silent Sample.raw
                     (Some Sample.plain_channel)))
           Sample.half).
  reflexivity.
Defined.

(** C9 as stated fails: on the object that [InitGyro] has made unusable,
    [SetSensitivity] is not a no-op. *)
Lemma fatal_state_SetSensitivity_writes :
  let w := final (AnalogGyro_shared Sample.K Sample.silent Sample.raw
                    (Some Sample.plain_channel)) in
  fatal w = true /\
  SetSensitivity Sample.half w <> Done tt w /\
  m_voltsPerDegreePerSecond (self (final (SetSensitivity Sample.half w)))
    = Sample.half.
Proof.
  split; [reflexivity|]. split; [|reflexivity].
  vm_compute. discriminate.
Qed.

(** ** The preset constructors *)

(** C10. When the channel cannot accumulate, both preset constructors go on
    after [InitGyro] has cleared [m_analog]: they assign the center and the
    offset and then call [SetAccumulatorCenter] through the null
    reference. *)
Theorem preset_constructors_dereference_null (K : Constants)
    (new_AnalogInput : Z -> AnalogInput)
    (elapse : double -> AnalogInput -> AnalogInput) (raw : AnalogGyro)
    (channel : Z) (a : AnalogInput) (center : Z) (offset : float) :
  IsAccumulatorChannel (new_AnalogInput channel) = false ->
  IsAccumulatorChannel a = false ->
  (exists w,
     AnalogGyro_channel_preset K new_AnalogInput elapse raw channel center
       offset = Crash NullDereference w /\
     m_analog (self w) = None /\
     m_error (self w) = Some ParameterOutOfRange /\
     m_center (self w) = center /\ m_offset (self w) = offset) /\
  (exists w,
     AnalogGyro_shared_preset K elapse raw (Some a) center offset
       = Crash NullDereference w /\
     m_analog (self w) = None /\
     m_error (self w) = Some ParameterOutOfRange /\
     m_center (self w) = center /\ m_offset (self w) = offset).
Proof.
  intros H1 H2. split.
  - unfold AnalogGyro_channel_preset, InitGyro. run. rewrite H1. simpl.
    eexists. repeat split.
  - unfold AnalogGyro_shared_preset, InitGyro. run. rewrite H2. simpl.
    eexists. repeat split.
Qed.

Lemma preset_constructors_dereference_null_witness :
  (IsAccumulatorChannel Sample.plain_channel = false) /\
  (exists w,
     AnalogGyro_channel_preset Sample.K (fun _ => Sample.plain_channel)
       Sample.silent Sample.raw 5 100 Sample.quarter
       = Crash NullDereference w /\
     m_analog (self w) = None /\
     m_error (self w) = Some ParameterOutOfRange /\
     m_center (self w) = 100 /\ m_offset (self w) = Sample.quarter) /\
  (exists w,
     AnalogGyro_shared_preset Sample.K Sample.silent Sample.raw
       (Some Sample.plain_channel) 100 Sample.quarter
       = Crash NullDereference w /\
     m_analog (self w) = None /\
     m_error (self w) = Some ParameterOutOfRange /\
     m_center (self w) = 100 /\ m_offset (self w) = Sample.quarter).
Proof.
  split; [reflexivity|].
  apply (preset_constructors_dereference_null Sample.K
           (fun _ => Sample.plain_channel) Sample.silent Sample.raw 5
           Sample.plain_channel 100 Sample.quarter); reflexivity.
Defined.

(** C8, as the code has it.  A preset constructor that returns has stored
    the caller's center and offset, and the only wait of the construction
    is the settling wait of [InitGyro], 0.1 s; there is no calibration
    wait. *)
Theorem preset_constructor_skips_calibration (K : Constants)
    (elapse : double -> AnalogInput -> AnalogInput) (raw : AnalogGyro)
    (a : AnalogInput) (center : Z) (offset : float) (w : World) :
  AnalogGyro_shared_preset K elapse raw (Some a) center offset = Done tt w ->
  GetCenter w = Done center w /\
  GetOffset w = Done offset w /\
  waits (events w) = [F64.lit_0_1].
Proof.
  intros H.
  unfold AnalogGyro_shared_preset, InitGyro, SetDeadband, shl1 in H.
  run_in H. split_run H; injection H as <-; repeat split.
Qed.

Lemma preset_constructor_skips_calibration_witness :
  let w := final (AnalogGyro_shared_preset Sample.K Sample.silent Sample.raw
                    (Some Sample.channel) 100 Sample.quarter) in
  AnalogGyro_shared_preset Sample.K Sample.silent Sample.raw
    (Some Sample.channel) 100 Sample.quarter = Done tt w /\
  GetCenter w = Done 100 w /\
  GetOffset w = Done Sample.quarter w /\
  waits (events w) = [F64.lit_0_1].
Proof.
  split; [vm_compute; reflexivity|].
  apply (preset_constructor_skips_calibration Sample.K Sample.silent
           Sample.raw Sample.channel 100 Sample.quarter).
  vm_compute; reflexivity.
Defined.

(** The same for the constructor that takes a channel number. *)
Lemma channel_preset_constructor_skips_calibration (K : Constants)
    (new_AnalogInput : Z -> AnalogInput)
    (elapse : double -> AnalogInput -> AnalogInput) (raw : AnalogGyro)
    (channel : Z) (center : Z) (offset : float) (w : World) :
  AnalogGyro_channel_preset K new_AnalogInput elapse raw channel center
    offset = Done tt w ->
  GetCenter w = Done center w /\
  GetOffset w = Done offset w /\
  waits (events w) = [F64.lit_0_1].
Proof.
  intros H.
  unfold AnalogGyro_channel_preset, InitGyro, SetDeadband, shl1 in H.
  run_in H. split_run H; injection H as <-; repeat split.
Qed.

(** C8 as stated fails: the construction with the preset (100, 0.25) does
    wait. *)
Lemma preset_constructor_waits :
  waits (events (final (AnalogGyro_shared_preset Sample.K Sample.silent
                          Sample.raw (Some Sample.channel) 100
                          Sample.quarter)))
  <> [].
Proof. vm_compute. discriminate. Qed.

(** ** Calibration *)

Lemma mean_valid (a : AnalogInput) : F32.valid (mean_of a) = true.
Proof. apply SFdiv_valid. reflexivity. Qed.

(** What a calibration that returns has done. *)
Lemma Calibrate_returns (K : Constants)
    (elapse : double -> AnalogInput -> AnalogInput) (w w' : World)
    (a : AnalogInput) :
  usable w a ->
  Calibrate K elapse w = Done tt w' ->
  exists c,
    IEEE.to_integer 0 UINT32_MAX
      (F64.add (F64.of_float (mean_of (calibration_reading K elapse a)))
               F64.lit_0_5) = Some c /\
    w' = mkWorld
           (mkAnalogGyro
              (Some (ResetAccumulator
                       (SetAccumulatorCenter c
                          (calibration_reading K elapse a))))
              (m_voltsPerDegreePerSecond (self w))
              (F32.sub (mean_of (calibration_reading K elapse a))
                       (F32.of_Z c))
              c None (m_pidSource (self w)))
           (events w ++ [EvWait (F64.of_float (kCalibrationSampleTime K))]).
Proof.
  intros Hu Hc. rewrite (usable_inv w a Hu) in Hc.
  unfold Calibrate, GetAccumulatorOutput in Hc. run_in Hc.
  fold (calibration_reading K elapse a) in Hc.
  fold (mean_of (calibration_reading K elapse a)) in Hc.
  destruct (IEEE.to_integer 0 UINT32_MAX
              (F64.add (F64.of_float (mean_of (calibration_reading K elapse a)))
                       F64.lit_0_5)) as [c|] eqn:E; [|discriminate].
  exists c. split; [reflexivity|]. injection Hc as <-. reflexivity.
Qed.

(** C1. After [Calibrate] returns on a valid channel, with [mean] the
    [float] quotient of the accumulated value by the sample count read back
    after the sampling window: the mean is a number, the stored center is
    the truncation of [mean + 1/2], and the stored offset is [mean - center]
    exactly, both read in the rational numbers. *)
Theorem Calibrate_center_offset (K : Constants)
    (elapse : double -> AnalogInput -> AnalogInput) (w w' : World)
    (a : AnalogInput) :
  usable w a ->
  Calibrate K elapse w = Done tt w' ->
  IEEE.is_finite (mean_of (calibration_reading K elapse a)) = true /\
  m_center (self w') =
    IEEE.Qtruncate
      (IEEE.SF2Q (mean_of (calibration_reading K elapse a)) + (1 # 2)) /\
  (IEEE.SF2Q (m_offset (self w')) ==
   IEEE.SF2Q (mean_of (calibration_reading K elapse a))
   - inject_Z (m_center (self w')))%Q.
Proof.
  intros Hu Hc.
  destruct (Calibrate_returns K elapse w w' a Hu Hc) as (c & Hconv & ->).
  simpl self. simpl m_center. simpl m_offset.
  apply calibration_exact_Q; [apply mean_valid|exact Hconv].
Qed.

(** A mean of 10.5 gives the center 11 and the offset -0.5. *)
Lemma Calibrate_center_offset_witness :
  let w := Sample.gyro_on Sample.channel 0 F32.zero in
  let w' := final (Calibrate Sample.K (Sample.gather 21 2) w) in
  (IEEE.SF2Q (mean_of (calibration_reading Sample.K (Sample.gather 21 2)
                         Sample.channel)) == 21 # 2)%Q /\
  m_center (self w') = 11 /\
  (IEEE.SF2Q (m_offset (self w')) == - (1 # 2))%Q /\
  IEEE.is_finite (mean_of (calibration_reading Sample.K (Sample.gather 21 2)
                             Sample.channel)) = true /\
  m_center (self w') =
    IEEE.Qtruncate
      (IEEE.SF2Q (mean_of (calibration_reading Sample.K (Sample.gather 21 2)
                             Sample.channel)) + (1 # 2)) /\
  (IEEE.SF2Q (m_offset (self w')) ==
   IEEE.SF2Q (mean_of (calibration_reading Sample.K (Sample.gather 21 2)
                         Sample.channel))
   - inject_Z (m_center (self w')))%Q.
Proof.
  split; [reflexivity|]. split; [reflexivity|]. split; [reflexivity|].
  apply (Calibrate_center_offset Sample.K (Sample.gather 21 2)
           (Sample.gyro_on Sample.channel 0 F32.zero)
           (final (Calibrate Sample.K (Sample.gather 21 2)
                     (Sample.gyro_on Sample.channel 0 F32.zero)))
           Sample.channel).
  - split; reflexivity.
  - reflexivity.
Defined.

(** A mean of 10.4999 gives the center 10. *)
Example Calibrate_below_half :
  let w' := final (Calibrate Sample.K (Sample.gather 104999 10000)
                     (Sample.gyro_on Sample.channel 0 F32.zero)) in
  m_center (self w') = 10 /\
  (104998 # 10000 < IEEE.SF2Q (mean_of (calibration_reading Sample.K
                      (Sample.gather 104999 10000) Sample.channel))
   < 105 # 10)%Q.
Proof. split; [reflexivity|]. split; reflexivity. Qed.

(** C2.  A sample count of zero is not guarded: the division is performed,
    its quotient is not a number or is infinite, no error is recorded, and
    the run stops at the conversion of that quotient to the unsigned
    center, which C++ leaves undefined. *)
Theorem Calibrate_zero_count_divides (K : Constants)
    (elapse : double -> AnalogInput -> AnalogInput) (w : World)
    (a : AnalogInput) :
  usable w a ->
  ai_accumulatorCount (calibration_reading K elapse a) = 0 ->
  IEEE.is_finite (mean_of (calibration_reading K elapse a)) = false /\
  exists x w',
    Calibrate K elapse w = Crash (UndefinedConversion x) w' /\
    IEEE.is_finite x = false /\
    m_error (self w') = None.
Proof.
  intros Hu Hn.
  assert (Hm : IEEE.is_finite (mean_of (calibration_reading K elapse a))
               = false).
  { unfold mean_of. rewrite Hn. change (F32.of_Z 0) with (S754_zero false).
    destruct (F32.of_Z (ai_accumulatorValue (calibration_reading K elapse a)))
      as [s|s| |s m e]; reflexivity. }
  split; [exact Hm|].
  rewrite (usable_inv w a Hu).
  unfold Calibrate, GetAccumulatorOutput. run.
  fold (calibration_reading K elapse a).
  fold (mean_of (calibration_reading K elapse a)).
  destruct (mean_of (calibration_reading K elapse a)) as [s|s| |s m e];
    try discriminate Hm.
  - destruct s; eexists; eexists; repeat split.
  - eexists; eexists; repeat split.
Qed.

(** With hardware that gathers no sample the quotient is 0/0. *)
Lemma Calibrate_zero_count_divides_witness :
  let w := Sample.gyro_on Sample.channel 0 F32.zero in
  GetAccumulatorOutput
    (calibration_reading Sample.K Sample.silent Sample.channel) = (0, 0) /\
  mean_of (calibration_reading Sample.K Sample.silent Sample.channel)
    = S754_nan /\
  IEEE.is_finite
    (mean_of (calibration_reading Sample.K Sample.silent Sample.channel))
    = false /\
  exists x w',
    Calibrate Sample.K Sample.silent w = Crash (UndefinedConversion x) w' /\
    IEEE.is_finite x = false /\
    m_error (self w') = None.
Proof.
  split; [reflexivity|]. split; [reflexivity|].
  apply (Calibrate_zero_count_divides Sample.K Sample.silent
           (Sample.gyro_on Sample.channel 0 F32.zero) Sample.channel).
  - split; reflexivity.
  - reflexivity.
Defined.

(** ** The rate *)

Lemma GetRate_returns (w : World) (a : AnalogInput) :
  usable w a -> 0 <= ai_oversampleBits a < 31 ->
  GetRate w =
    Done (rate_of (ai_averageValue a) (m_center (self w)) (m_offset (self w))
            (ai_lsbWeight a) (ai_oversampleBits a)
            (m_voltsPerDegreePerSecond (self w))) w.
Proof.
  intros Hu Hb. rewrite (usable_inv w a Hu). unfold GetRate. run.
  unfold GetOversampleBits. rewrite shl1_defined by assumption.
  reflexivity.
Qed.

(** After a calibration that returned, on a channel whose averaged value is
    the [float] mean of the calibration window itself, the rate is a zero.
    A channel that shows the value [s] of the stream meets the hypothesis
    only when that mean is [s] exactly; [GetRate_at_rest] below bounds the
    rate without it. *)
Lemma GetRate_zero_at_mean (K : Constants)
    (elapse : double -> AnalogInput -> AnalogInput) (w0 w : World)
    (a0 a : AnalogInput) :
  usable w0 a0 ->
  Calibrate K elapse w0 = Done tt w ->
  ai_averageValue a =
    F64.of_float (mean_of (calibration_reading K elapse a0)) ->
  0 <= ai_oversampleBits a < 31 ->
  IEEE.is_finite (ai_lsbWeight a) = true ->
  IEEE.is_zero
    (F64.of_float (F32.mul (F32.of_Z (2 ^ ai_oversampleBits a))
                           (m_voltsPerDegreePerSecond (self w0)))) = false ->
  IEEE.is_nan
    (F64.of_float (F32.mul (F32.of_Z (2 ^ ai_oversampleBits a))
                           (m_voltsPerDegreePerSecond (self w0)))) = false ->
  exists r,
    GetRate (with_channel a w) = Done r (with_channel a w) /\
    IEEE.is_zero r = true.
Proof.
  intros Hu Hc Havg Hb Hlsb Hd1 Hd2.
  destruct (Calibrate_returns K elapse w0 w a0 Hu Hc) as (c & Hconv & ->).
  eexists. split.
  - apply GetRate_returns; [split; reflexivity|exact Hb].
  - unfold with_channel, rate_of. simpl self. simpl m_center. simpl m_offset.
    simpl m_voltsPerDegreePerSecond. rewrite Havg.
    apply F64_div_zero_l; [|exact Hd1|exact Hd2].
    apply F64_mul_zero_l; [|exact Hlsb].
    apply F64_mul_zero_l; [|reflexivity].
    apply bias_is_mean; [apply mean_valid|exact Hconv].
Qed.

(** The rate of a bias that is close to the reading. *)
Lemma rest_bound (r x B G U t T : Q) :
  (0 <= x)%Q -> (0 <= U)%Q -> (0 <= t)%Q ->
  (Qabs (r - (x - B) * G) <= U * (Qabs (x - B) + Qabs B) * Qabs G)%Q ->
  (Qabs (x - B) <= t * x)%Q ->
  (U * (1 + 2 * t) + t <= T)%Q ->
  (Qabs r <= x * T * Qabs G)%Q.
Proof.
  intros Hx HU Ht H1 H2 HT.
  assert (E1 : (r == (r - (x - B) * G) + (x - B) * G)%Q) by ring.
  assert (E2 : (B == x + - (x - B))%Q) by ring.
  pose proof (Qabs_triangle (r - (x - B) * G) ((x - B) * G)) as T1.
  rewrite <- E1, Qabs_Qmult in T1.
  pose proof (Qabs_triangle x (- (x - B))) as T2.
  rewrite <- E2, Qabs_opp, (Qabs_pos x Hx) in T2.
  pose proof (Qabs_nonneg G) as N1. pose proof (Qabs_nonneg B) as N2.
  pose proof (Qabs_nonneg (x - B)) as N3.
  set (e := Qabs (x - B)) in *. set (y := Qabs B) in *.
  set (g := Qabs G) in *. set (e0 := Qabs (r - (x - B) * G)) in *.
  assert (H3 : (U * (e + y) <= U * (x * (1 + 2 * t)))%Q).
  { rewrite !(Qmult_comm U). apply Qmult_le_compat_r; [|exact HU].
    assert (E : (x * (1 + 2 * t) == t * x + (x + t * x))%Q) by ring.
    rewrite E. lra. }
  assert (H4 : (U * (e + y) * g <= U * (x * (1 + 2 * t)) * g)%Q).
  { apply Qmult_le_compat_r; assumption. }
  assert (H5 : (e * g <= t * x * g)%Q).
  { apply Qmult_le_compat_r; assumption. }
  assert (H6 : (x * (U * (1 + 2 * t) + t) * g <= x * T * g)%Q).
  { apply Qmult_le_compat_r; [|exact N1].
    rewrite !(Qmult_comm x). apply Qmult_le_compat_r; assumption. }
  assert (E3 : (x * (U * (1 + 2 * t) + t) * g
                == U * (x * (1 + 2 * t)) * g + t * x * g)%Q) by ring.
  rewrite E3 in H6. lra.
Qed.

Lemma GetRate_accurate (w : World) (a : AnalogInput) :
  usable w a -> 0 <= ai_oversampleBits a < 31 ->
  F64.valid (ai_averageValue a) = true ->
  zero_or_between (ai_averageValue a) (-148) 64 ->
  0 <= m_center (self w) <= UINT32_MAX ->
  F32.valid (m_offset (self w)) = true ->
  IEEE.is_finite (m_offset (self w)) = true ->
  F64.valid (ai_lsbWeight a) = true ->
  at_least_pow2 (ai_lsbWeight a) (-500) -> below_pow2 (ai_lsbWeight a) 500 ->
  F32.valid (m_voltsPerDegreePerSecond (self w)) = true ->
  IEEE.is_zero (m_voltsPerDegreePerSecond (self w)) = false ->
  IEEE.is_finite (F32.mul (F32.of_Z (2 ^ ai_oversampleBits a))
                          (m_voltsPerDegreePerSecond (self w))) = true ->
  exists r,
    GetRate w = Done r w /\ IEEE.is_finite r = true /\
    (Qabs (IEEE.SF2Q r
           - (IEEE.SF2Q (ai_averageValue a)
              - (inject_Z (m_center (self w))
                 + IEEE.SF2Q (m_offset (self w))))
             * ((1 # 1000000000) * IEEE.SF2Q (ai_lsbWeight a)
                / (inject_Z (2 ^ ai_oversampleBits a)
                   * IEEE.SF2Q (m_voltsPerDegreePerSecond (self w)))))
     <= (1 # 2 ^ 49)
        * (Qabs (IEEE.SF2Q (ai_averageValue a)
                 - (inject_Z (m_center (self w))
                    + IEEE.SF2Q (m_offset (self w))))
           + Qabs (inject_Z (m_center (self w))
                   + IEEE.SF2Q (m_offset (self w))))
        * Qabs ((1 # 1000000000) * IEEE.SF2Q (ai_lsbWeight a)
                / (inject_Z (2 ^ ai_oversampleBits a)
                   * IEEE.SF2Q (m_voltsPerDegreePerSecond (self w)))))%Q.
Proof.
  intros Hu Hb Hva Hwa Hc Hvo Hfo HvL HL1 HL2 HvS HzS HfS.
  eexists. split; [apply (GetRate_returns w a Hu Hb)|].
  apply rate_of_accurate; assumption.
Qed.

(** An integer of 32 bits as a [double]. *)
Lemma F64_of_int32 (s : Z) :
  INT32_MIN <= s <= INT32_MAX ->
  F64.valid (F64.of_Z s) = true /\
  zero_or_between (F64.of_Z s) (-148) 64 /\
  (IEEE.SF2Q (F64.of_Z s) == inject_Z s)%Q.
Proof.
  intros Hs. unfold INT32_MIN, INT32_MAX in Hs.
  pose proof (eq_refl : scale = 1074) as Escale.
  assert (P31 : 2 ^ 31 < 2 ^ 32) by (apply Z.pow_lt_mono_r; lia).
  assert (P32 : 2 ^ 32 < 2 ^ 53) by (apply Z.pow_lt_mono_r; lia).
  assert (Hs32 : Z.abs s < 2 ^ 32) by lia.
  assert (Hs53 : Z.abs s < 2 ^ 53) by lia.
  clear Hs P31 P32.
  pose proof (F64_of_Z_signed s Hs53) as Hr.
  split; [apply binary_normalize_valid|]. split.
  - pose proof (represents_between (F64.of_Z s) (s * 2 ^ scale) scale
                  (32 + scale) Hr ltac:(clear - Escale; lia)
                  ltac:(clear - Escale; lia)
                  (Z.divide_factor_r (2 ^ scale) s)
                  (scaled_int_below s 32 ltac:(clear; lia) Hs32)) as H.
    destruct (F64.of_Z s) as [sg|sg| |sg m e]; try contradiction;
      [exact I|].
    unfold zero_or_between in *. clear - H Escale. lia.
  - rewrite (SF2Q_represents _ _ Hr), inject_Z_mult.
    assert (HP : (0 < inject_Z (2 ^ scale))%Q).
    { rewrite Qpow2_inject by lia. apply Qpow2_pos. }
    field. lra.
Qed.

(** The mean of a window of [n] samples of the value [s], against [s]. *)
Lemma mean_within (a : AnalogInput) (s n : Z) :
  ai_accumulatorValue a = s * n -> ai_accumulatorCount a = n ->
  0 < n < 2 ^ 24 -> 0 <= s <= INT32_MAX ->
  (Qabs (inject_Z s - IEEE.SF2Q (mean_of a)) <= (1 # 2 ^ 21) * inject_Z s)%Q.
Proof.
  intros Hv Hn Hn' Hs. unfold INT32_MAX in Hs.
  unfold mean_of. rewrite Hv, Hn.
  destruct (mean_error s n ltac:(lia) Hn') as (v & Hr & He).
  pose proof (eq_refl : scale = 1074) as Escale.
  pose proof (pow2_pos scale ltac:(lia)) as Hp.
  assert (He' : Z.abs (v - s * 2 ^ scale) * Zpos (2 ^ 21)
                <= Z.abs (s * 2 ^ scale)).
  { rewrite (Z.abs_eq (s * 2 ^ scale)) by (apply Z.mul_nonneg_nonneg; lia).
    exact He. }
  pose proof (within_of_scaled _ v (s * 2 ^ scale) (2 ^ 21)%positive Hr He')
    as W.
  assert (HP : (0 < inject_Z (2 ^ scale))%Q).
  { rewrite Qpow2_inject by lia. apply Qpow2_pos. }
  assert (E : (inject_Z (s * 2 ^ scale) / inject_Z (2 ^ scale)
               == inject_Z s)%Q).
  { rewrite inject_Z_mult. field. lra. }
  rewrite E in W. unfold within in W.
  assert (Hs0 : (0 <= inject_Z s)%Q).
  { change 0%Q with (inject_Z 0). rewrite <- Zle_Qle. lia. }
  rewrite (Qabs_pos (inject_Z s) Hs0) in W.
  assert (E' : (inject_Z s
                - IEEE.SF2Q (F32.div (F32.of_Z (s * n)) (F32.of_Z n))
                == - (IEEE.SF2Q (F32.div (F32.of_Z (s * n)) (F32.of_Z n))
                      - inject_Z s))%Q) by ring.
  rewrite E', Qabs_opp. exact W.
Qed.

Lemma GetRate_at_rest (K : Constants)
    (elapse : double -> AnalogInput -> AnalogInput) (w0 w : World)
    (a0 a : AnalogInput) (s n : Z) :
  usable w0 a0 ->
  Calibrate K elapse w0 = Done tt w ->
  ai_accumulatorValue (calibration_reading K elapse a0) = s * n ->
  ai_accumulatorCount (calibration_reading K elapse a0) = n ->
  0 < n < 2 ^ 24 -> 0 <= s <= INT32_MAX ->
  ai_averageValue a = F64.of_Z s ->
  0 <= ai_oversampleBits a < 31 ->
  F64.valid (ai_lsbWeight a) = true ->
  at_least_pow2 (ai_lsbWeight a) (-500) -> below_pow2 (ai_lsbWeight a) 500 ->
  F32.valid (m_voltsPerDegreePerSecond (self w0)) = true ->
  IEEE.is_zero (m_voltsPerDegreePerSecond (self w0)) = false ->
  IEEE.is_finite (F32.mul (F32.of_Z (2 ^ ai_oversampleBits a))
                          (m_voltsPerDegreePerSecond (self w0))) = true ->
  exists r,
    GetRate (with_channel a w) = Done r (with_channel a w) /\
    IEEE.is_finite r = true /\
    (Qabs (IEEE.SF2Q r)
     <= inject_Z s * (1 # 2 ^ 20)
        * Qabs ((1 # 1000000000) * IEEE.SF2Q (ai_lsbWeight a)
                / (inject_Z (2 ^ ai_oversampleBits a)
                   * IEEE.SF2Q (m_voltsPerDegreePerSecond (self w0)))))%Q.
Proof.
  intros Hu Hc Hv Hn Hn' Hs Havg Hb HvL HL1 HL2 HvS HzS HfS.
  destruct (Calibrate_returns K elapse w0 w a0 Hu Hc) as (c & Hconv & ->).
  set (x := mean_of (calibration_reading K elapse a0)) in *.
  pose proof (mean_valid (calibration_reading K elapse a0)) as Hvx.
  fold x in Hvx.
  destruct (to_integer_Some _ _ _ _ Hconv) as [_ Hr].
  destruct (calibration_exact x c Hvx Hconv) as (v & Hx & _ & Ho).
  destruct (calibration_exact_Q x c Hvx Hconv) as (_ & _ & EQ).
  pose proof (mean_within _ s n Hv Hn Hn' Hs) as Hm. fold x in Hm.
  destruct (F64_of_int32 s) as (Hva & Hwa & EA).
  { unfold INT32_MIN. unfold INT32_MAX in *. lia. }
  destruct (GetRate_accurate
              (with_channel a
                 (mkWorld
                    (mkAnalogGyro
                       (Some (ResetAccumulator
                                (SetAccumulatorCenter c
                                   (calibration_reading K elapse a0))))
                       (m_voltsPerDegreePerSecond (self w0))
                       (F32.sub x (F32.of_Z c)) c None
                       (m_pidSource (self w0)))
                    (events w0 ++
                     [EvWait (F64.of_float (kCalibrationSampleTime K))])))
              a) as (r & Er & Hfin & Hacc);
    try assumption.
  - split; reflexivity.
  - rewrite Havg. exact Hva.
  - rewrite Havg. exact Hwa.
  - apply SFsub_valid; [exact Hvx|apply binary_normalize_valid].
  - apply (represents_is_finite _ _ Ho).
  - exists r. split; [exact Er|]. split; [exact Hfin|].
    cbn [with_channel self m_center m_offset m_voltsPerDegreePerSecond
         set_analog] in Hacc.
    assert (EB : (inject_Z c + IEEE.SF2Q (F32.sub x (F32.of_Z c))
                  == IEEE.SF2Q x)%Q) by (rewrite EQ; ring).
    rewrite EB, Havg, EA in Hacc.
    assert (Hs0 : (0 <= inject_Z s)%Q).
    { change 0%Q with (inject_Z 0). rewrite <- Zle_Qle. lia. }
    apply rest_bound with (B := IEEE.SF2Q x) (U := (1 # 2 ^ 49)%Q)
                          (t := (1 # 2 ^ 21)%Q);
      [exact Hs0|discriminate|discriminate|exact Hacc|exact Hm|].
    vm_compute. discriminate.
Qed.

(** C4.  In a valid state, with an oversampling depth from 0 to 30:

    - [GetRate] returns
      [(avg - (center + offset)) * 1e-9 * lsbWeight /
       (2 ^ oversampleBits * sensitivity)], each operation being the one
      of [double] (the divisor is formed in [float]);
    - read in the rational numbers, that [double] is the formula up to
      [2 ^ -49] of [(|avg - bias| + |bias|) * |gain|], where
      [bias = center + offset] and
      [gain = 1e-9 * lsbWeight / (2 ^ oversampleBits * sensitivity)]; this
      holds for every averaged value that is a zero or lies between
      [2 ^ -148] and [2 ^ 64], every offset that is a number, every LSB
      weight between [2 ^ -500] and [2 ^ 500] and every sensitivity that
      is a number, is not zero and does not make the divisor overflow;
    - after a calibration that returned on a window of [n] samples that
      add up to [s * n], on a channel that shows [s] afterwards, the rate
      is at most [s * 2 ^ -20 * |gain|] in absolute value: zero up to the
      precision of the [float] mean. *)
Theorem GetRate_formula_and_rest :
  (forall (w : World) (a : AnalogInput),
     usable w a -> 0 <= ai_oversampleBits a < 31 ->
     GetRate w =
       Done (rate_of (ai_averageValue a) (m_center (self w))
               (m_offset (self w)) (ai_lsbWeight a) (ai_oversampleBits a)
               (m_voltsPerDegreePerSecond (self w))) w) /\
  (forall (w : World) (a : AnalogInput),
     usable w a -> 0 <= ai_oversampleBits a < 31 ->
     F64.valid (ai_averageValue a) = true ->
     zero_or_between (ai_averageValue a) (-148) 64 ->
     0 <= m_center (self w) <= UINT32_MAX ->
     F32.valid (m_offset (self w)) = true ->
     IEEE.is_finite (m_offset (self w)) = true ->
     F64.valid (ai_lsbWeight a) = true ->
     at_least_pow2 (ai_lsbWeight a) (-500) ->
     below_pow2 (ai_lsbWeight a) 500 ->
     F32.valid (m_voltsPerDegreePerSecond (self w)) = true ->
     IEEE.is_zero (m_voltsPerDegreePerSecond (self w)) = false ->
     IEEE.is_finite (F32.mul (F32.of_Z (2 ^ ai_oversampleBits a))
                             (m_voltsPerDegreePerSecond (self w))) = true ->
     exists r,
       GetRate w = Done r w /\ IEEE.is_finite r = true /\
       (Qabs (IEEE.SF2Q r
              - (IEEE.SF2Q (ai_averageValue a)
                 - (inject_Z (m_center (self w))
                    + IEEE.SF2Q (m_offset (self w))))
                * ((1 # 1000000000) * IEEE.SF2Q (ai_lsbWeight a)
                   / (inject_Z (2 ^ ai_oversampleBits a)
                      * IEEE.SF2Q (m_voltsPerDegreePerSecond (self w)))))
        <= (1 # 2 ^ 49)
           * (Qabs (IEEE.SF2Q (ai_averageValue a)
                    - (inject_Z (m_center (self w))
                       + IEEE.SF2Q (m_offset (self w))))
              + Qabs (inject_Z (m_center (self w))
                      + IEEE.SF2Q (m_offset (self w))))
           * Qabs ((1 # 1000000000) * IEEE.SF2Q (ai_lsbWeight a)
                   / (inject_Z (2 ^ ai_oversampleBits a)
                      * IEEE.SF2Q (m_voltsPerDegreePerSecond (self w)))))%Q)
  /\
  (forall (K : Constants) (elapse : double -> AnalogInput -> AnalogInput)
          (w0 w : World) (a0 a : AnalogInput) (s n : Z),
     usable w0 a0 ->
     Calibrate K elapse w0 = Done tt w ->
     ai_accumulatorValue (calibration_reading K elapse a0) = s * n ->
     ai_accumulatorCount (calibration_reading K elapse a0) = n ->
     0 < n < 2 ^ 24 -> 0 <= s <= INT32_MAX ->
     ai_averageValue a = F64.of_Z s ->
     0 <= ai_oversampleBits a < 31 ->
     F64.valid (ai_lsbWeight a) = true ->
     at_least_pow2 (ai_lsbWeight a) (-500) ->
     below_pow2 (ai_lsbWeight a) 500 ->
     F32.valid (m_voltsPerDegreePerSecond (self w0)) = true ->
     IEEE.is_zero (m_voltsPerDegreePerSecond (self w0)) = false ->
     IEEE.is_finite (F32.mul (F32.of_Z (2 ^ ai_oversampleBits a))
                             (m_voltsPerDegreePerSecond (self w0))) = true ->
     exists r,
       GetRate (with_channel a w) = Done r (with_channel a w) /\
       IEEE.is_finite r = true /\
       (Qabs (IEEE.SF2Q r)
        <= inject_Z s * (1 # 2 ^ 20)
           * Qabs ((1 # 1000000000) * IEEE.SF2Q (ai_lsbWeight a)
                   / (inject_Z (2 ^ ai_oversampleBits a)
                      * IEEE.SF2Q (m_voltsPerDegreePerSecond (self w0)))))%Q).
Proof.
  split; [exact GetRate_returns|].
  split; [exact GetRate_accurate|exact GetRate_at_rest].
Qed.

Lemma GetRate_formula_and_rest_witness :
  let w1 := Sample.gyro_on (Sample.reading 12 10) 10 Sample.half in
  let w0 := Sample.gyro_on Sample.channel 0 F32.zero in
  let w := final (Calibrate Sample.K
                    (Sample.gather (2097112 * 250) 250) w0) in
  let a := Sample.reading 2097112 2097112 in
  let gain := ((1 # 1000000000) * IEEE.SF2Q (F64.of_Z 1000)
               / (inject_Z (2 ^ 2)
                  * IEEE.SF2Q (kDefaultVoltsPerDegreePerSecond Sample.K)))%Q
  in
  GetRate w1
    = Done (rate_of (F64.of_Z 12) 10 Sample.half (F64.of_Z 1000) 2
              (kDefaultVoltsPerDegreePerSecond Sample.K)) w1 /\
  (exists r,
     GetRate w1 = Done r w1 /\ IEEE.is_finite r = true /\
     (Qabs (IEEE.SF2Q r
            - (IEEE.SF2Q (F64.of_Z 12)
               - (inject_Z 10 + IEEE.SF2Q Sample.half)) * gain)
      <= (1 # 2 ^ 49)
         * (Qabs (IEEE.SF2Q (F64.of_Z 12)
                  - (inject_Z 10 + IEEE.SF2Q Sample.half))
            + Qabs (inject_Z 10 + IEEE.SF2Q Sample.half))
         * Qabs gain)%Q) /\
  Calibrate Sample.K (Sample.gather (2097112 * 250) 250) w0 = Done tt w /\
  (exists r,
     GetRate (with_channel a w) = Done r (with_channel a w) /\
     IEEE.is_finite r = true /\
     (Qabs (IEEE.SF2Q r) <= inject_Z 2097112 * (1 # 2 ^ 20) * Qabs gain)%Q).
Proof.
  split; [|split; [|split]].
  - apply (proj1 GetRate_formula_and_rest
             (Sample.gyro_on (Sample.reading 12 10) 10 Sample.half)
             (Sample.reading 12 10)).
    + split; reflexivity.
    + simpl; lia.
  - apply (proj1 (proj2 GetRate_formula_and_rest)
             (Sample.gyro_on (Sample.reading 12 10) 10 Sample.half)
             (Sample.reading 12 10)).
    + split; reflexivity.
    + simpl; lia.
    + vm_compute; reflexivity.
    + vm_compute. split; discriminate.
    + vm_compute. split; discriminate.
    + vm_compute; reflexivity.
    + vm_compute; reflexivity.
    + vm_compute; reflexivity.
    + vm_compute. discriminate.
    + vm_compute. discriminate.
    + vm_compute; reflexivity.
    + vm_compute; reflexivity.
    + vm_compute; reflexivity.
  - vm_compute; reflexivity.
  - apply (proj2 (proj2 GetRate_formula_and_rest) Sample.K
             (Sample.gather (2097112 * 250) 250)
             (Sample.gyro_on Sample.channel 0 F32.zero)
             (final (Calibrate Sample.K
                       (Sample.gather (2097112 * 250) 250)
                       (Sample.gyro_on Sample.channel 0 F32.zero)))
             Sample.channel (Sample.reading 2097112 2097112) 2097112 250).
    + split; reflexivity.
    + vm_compute; reflexivity.
    + vm_compute; reflexivity.
    + vm_compute; reflexivity.
    + vm_compute. split; reflexivity.
    + vm_compute. split; discriminate.
    + reflexivity.
    + simpl; lia.
    + vm_compute; reflexivity.
    + vm_compute. discriminate.
    + vm_compute. discriminate.
    + vm_compute; reflexivity.
    + vm_compute; reflexivity.
    + vm_compute; reflexivity.
Defined.

(** The two readings of the witness as numbers: the channel shows 12
    against a bias of 10.5, which is 5.357e-5 degrees per second; and
    after the calibration on 250 samples of 2097112, whose [float] mean is
    2097112.125, the channel at rest reads -4.46e-6 degrees per second,
    not zero. *)
Example GetRate_readings :
  (exists r,
     GetRate (Sample.gyro_on (Sample.reading 12 10) 10 Sample.half)
       = Done r (Sample.gyro_on (Sample.reading 12 10) 10 Sample.half) /\
     (5357 # 100000000 < IEEE.SF2Q r < 5358 # 100000000)%Q) /\
  (let w := final (Calibrate Sample.K
                     (Sample.gather (2097112 * 250) 250)
                     (Sample.gyro_on Sample.channel 0 F32.zero)) in
   m_center (self w) = 2097112 /\
   (IEEE.SF2Q (m_offset (self w)) == 1 # 8)%Q /\
   exists r,
     GetRate (with_channel (Sample.reading 2097112 2097112) w)
       = Done r (with_channel (Sample.reading 2097112 2097112) w) /\
     (- (447 # 100000000) < IEEE.SF2Q r < - (446 # 100000000))%Q).
Proof.
  split.
  - eexists. split; [vm_compute; reflexivity|]. split; reflexivity.
  - split; [vm_compute; reflexivity|]. split; [vm_compute; reflexivity|].
    eexists. split; [vm_compute; reflexivity|]. split; reflexivity.
Qed.

(** When the conversion of the accumulated value to [float] rounds, the
    rate at rest is small but not zero: on a channel that shows 100000001
    after a window of one sample of that value, the rate is below 1e-4
    degrees per second. *)
Example GetRate_at_rest_rounding :
  let w := final (Calibrate Sample.K (Sample.gather 100000001 1)
                    (Sample.gyro_on Sample.channel 0 F32.zero)) in
  let a := mkAnalogInput 0 true 0 2 (F64.of_Z 51200) (F64.of_Z 1000)
             (F64.of_Z 100000001) 0 0 100000000 0 in
  exists r,
    GetRate (with_channel a w) = Done r (with_channel a w) /\
    (0 < IEEE.SF2Q r < 1 # 10000)%Q.
Proof. eexists. split; [vm_compute; reflexivity|]. split; reflexivity. Qed.

(** ** The angle *)

Lemma int64_sub_defined (x y : Z) (w : World) :
  INT64_MIN <= x - y <= INT64_MAX -> int64_sub x y w = Done (x - y) w.
Proof.
  intros H. unfold int64_sub.
  replace ((INT64_MIN <=? x - y) && (x - y <=? INT64_MAX)) with true;
    [reflexivity|].
  symmetry. apply andb_true_intro. split; apply Z.leb_le; lia.
Qed.

Lemma GetAngle_returns (w : World) (a : AnalogInput) (t : Z) :
  usable w a -> 0 <= ai_averageBits a < 31 ->
  IEEE.to_integer INT64_MIN INT64_MAX
    (F32.mul (F32.of_Z (ai_accumulatorCount a)) (m_offset (self w)))
    = Some t ->
  INT64_MIN <= ai_accumulatorValue a - t <= INT64_MAX ->
  GetAngle w =
    Done (angle_of (ai_accumulatorValue a - t) (ai_lsbWeight a)
            (ai_averageBits a) (ai_sampleRate a)
            (m_voltsPerDegreePerSecond (self w))) w.
Proof.
  intros Hu Hb Ht Hr. open_world w. destruct Hu as [Hu1 Hu2].
  cbn [self m_error m_analog m_offset m_voltsPerDegreePerSecond] in *.
  subst an err.
  unfold GetAngle, GetAccumulatorOutput. run. rewrite Ht.
  rewrite int64_sub_defined by assumption.
  unfold GetAverageBits. rewrite shl1_defined by assumption.
  reflexivity.
Qed.

(** C3, as the code has it.  In a valid state [GetAngle] reads
    [(raw, count)], subtracts from [raw] the product [count * offset]
    converted to an integer by truncation, scales the difference by
    [1e-9 * lsbWeight * 2 ^ averageBits / (sampleRate * sensitivity)] and
    returns it; nothing folds the result into a turn. *)
Theorem GetAngle_truncates_correction (w : World) (a : AnalogInput) (t : Z) :
  usable w a -> 0 <= ai_averageBits a < 31 ->
  IEEE.to_integer INT64_MIN INT64_MAX
    (F32.mul (F32.of_Z (ai_accumulatorCount a)) (m_offset (self w)))
    = Some t ->
  INT64_MIN <= ai_accumulatorValue a - t <= INT64_MAX ->
  t = IEEE.Qtruncate
        (IEEE.SF2Q (F32.mul (F32.of_Z (ai_accumulatorCount a))
                            (m_offset (self w)))) /\
  GetAngle w =
    Done (angle_of (ai_accumulatorValue a - t) (ai_lsbWeight a)
            (ai_averageBits a) (ai_sampleRate a)
            (m_voltsPerDegreePerSecond (self w))) w.
Proof.
  intros Hu Hb Ht Hr. split.
  - apply truncate_Qtruncate. apply (to_integer_Some _ _ _ _ Ht).
  - apply GetAngle_returns; assumption.
Qed.

(** An accumulated value that stands for two turns reads about 720. *)
Lemma GetAngle_truncates_correction_witness :
  let a := Sample.channel_with 1000 2 258048000000 0 in
  let w := Sample.gyro_on a 0 F32.zero in
  (exists r, GetAngle w = Done r w /\
             (71999 # 100 < IEEE.SF2Q r < 72001 # 100)%Q) /\
  0 = IEEE.Qtruncate
        (IEEE.SF2Q (F32.mul (F32.of_Z (ai_accumulatorCount a))
                            (m_offset (self w)))) /\
  GetAngle w =
    Done (angle_of (ai_accumulatorValue a - 0) (ai_lsbWeight a)
            (ai_averageBits a) (ai_sampleRate a)
            (m_voltsPerDegreePerSecond (self w))) w.
Proof.
  split.
  - eexists. split; [vm_compute; reflexivity|]. split; reflexivity.
  - apply (GetAngle_truncates_correction
             (Sample.gyro_on (Sample.channel_with 1000 2 258048000000 0) 0
                F32.zero)
             (Sample.channel_with 1000 2 258048000000 0) 0).
    + split; reflexivity.
    + simpl; lia.
    + reflexivity.
    + vm_compute. split; discriminate.
Defined.

(** C3 as stated fails: with three samples and an offset of 0.25 the
    correction [count * offset] is 0.75; the code subtracts 0 and returns
    0, where rounding would subtract 1. *)
Lemma GetAngle_does_not_round :
  let a := Sample.channel_with 1000 2 0 3 in
  let w := Sample.gyro_on a 0 Sample.quarter in
  (IEEE.SF2Q (F32.mul (F32.of_Z (ai_accumulatorCount a)) (m_offset (self w)))
   == 3 # 4)%Q /\
  round_half_up (F32.mul (F32.of_Z (ai_accumulatorCount a))
                         (m_offset (self w))) = Some 1 /\
  GetAngle w = Done F32.zero w /\
  angle_as_specified a (self w) <> Some F32.zero /\
  angle_as_specified a (self w) <> None.
Proof.
  split; [reflexivity|]. split; [reflexivity|]. split; [reflexivity|].
  split; vm_compute; discriminate.
Qed.

(** ** Reset *)

Lemma angle_of_zero (lsbWeight : double) (averageBits : Z)
    (sampleRate : double) (sensitivity : float) :
  0 <= averageBits < 31 ->
  IEEE.is_finite lsbWeight = true ->
  IEEE.is_zero (F64.mul sampleRate (F64.of_float sensitivity)) = false ->
  IEEE.is_nan (F64.mul sampleRate (F64.of_float sensitivity)) = false ->
  IEEE.is_zero (angle_of 0 lsbWeight averageBits sampleRate sensitivity)
    = true.
Proof.
  intros Hb Hl Hd1 Hd2. unfold angle_of.
  assert (Hz : IEEE.is_zero
                 (F64.div
                    (F64.mul
                       (F64.mul (F64.mul (F64.of_Z 0) F64.lit_1em9)
                                lsbWeight)
                       (F64.of_Z (2 ^ averageBits)))
                    (F64.mul sampleRate (F64.of_float sensitivity))) = true).
  { apply F64_div_zero_l; [|exact Hd1|exact Hd2].
    apply F64_mul_zero_l.
    - apply F64_mul_zero_l; [reflexivity|exact Hl].
    - apply represents_is_finite with (2 ^ averageBits * 2 ^ scale).
      apply F64_of_Z_represents. apply pow2_lt_53. exact Hb. }
  destruct (F64.div _ _); try discriminate Hz. reflexivity.
Qed.

(** C6.  In a valid state [Reset] changes the accumulator of the channel
    and nothing else: the center, the offset, the sensitivity, the status,
    the trace and the other registers of the channel are as before.  A
    [GetAngle] that follows at once returns a zero, whenever the offset and
    the LSB weight are numbers, the averaging depth is one the shift is
    defined for, and the divisor [sampleRate * sensitivity] is neither a
    zero nor not-a-number. *)
Theorem Reset_clears_accumulator_only (w : World) (a : AnalogInput) :
  usable w a ->
  exists w',
    Reset w = Done tt w' /\
    usable w' (ResetAccumulator a) /\
    GetAccumulatorOutput (ResetAccumulator a) = (0, 0) /\
    m_center (self w') = m_center (self w) /\
    m_offset (self w') = m_offset (self w) /\
    m_voltsPerDegreePerSecond (self w') = m_voltsPerDegreePerSecond (self w) /\
    events w' = events w /\
    ai_accumulatorCenter (ResetAccumulator a) = ai_accumulatorCenter a /\
    ai_accumulatorDeadband (ResetAccumulator a) = ai_accumulatorDeadband a /\
    (IEEE.is_finite (m_offset (self w)) = true ->
     IEEE.is_finite (ai_lsbWeight a) = true ->
     0 <= ai_averageBits a < 31 ->
     IEEE.is_zero
       (F64.mul (ai_sampleRate a)
                (F64.of_float (m_voltsPerDegreePerSecond (self w)))) = false ->
     IEEE.is_nan
       (F64.mul (ai_sampleRate a)
                (F64.of_float (m_voltsPerDegreePerSecond (self w)))) = false ->
     exists r, GetAngle w' = Done r w' /\ IEEE.is_zero r = true).
Proof.
  intros Hu. exists (with_channel (ResetAccumulator a) w).
  open_world w. destruct Hu as [Hu1 Hu2].
  cbn [self m_error m_analog] in Hu1, Hu2. subst an err.
  split; [reflexivity|]. split; [split; reflexivity|].
  repeat (split; [reflexivity|]).
  cbn [self m_offset m_voltsPerDegreePerSecond].
  intros Ho Hl Hb Hd1 Hd2.
  eexists. split.
  - apply (GetAngle_returns _ (ResetAccumulator a) 0).
    + split; reflexivity.
    + exact Hb.
    + cbn [with_channel self set_analog m_offset ResetAccumulator
           set_accumulator ai_accumulatorCount].
      change (F32.of_Z 0) with (S754_zero false).
      destruct off as [s|s| |s m e]; try discriminate Ho;
        destruct s; reflexivity.
    + vm_compute. split; discriminate.
  - apply angle_of_zero; assumption.
Qed.

Lemma Reset_clears_accumulator_only_witness :
  let a := Sample.channel_with 1000 2 258048000000 7 in
  let w := Sample.gyro_on a 100 Sample.quarter in
  (exists r, GetAngle w = Done r w /\ IEEE.is_zero r = false) /\
  exists w',
    Reset w = Done tt w' /\
    GetAccumulatorOutput (ResetAccumulator a) = (0, 0) /\
    m_center (self w') = 100 /\
    m_offset (self w') = Sample.quarter /\
    m_voltsPerDegreePerSecond (self w')
      = kDefaultVoltsPerDegreePerSecond Sample.K /\
    exists r, GetAngle w' = Done r w' /\ IEEE.is_zero r = true.
Proof.
  split.
  - eexists. split; [vm_compute; reflexivity|reflexivity].
  - destruct (Reset_clears_accumulator_only
                (Sample.gyro_on (Sample.channel_with 1000 2 258048000000 7)
                   100 Sample.quarter)
                (Sample.channel_with 1000 2 258048000000 7))
      as (w' & H1 & _ & H3 & H4 & H5 & H6 & _ & _ & _ & H10).
    + split; reflexivity.
    + exists w'. split; [exact H1|]. split; [exact H3|].
      split; [exact H4|]. split; [exact H5|]. split; [exact H6|].
      apply H10.
      * reflexivity.
      * reflexivity.
      * simpl; lia.
      * reflexivity.
      * reflexivity.
Defined.

(** The hypotheses of the second part hold on the sample, and the angle
    after the reset is a zero. *)
Example Reset_then_GetAngle :
  let a := Sample.channel_with 1000 2 258048000000 7 in
  let w := Sample.gyro_on a 100 Sample.quarter in
  GetAngle (final (Reset w)) = Done F32.zero (final (Reset w)).
Proof. reflexivity. Qed.

(** ** The deadband *)

Lemma SetDeadband_returns (w : World) (a : AnalogInput) (volts : float)
    (d : Z) :
  usable w a -> 0 <= ai_oversampleBits a < 31 ->
  IEEE.to_integer INT32_MIN INT32_MAX
    (deadband_of volts (ai_lsbWeight a) (ai_oversampleBits a)) = Some d ->
  SetDeadband volts w = Done tt (with_channel (SetAccumulatorDeadband d a) w).
Proof.
  intros Hu Hb Hd. rewrite (usable_inv w a Hu).
  unfold SetDeadband. run.
  unfold GetOversampleBits. rewrite shl1_defined by assumption.
  unfold deadband_of, GetLSBWeight in *. rewrite Hd. reflexivity.
Qed.

(** C7, as the code has it.  In a valid state the threshold that
    [SetDeadband] passes to the channel is
    [volts * 1e9 / lsbWeight * 2 ^ oversampleBits], computed in [double],
    converted to [int32_t]: its fractional part is discarded, and it is
    passed when the truncated value fits the type. *)
Theorem SetDeadband_truncates (w : World) (a : AnalogInput) (volts : float)
    (d : Z) :
  usable w a -> 0 <= ai_oversampleBits a < 31 ->
  IEEE.to_integer INT32_MIN INT32_MAX
    (deadband_of volts (ai_lsbWeight a) (ai_oversampleBits a)) = Some d ->
  d = IEEE.Qtruncate
        (IEEE.SF2Q (deadband_of volts (ai_lsbWeight a)
                      (ai_oversampleBits a))) /\
  SetDeadband volts w = Done tt (with_channel (SetAccumulatorDeadband d a) w) /\
  ai_accumulatorDeadband (SetAccumulatorDeadband d a) = d.
Proof.
  intros Hu Hb Hd. split; [|split].
  - apply truncate_Qtruncate. apply (to_integer_Some _ _ _ _ Hd).
  - apply SetDeadband_returns; assumption.
  - reflexivity.
Qed.

(** [SetDeadband(0.5)] with an LSB weight of 1000 and 2 oversample bits
    installs 2,000,000. *)
Lemma SetDeadband_truncates_witness :
  let a := Sample.channel_with 1000 2 0 0 in
  let w := Sample.gyro_on a 0 F32.zero in
  (IEEE.SF2Q Sample.half == 1 # 2)%Q /\
  2000000 = IEEE.Qtruncate
              (IEEE.SF2Q (deadband_of Sample.half (ai_lsbWeight a)
                            (ai_oversampleBits a))) /\
  SetDeadband Sample.half w
    = Done tt (with_channel (SetAccumulatorDeadband 2000000 a) w) /\
  ai_accumulatorDeadband (SetAccumulatorDeadband 2000000 a) = 2000000.
Proof.
  split; [reflexivity|].
  apply (SetDeadband_truncates
           (Sample.gyro_on (Sample.channel_with 1000 2 0 0) 0 F32.zero)
           (Sample.channel_with 1000 2 0 0) Sample.half 2000000).
  - split; reflexivity.
  - simpl; lia.
  - reflexivity.
Defined.

(** C7 as stated fails: with an LSB weight of 3 and no oversampling,
    [SetDeadband(0.5)] installs 166666666, which is not the value of the
    formula, 166666666.67. *)
Lemma SetDeadband_discards_fraction :
  let a := Sample.channel_with 3 0 0 0 in
  let w := Sample.gyro_on a 0 F32.zero in
  SetDeadband Sample.half w
    = Done tt (with_channel (SetAccumulatorDeadband 166666666 a) w) /\
  (inject_Z 166666666
   < IEEE.SF2Q (deadband_of Sample.half (ai_lsbWeight a)
                  (ai_oversampleBits a)))%Q.
Proof. split; reflexivity. Qed.

(** * Further properties of the code *)

(** ** Construction that fails *)

(** X1.  Construction on a null channel, by the constructor that takes a
    shared pointer, the one that takes a plain pointer and the preset one:
    the constructor returns, the error [NullParameter] is recorded, nothing
    is waited for and nothing is reported, and the members without an
    initialiser keep what they held; the preset constructor does not store
    the center and the offset it was given. *)
Theorem null_channel_construction (K : Constants)
    (elapse : double -> AnalogInput -> AnalogInput) (raw : AnalogGyro)
    (center : Z) (offset : float) :
  let w := mkWorld (mkAnalogGyro None (m_voltsPerDegreePerSecond raw)
                      (m_offset raw) (m_center raw) (Some NullParameter)
                      (m_pidSource raw)) [] in
  AnalogGyro_shared K elapse raw None = Done tt w /\
  AnalogGyro_pointer K elapse raw None = Done tt w /\
  AnalogGyro_shared_preset K elapse raw None center offset = Done tt w /\
  GetCenter w = Done (m_center raw) w /\
  GetOffset w = Done (m_offset raw) w.
Proof.
  intros w. unfold AnalogGyro_pointer, AnalogGyro_shared,
    AnalogGyro_shared_preset. repeat split.
Qed.

(** X2.  The constructors that calibrate, on a channel that cannot
    accumulate: [InitGyro] records [ParameterOutOfRange] and clears the
    reference, [Calibrate] then does nothing, and the constructor returns
    without a fault.  Nothing was waited for or reported, and the
    sensitivity, the center and the offset were never assigned. *)
Theorem plain_channel_construction (K : Constants)
    (new_AnalogInput : Z -> AnalogInput)
    (elapse : double -> AnalogInput -> AnalogInput) (raw : AnalogGyro)
    (channel : Z) (a : AnalogInput) :
  IsAccumulatorChannel a = false ->
  IsAccumulatorChannel (new_AnalogInput channel) = false ->
  let w := mkWorld (mkAnalogGyro None (m_voltsPerDegreePerSecond raw)
                      (m_offset raw) (m_center raw)
                      (Some ParameterOutOfRange) (m_pidSource raw)) [] in
  AnalogGyro_shared K elapse raw (Some a) = Done tt w /\
  AnalogGyro_pointer K elapse raw (Some a) = Done tt w /\
  AnalogGyro_channel K new_AnalogInput elapse raw channel = Done tt w.
Proof.
  intros Ha Hn w.
  unfold AnalogGyro_channel, AnalogGyro_pointer, AnalogGyro_shared.
  unfold bind.
  rewrite (InitGyro_rejects K elapse (allocate raw (Some a)) a
             ltac:(split; reflexivity) Ha).
  rewrite (InitGyro_rejects K elapse
             (allocate raw (Some (new_AnalogInput channel)))
             (new_AnalogInput channel) ltac:(split; reflexivity) Hn).
  repeat split.
Qed.

Lemma plain_channel_construction_witness :
  IsAccumulatorChannel Sample.plain_channel = false /\
  let w := mkWorld (mkAnalogGyro None (F32.of_Z 3) (F32.of_Z 9) 77
                      (Some ParameterOutOfRange) kRate) [] in
  AnalogGyro_shared Sample.K Sample.silent Sample.raw
    (Some Sample.plain_channel) = Done tt w /\
  AnalogGyro_pointer Sample.K Sample.silent Sample.raw
    (Some Sample.plain_channel) = Done tt w /\
  AnalogGyro_channel Sample.K (fun _ => Sample.plain_channel) Sample.silent
    Sample.raw 5 = Done tt w.
Proof.
  split; [reflexivity|].
  apply (plain_channel_construction Sample.K (fun _ => Sample.plain_channel)
           Sample.silent Sample.raw 5 Sample.plain_channel); reflexivity.
Defined.

(** ** Initialisation *)

(** The deadband of zero volts, before it becomes a count. *)
Lemma deadband_of_zero (volts : float) (lsbWeight : double) (n : Z) :
  0 <= n < 31 -> IEEE.is_zero volts = true ->
  if IEEE.is_zero lsbWeight || IEEE.is_nan lsbWeight
  then deadband_of volts lsbWeight n = S754_nan
  else IEEE.is_zero (deadband_of volts lsbWeight n) = true.
Proof.
  intros Hn Hv. unfold deadband_of.
  pose proof (F64_of_pow2_finite n Hn) as Hp.
  destruct volts as [sv|sv| |sv mv ev]; try discriminate Hv.
  destruct lsbWeight as [sl|sl| |sl ml el]; simpl orb; cbv iota;
    destruct (F64.of_Z (2 ^ n)) as [sp|sp| |sp mp ep];
    try discriminate Hp; destruct sv; reflexivity.
Qed.

Lemma SetDeadband_zero_returns (w : World) (a : AnalogInput)
    (volts : float) :
  usable w a -> 0 <= ai_oversampleBits a < 31 ->
  IEEE.is_zero volts = true ->
  SetDeadband volts w =
    if IEEE.is_zero (ai_lsbWeight a) || IEEE.is_nan (ai_lsbWeight a)
    then Crash (UndefinedConversion S754_nan) w
    else Done tt (with_channel (SetAccumulatorDeadband 0 a) w).
Proof.
  intros Hu Hb Hv.
  pose proof (deadband_of_zero volts (ai_lsbWeight a) (ai_oversampleBits a)
                Hb Hv) as Hd.
  destruct (IEEE.is_zero (ai_lsbWeight a) || IEEE.is_nan (ai_lsbWeight a)).
  - rewrite (usable_inv w a Hu). unfold SetDeadband. run.
    unfold GetOversampleBits. rewrite shl1_defined by assumption.
    unfold deadband_of, GetLSBWeight in *. rewrite Hd. reflexivity.
  - apply SetDeadband_returns; [assumption|assumption|].
    destruct (deadband_of volts (ai_lsbWeight a) (ai_oversampleBits a));
      try discriminate Hd; reflexivity.
Qed.

(** X3.  A deadband of zero volts, which is what [InitGyro] asks for:
    the count passed to the channel is 0 whenever the LSB weight is a number
    other than zero (an infinite one included).  With an LSB weight of zero
    or not-a-number the quotient is [0/0]: nothing is passed to the channel
    and the run stops at the conversion of not-a-number to [int32_t]. *)
Theorem SetDeadband_zero (w : World) (a : AnalogInput) (volts : float) :
  usable w a -> 0 <= ai_oversampleBits a < 31 ->
  IEEE.is_zero volts = true ->
  SetDeadband volts w =
    if IEEE.is_zero (ai_lsbWeight a) || IEEE.is_nan (ai_lsbWeight a)
    then Crash (UndefinedConversion S754_nan) w
    else Done tt (with_channel (SetAccumulatorDeadband 0 a) w).
Proof.
  intros Hu Hb Hv. apply SetDeadband_zero_returns; assumption.
Qed.

Lemma SetDeadband_zero_witness :
  let a := Sample.channel_with 1000 2 5 7 in
  let b := Sample.channel_with 0 2 5 7 in
  SetDeadband F32.zero (Sample.gyro_on a 0 F32.zero)
    = Done tt (with_channel (SetAccumulatorDeadband 0 a)
                 (Sample.gyro_on a 0 F32.zero)) /\
  SetDeadband F32.zero (Sample.gyro_on b 0 F32.zero)
    = Crash (UndefinedConversion S754_nan) (Sample.gyro_on b 0 F32.zero).
Proof.
  split.
  - apply (SetDeadband_zero
             (Sample.gyro_on (Sample.channel_with 1000 2 5 7) 0 F32.zero)
             (Sample.channel_with 1000 2 5 7) F32.zero).
    + split; reflexivity.
    + simpl; lia.
    + reflexivity.
  - apply (SetDeadband_zero
             (Sample.gyro_on (Sample.channel_with 0 2 5 7) 0 F32.zero)
             (Sample.channel_with 0 2 5 7) F32.zero).
    + split; reflexivity.
    + simpl; lia.
    + reflexivity.
Defined.

(** What [InitGyro] does on a channel that can accumulate. *)
Lemma InitGyro_returns (K : Constants)
    (elapse : double -> AnalogInput -> AnalogInput) (w : World)
    (a : AnalogInput) :
  usable w a ->
  IsAccumulatorChannel a = true ->
  0 <= (kAverageBits K + kOversampleBits K) mod 2 ^ 32 < 31 ->
  0 <= ai_oversampleBits (settled K elapse a) < 31 ->
  IEEE.is_zero (ai_lsbWeight (settled K elapse a)) = false ->
  IEEE.is_nan (ai_lsbWeight (settled K elapse a)) = false ->
  InitGyro K elapse w =
    Done tt
      (mkWorld
         (mkAnalogGyro (Some (initialised K elapse a))
            (kDefaultVoltsPerDegreePerSecond K) (m_offset (self w))
            (m_center (self w)) None kDisplacement)
         (events w ++ InitGyro_trace (ai_channel (settled K elapse a)))).
Proof.
  intros Hu Ha Hs Hb Hl1 Hl2. rewrite (usable_inv w a Hu).
  unfold InitGyro. run. rewrite Ha. cbv beta iota delta [negb].
  rewrite shl1_defined by assumption.
  fold (configured K a). fold (settled K elapse a).
  match goal with
  | |- context [SetDeadband F32.zero ?w0] =>
      rewrite (SetDeadband_zero_returns w0 (settled K elapse a) F32.zero
                 ltac:(split; reflexivity) Hb eq_refl)
  end.
  rewrite Hl1, Hl2. cbv beta iota delta [orb]. run.
  unfold initialised, InitGyro_trace, GetChannel, SetAccumulatorDeadband.
  cbn [ai_channel]. rewrite <- !app_assoc. reflexivity.
Qed.

(** X4.  [InitGyro] on a usable object whose channel can accumulate, when
    the shift and the deadband conversion are defined: it returns; the
    sensitivity is the default, the PID source is the displacement, the
    center and the offset are not touched and no error is recorded; the
    channel has been given the averaging and oversampling depths and the
    sample rate [kSamplesPerSecond * 2 ^ (kAverageBits + kOversampleBits)]
    before the settling wait of 0.1 s, and a deadband of zero after it; the
    usage report and the registration follow the wait, in that order. *)
Theorem InitGyro_configures (K : Constants)
    (elapse : double -> AnalogInput -> AnalogInput) (w : World)
    (a : AnalogInput) :
  usable w a ->
  IsAccumulatorChannel a = true ->
  0 <= (kAverageBits K + kOversampleBits K) mod 2 ^ 32 < 31 ->
  0 <= ai_oversampleBits (settled K elapse a) < 31 ->
  IEEE.is_zero (ai_lsbWeight (settled K elapse a)) = false ->
  IEEE.is_nan (ai_lsbWeight (settled K elapse a)) = false ->
  exists w',
    InitGyro K elapse w = Done tt w' /\
    usable w' (initialised K elapse a) /\
    ai_averageBits (configured K a) = kAverageBits K /\
    ai_oversampleBits (configured K a) = kOversampleBits K /\
    ai_sampleRate (configured K a) =
      F64.of_float
        (F32.mul (kSamplesPerSecond K)
           (F32.of_Z (2 ^ ((kAverageBits K + kOversampleBits K) mod 2 ^ 32)))) /\
    initialised K elapse a = SetAccumulatorDeadband 0 (settled K elapse a) /\
    m_voltsPerDegreePerSecond (self w') = kDefaultVoltsPerDegreePerSecond K /\
    m_pidSource (self w') = kDisplacement /\
    m_center (self w') = m_center (self w) /\
    m_offset (self w') = m_offset (self w) /\
    events w' =
      events w ++
      [EvWait F64.lit_0_1;
       EvHALReport (ai_channel (settled K elapse a));
       EvLiveWindowAddSensor (ai_channel (settled K elapse a))].
Proof.
  intros Hu Ha Hs Hb Hl1 Hl2. eexists. split.
  - apply (InitGyro_returns K elapse w a); assumption.
  - repeat split.
Qed.

Lemma InitGyro_configures_witness :
  let w := allocate Sample.raw (Some Sample.channel) in
  exists w',
    InitGyro Sample.K (Sample.gather 21 2) w = Done tt w' /\
    m_analog (self w') =
      Some (mkAnalogInput 0 true 0 10 (F64.of_Z 51200) (F64.of_Z 1000)
              (F64.of_Z 0) 21 2 0 0) /\
    m_voltsPerDegreePerSecond (self w')
      = kDefaultVoltsPerDegreePerSecond Sample.K /\
    m_pidSource (self w') = kDisplacement /\
    m_center (self w') = 77 /\
    m_offset (self w') = F32.of_Z 9 /\
    events w' =
      [EvWait F64.lit_0_1; EvHALReport 0; EvLiveWindowAddSensor 0].
Proof.
  destruct (InitGyro_configures Sample.K (Sample.gather 21 2)
              (allocate Sample.raw (Some Sample.channel)) Sample.channel)
    as (w' & H1 & H2 & _ & _ & _ & _ & H6 & H7 & H8 & H9 & H10).
  - split; reflexivity.
  - reflexivity.
  - vm_compute. split; [discriminate|reflexivity].
  - vm_compute. split; [discriminate|reflexivity].
  - reflexivity.
  - reflexivity.
  - exists w'. split; [exact H1|].
    split; [rewrite (proj2 H2); vm_compute; reflexivity|].
    split; [exact H6|]. split; [exact H7|]. split; [exact H8|].
    split; [exact H9|exact H10].
Defined.

(** ** Calibration, continued *)

Lemma Calibrate_defined (K : Constants)
    (elapse : double -> AnalogInput -> AnalogInput) (w : World)
    (a : AnalogInput) (c : Z) :
  usable w a ->
  IEEE.to_integer 0 UINT32_MAX
    (F64.add (F64.of_float (mean_of (calibration_reading K elapse a)))
             F64.lit_0_5) = Some c ->
  Calibrate K elapse w =
    Done tt
      (mkWorld
         (mkAnalogGyro
            (Some (ResetAccumulator
                     (SetAccumulatorCenter c
                        (calibration_reading K elapse a))))
            (m_voltsPerDegreePerSecond (self w))
            (F32.sub (mean_of (calibration_reading K elapse a))
                     (F32.of_Z c))
            c None (m_pidSource (self w)))
         (events w ++ [EvWait (F64.of_float (kCalibrationSampleTime K))])).
Proof.
  intros Hu Hc. rewrite (usable_inv w a Hu).
  unfold Calibrate, GetAccumulatorOutput. run.
  fold (calibration_reading K elapse a).
  fold (mean_of (calibration_reading K elapse a)).
  rewrite Hc. reflexivity.
Qed.

(** X5.  The constructor that calibrates, on a channel that can accumulate,
    when the shift and the two conversions are defined: it returns a usable
    object whose center and offset come from the mean of the sampling
    window, with the default sensitivity; the accumulator of the channel
    has been given that center and is clear.  The construction waits
    twice, 0.1 s to settle and then the calibration time, and the usage
    report and the registration happen between the two waits. *)
Theorem calibrating_construction (K : Constants)
    (elapse : double -> AnalogInput -> AnalogInput) (raw : AnalogGyro)
    (a : AnalogInput) (c : Z) :
  IsAccumulatorChannel a = true ->
  0 <= (kAverageBits K + kOversampleBits K) mod 2 ^ 32 < 31 ->
  0 <= ai_oversampleBits (settled K elapse a) < 31 ->
  IEEE.is_zero (ai_lsbWeight (settled K elapse a)) = false ->
  IEEE.is_nan (ai_lsbWeight (settled K elapse a)) = false ->
  IEEE.to_integer 0 UINT32_MAX
    (F64.add
       (F64.of_float
          (mean_of (calibration_reading K elapse (initialised K elapse a))))
       F64.lit_0_5) = Some c ->
  exists w b,
    AnalogGyro_shared K elapse raw (Some a) = Done tt w /\
    usable w b /\
    ai_accumulatorCenter b = c /\
    GetAccumulatorOutput b = (0, 0) /\
    m_center (self w) = c /\
    m_offset (self w) =
      F32.sub
        (mean_of (calibration_reading K elapse (initialised K elapse a)))
        (F32.of_Z c) /\
    m_voltsPerDegreePerSecond (self w) = kDefaultVoltsPerDegreePerSecond K /\
    events w =
      [EvWait F64.lit_0_1;
       EvHALReport (ai_channel (settled K elapse a));
       EvLiveWindowAddSensor (ai_channel (settled K elapse a));
       EvWait (F64.of_float (kCalibrationSampleTime K))].
Proof.
  intros Ha Hs Hb Hl1 Hl2 Hc. unfold AnalogGyro_shared, bind.
  rewrite (InitGyro_returns K elapse (allocate raw (Some a)) a
             ltac:(split; reflexivity) Ha Hs Hb Hl1 Hl2).
  match goal with
  | |- context [Calibrate K elapse ?w0] =>
      rewrite (Calibrate_defined K elapse w0 (initialised K elapse a) c
                 ltac:(split; reflexivity) Hc)
  end.
  eexists. eexists. split; [reflexivity|].
  split; [split; reflexivity|]. repeat split.
Qed.

Lemma calibrating_construction_witness :
  exists w b,
    AnalogGyro_shared Sample.K (Sample.gather 21 2) Sample.raw
      (Some Sample.channel) = Done tt w /\
    usable w b /\
    ai_accumulatorCenter b = 11 /\
    GetAccumulatorOutput b = (0, 0) /\
    m_center (self w) = 11 /\
    m_offset (self w) =
      F32.sub
        (mean_of (calibration_reading Sample.K (Sample.gather 21 2)
                    (initialised Sample.K (Sample.gather 21 2)
                       Sample.channel)))
        (F32.of_Z 11) /\
    m_voltsPerDegreePerSecond (self w)
      = kDefaultVoltsPerDegreePerSecond Sample.K /\
    events w =
      [EvWait F64.lit_0_1;
       EvHALReport
         (ai_channel (settled Sample.K (Sample.gather 21 2) Sample.channel));
       EvLiveWindowAddSensor
         (ai_channel (settled Sample.K (Sample.gather 21 2) Sample.channel));
       EvWait (F64.of_float (kCalibrationSampleTime Sample.K))].
Proof.
  apply (calibrating_construction Sample.K (Sample.gather 21 2) Sample.raw
           Sample.channel 11).
  - reflexivity.
  - vm_compute. split; [discriminate|reflexivity].
  - vm_compute. split; [discriminate|reflexivity].
  - reflexivity.
  - reflexivity.
  - vm_compute. reflexivity.
Defined.

(** X6.  The heading right after a calibration is zero: a [GetAngle] that
    follows a [Calibrate] that returned, with the channel as the
    calibration left it, returns a zero, whenever the LSB weight is a
    number, the averaging depth is one the shift is defined for and the
    divisor [sampleRate * sensitivity] is neither a zero nor
    not-a-number. *)
Theorem Calibrate_then_GetAngle (K : Constants)
    (elapse : double -> AnalogInput -> AnalogInput) (w w' : World)
    (a : AnalogInput) :
  usable w a ->
  Calibrate K elapse w = Done tt w' ->
  IEEE.is_finite (ai_lsbWeight (calibration_reading K elapse a)) = true ->
  0 <= ai_averageBits (calibration_reading K elapse a) < 31 ->
  IEEE.is_zero
    (F64.mul (ai_sampleRate (calibration_reading K elapse a))
             (F64.of_float (m_voltsPerDegreePerSecond (self w)))) = false ->
  IEEE.is_nan
    (F64.mul (ai_sampleRate (calibration_reading K elapse a))
             (F64.of_float (m_voltsPerDegreePerSecond (self w)))) = false ->
  exists r, GetAngle w' = Done r w' /\ IEEE.is_zero r = true.
Proof.
  intros Hu Hc Hl Hb Hd1 Hd2.
  destruct (Calibrate_returns K elapse w w' a Hu Hc) as (c & Hconv & ->).
  destruct (calibration_exact _ c
              (mean_valid (calibration_reading K elapse a)) Hconv)
    as (v & _ & _ & Ho).
  apply represents_is_finite in Ho.
  eexists. split.
  - apply (GetAngle_returns _
             (ResetAccumulator
                (SetAccumulatorCenter c (calibration_reading K elapse a)))
             0).
    + split; reflexivity.
    + exact Hb.
    + cbn [self m_offset ResetAccumulator set_accumulator
           ai_accumulatorCount].
      change (F32.of_Z 0) with (S754_zero false).
      destruct (F32.sub (mean_of (calibration_reading K elapse a))
                        (F32.of_Z c)) as [s|s| |s m e];
        try discriminate Ho; destruct s; reflexivity.
    + vm_compute. split; discriminate.
  - apply angle_of_zero; assumption.
Qed.

Lemma Calibrate_then_GetAngle_witness :
  let w := Sample.gyro_on (Sample.channel_with 1000 2 258048000000 7) 100
             Sample.quarter in
  let w' := final (Calibrate Sample.K (Sample.gather 21 2) w) in
  (exists r, GetAngle w = Done r w /\ IEEE.is_zero r = false) /\
  exists r, GetAngle w' = Done r w' /\ IEEE.is_zero r = true.
Proof.
  split.
  - eexists. split; [vm_compute; reflexivity|reflexivity].
  - apply (Calibrate_then_GetAngle Sample.K (Sample.gather 21 2)
             (Sample.gyro_on (Sample.channel_with 1000 2 258048000000 7) 100
                Sample.quarter)
             (final (Calibrate Sample.K (Sample.gather 21 2)
                       (Sample.gyro_on
                          (Sample.channel_with 1000 2 258048000000 7) 100
                          Sample.quarter)))
             (Sample.channel_with 1000 2 258048000000 7)).
    + split; reflexivity.
    + vm_compute. reflexivity.
    + reflexivity.
    + simpl; lia.
    + reflexivity.
    + reflexivity.
Defined.

(** Truncation toward zero stays within one unit below its argument, and
    does not exceed an argument that is not negative. *)
Lemma Qtruncate_upper (q : Q) : (q < inject_Z (IEEE.Qtruncate q) + 1)%Q.
Proof.
  destruct q as [n d]. unfold IEEE.Qtruncate, Qlt, Qplus, inject_Z.
  cbn [Qnum Qden]. 
  pose proof (Z.quot_rem' n (Zpos d)) as E.
  assert (Hr : Z.rem n (Zpos d) < Zpos d).
  { destruct (Z_lt_le_dec n 0) as [Hn|Hn].
    - pose proof (Z.rem_nonpos n (Zpos d) ltac:(lia) ltac:(lia)). lia.
    - apply Z.rem_bound_pos; lia. }
  nia.
Qed.

Lemma Qtruncate_lower (q : Q) :
  (0 <= q)%Q -> (inject_Z (IEEE.Qtruncate q) <= q)%Q.
Proof.
  destruct q as [n d]. unfold IEEE.Qtruncate, Qle, inject_Z.
  cbn [Qnum Qden]. intros Hn.
  pose proof (Z.quot_rem' n (Zpos d)) as E.
  pose proof (Z.rem_bound_pos n (Zpos d) ltac:(lia) ltac:(lia)).
  nia.
Qed.

(** X7.  The offset is the remainder that rounding the mean to the center
    leaves: after a [Calibrate] that returned, the center is within the
    range of [uint32_t], the center and the offset add up to the mean, and
    the offset is below one half; when the mean is not below minus one half
    (every mean that is not negative), the offset is not below minus one
    half either. *)
Theorem Calibrate_offset_range (K : Constants)
    (elapse : double -> AnalogInput -> AnalogInput) (w w' : World)
    (a : AnalogInput) :
  usable w a ->
  Calibrate K elapse w = Done tt w' ->
  (- (1 # 2) <= IEEE.SF2Q (mean_of (calibration_reading K elapse a)))%Q ->
  0 <= m_center (self w') <= UINT32_MAX /\
  (inject_Z (m_center (self w')) + IEEE.SF2Q (m_offset (self w')) ==
   IEEE.SF2Q (mean_of (calibration_reading K elapse a)))%Q /\
  (- (1 # 2) <= IEEE.SF2Q (m_offset (self w')) < 1 # 2)%Q.
Proof.
  intros Hu Hc Hm.
  destruct (Calibrate_returns K elapse w w' a Hu Hc) as (c & Hconv & ->).
  cbn [self m_center m_offset].
  destruct (to_integer_Some _ _ _ _ Hconv) as [_ Hr].
  destruct (calibration_exact_Q _ c
              (mean_valid (calibration_reading K elapse a)) Hconv)
    as (_ & Ec & Eo).
  set (q := IEEE.SF2Q (mean_of (calibration_reading K elapse a))) in *.
  pose proof (Qtruncate_upper (q + (1 # 2))) as Hup.
  assert (Hlo : (inject_Z c <= q + (1 # 2))%Q).
  { rewrite Ec. apply Qtruncate_lower. lra. }
  rewrite <- Ec in Hup.
  split; [exact Hr|]. split; [lra|]. split; lra.
Qed.

Lemma Calibrate_offset_range_witness :
  let w := Sample.gyro_on Sample.channel 0 F32.zero in
  let w' := final (Calibrate Sample.K (Sample.gather 21 2) w) in
  0 <= m_center (self w') <= UINT32_MAX /\
  (inject_Z (m_center (self w')) + IEEE.SF2Q (m_offset (self w')) ==
   IEEE.SF2Q (mean_of (calibration_reading Sample.K (Sample.gather 21 2)
                         Sample.channel)))%Q /\
  (- (1 # 2) <= IEEE.SF2Q (m_offset (self w')) < 1 # 2)%Q.
Proof.
  apply (Calibrate_offset_range Sample.K (Sample.gather 21 2)
           (Sample.gyro_on Sample.channel 0 F32.zero)
           (final (Calibrate Sample.K (Sample.gather 21 2)
                     (Sample.gyro_on Sample.channel 0 F32.zero)))
           Sample.channel).
  - split; reflexivity.
  - reflexivity.
  - vm_compute. discriminate.
Defined.

(** ** Presets *)

(** X8.  The center and the offset read from a calibrated object are a
    preset for another one: if the constructor that calibrates has
    returned on a channel that can accumulate and [GetCenter] and [GetOffset] give [c] and [o], every
    preset construction with [(c, o)] that returns yields an object with
    the same center, offset, sensitivity and PID source and no error, and
    both channels have the center [c] in their accumulator and a clear
    accumulator. *)
Theorem preset_from_calibration (K : Constants)
    (elapse elapse' : double -> AnalogInput -> AnalogInput)
    (raw raw' : AnalogGyro) (a a' : AnalogInput) (w1 w2 : World) (c : Z)
    (o : float) :
  IsAccumulatorChannel a = true ->
  AnalogGyro_shared K elapse raw (Some a) = Done tt w1 ->
  GetCenter w1 = Done c w1 ->
  GetOffset w1 = Done o w1 ->
  AnalogGyro_shared_preset K elapse' raw' (Some a') c o = Done tt w2 ->
  m_center (self w2) = m_center (self w1) /\
  m_offset (self w2) = m_offset (self w1) /\
  m_voltsPerDegreePerSecond (self w2) = m_voltsPerDegreePerSecond (self w1) /\
  m_pidSource (self w2) = m_pidSource (self w1) /\
  m_error (self w1) = None /\ m_error (self w2) = None /\
  exists b1 b2,
    m_analog (self w1) = Some b1 /\ m_analog (self w2) = Some b2 /\
    ai_accumulatorCenter b1 = c /\ ai_accumulatorCenter b2 = c /\
    GetAccumulatorOutput b1 = (0, 0) /\ GetAccumulatorOutput b2 = (0, 0).
Proof.
  intros Ha H1 Hc Ho H2.
  unfold GetCenter in Hc. unfold GetOffset in Ho. run_in Hc. run_in Ho.
  injection Hc as Hc. injection Ho as Ho.
  unfold AnalogGyro_shared, InitGyro, Calibrate, SetDeadband, shl1,
    GetAccumulatorOutput in H1.
  run_in H1. rewrite Ha in H1. cbv beta iota delta [negb] in H1.
  unfold AnalogGyro_shared_preset, InitGyro, SetDeadband, shl1 in H2.
  run_in H2.
  split_run H1; injection H1 as <-;
    cbn [self m_center m_offset] in Hc, Ho; subst c o;
    split_run H2; injection H2 as <-;
    cbn [self m_center m_offset m_voltsPerDegreePerSecond m_pidSource
         m_error m_analog];
    repeat (split; [reflexivity|]);
    eexists; eexists; repeat split.
Qed.

Lemma preset_from_calibration_witness :
  let w1 := final (AnalogGyro_shared Sample.K (Sample.gather 21 2) Sample.raw
                     (Some Sample.channel)) in
  let w2 := final (AnalogGyro_shared_preset Sample.K Sample.silent
                     Sample.raw (Some Sample.channel) 11
                     (m_offset (self w1))) in
  m_center (self w1) = 11 /\
  m_center (self w2) = m_center (self w1) /\
  m_offset (self w2) = m_offset (self w1) /\
  m_voltsPerDegreePerSecond (self w2) = m_voltsPerDegreePerSecond (self w1) /\
  m_pidSource (self w2) = m_pidSource (self w1) /\
  m_error (self w1) = None /\ m_error (self w2) = None /\
  exists b1 b2,
    m_analog (self w1) = Some b1 /\ m_analog (self w2) = Some b2 /\
    ai_accumulatorCenter b1 = 11 /\ ai_accumulatorCenter b2 = 11 /\
    GetAccumulatorOutput b1 = (0, 0) /\ GetAccumulatorOutput b2 = (0, 0).
Proof.
  split; [vm_compute; reflexivity|].
  apply (preset_from_calibration Sample.K (Sample.gather 21 2) Sample.silent
           Sample.raw Sample.raw Sample.channel Sample.channel
           (final (AnalogGyro_shared Sample.K (Sample.gather 21 2)
                     Sample.raw (Some Sample.channel)))
           (final (AnalogGyro_shared_preset Sample.K Sample.silent
                     Sample.raw (Some Sample.channel) 11
                     (m_offset
                        (self (final (AnalogGyro_shared Sample.K
                                        (Sample.gather 21 2) Sample.raw
                                        (Some Sample.channel)))))))
           11
           (m_offset
              (self (final (AnalogGyro_shared Sample.K (Sample.gather 21 2)
                              Sample.raw (Some Sample.channel)))))).
  - reflexivity.
  - vm_compute; reflexivity.
  - vm_compute; reflexivity.
  - vm_compute; reflexivity.
  - vm_compute; reflexivity.
Defined.

(** ** What the methods leave alone *)

(** X9.  The four readings are [const]: whatever the state, and whether the
    call returns or stops at an undefined operation, [GetAngle], [GetRate],
    [GetOffset] and [GetCenter] leave the object, the channel and the trace
    as they were. *)
Theorem readings_change_nothing (w : World) :
  final (GetAngle w) = w /\
  final (GetRate w) = w /\
  final (GetOffset w) = w /\
  final (GetCenter w) = w.
Proof.
  open_world w.
  unfold GetAngle, GetRate, GetOffset, GetCenter, GetAccumulatorOutput,
    shl1, int64_sub.
  run. repeat split; branches; reflexivity.
Qed.

(** X10.  Only [InitGyro] and the constructors record an error.  Whatever
    the state, and whether the call returns or stops at an undefined
    operation, [Calibrate], [Reset], [SetDeadband] and [SetSensitivity]
    leave the error status as it was, and they add nothing to the trace
    but the wait of [Calibrate]. *)
Theorem no_error_recorded (K : Constants)
    (elapse : double -> AnalogInput -> AnalogInput) (w : World)
    (v : float) :
  m_error (self (final (Calibrate K elapse w))) = m_error (self w) /\
  m_error (self (final (Reset w))) = m_error (self w) /\
  m_error (self (final (SetDeadband v w))) = m_error (self w) /\
  m_error (self (final (SetSensitivity v w))) = m_error (self w) /\
  events (final (Reset w)) = events w /\
  events (final (SetDeadband v w)) = events w /\
  events (final (SetSensitivity v w)) = events w.
Proof.
  open_world w.
  unfold Calibrate, Reset, SetDeadband, SetSensitivity,
    GetAccumulatorOutput, shl1.
  run. repeat split; branches; reflexivity.
Qed.

(** ** Arguments that are not checked *)

(** X11.  [SetSensitivity] accepts a sensitivity of zero.  The readings
    that follow divide by it: [GetRate] returns, without a fault and without
    an error, a value that is infinite or not-a-number, and so does every
    [GetAngle] that returns. *)
Theorem zero_sensitivity_readings (w : World) (a : AnalogInput) (v : float) :
  usable w a -> 0 <= ai_oversampleBits a < 31 ->
  IEEE.is_zero v = true ->
  exists w',
    SetSensitivity v w = Done tt w' /\
    usable w' a /\
    (exists r, GetRate w' = Done r w' /\ IEEE.is_finite r = false) /\
    (forall r, GetAngle w' = Done r w' -> IEEE.is_finite r = false).
Proof.
  intros Hu Hb Hv.
  exists (mkWorld (set_voltsPerDegreePerSecond v (self w)) (events w)).
  assert (Hu' : usable
                  (mkWorld (set_voltsPerDegreePerSecond v (self w))
                     (events w)) a).
  { destruct Hu as [H1 H2]. split; assumption. }
  split; [reflexivity|]. split; [exact Hu'|]. split.
  - eexists. split; [apply (GetRate_returns _ a Hu' Hb)|].
    unfold rate_of. cbn [self set_voltsPerDegreePerSecond
                         m_voltsPerDegreePerSecond].
    destruct v as [sv|sv| |sv mv ev]; try discriminate Hv.
    destruct (F32.of_Z (2 ^ ai_oversampleBits a)) as [sp|sp| |sp mp ep];
      cbn [F32.mul SFmul xorb F64.of_float IEEE.of_float];
      match goal with
      | |- IEEE.is_finite (F64.div ?x _) = false =>
          destruct x as [s|s| |s m' e']
      end; reflexivity.
  - intros r Hr. rewrite (usable_inv w a Hu) in Hr.
    unfold GetAngle, GetAccumulatorOutput, shl1, int64_sub in Hr.
    run_in Hr.
    split_run Hr; injection Hr as <-;
      (destruct v as [sv|sv| |sv mv ev]; try discriminate Hv);
      unfold GetSampleRate;
      destruct (ai_sampleRate a) as [ss|ss| |ss ms es];
      cbn [F64.mul SFmul xorb F64.of_float IEEE.of_float];
      match goal with
      | |- IEEE.is_finite (F32.of_double (F64.div ?x _)) = false =>
          destruct x as [s|s| |s m' e']
      end; reflexivity.
Qed.

Lemma zero_sensitivity_readings_witness :
  let a := Sample.channel_with 1000 2 258048000000 7 in
  let w := Sample.gyro_on a 100 Sample.quarter in
  exists w',
    SetSensitivity F32.zero w = Done tt w' /\
    usable w' a /\
    (exists r, GetRate w' = Done r w' /\ IEEE.is_finite r = false) /\
    (forall r, GetAngle w' = Done r w' -> IEEE.is_finite r = false).
Proof.
  apply (zero_sensitivity_readings
           (Sample.gyro_on (Sample.channel_with 1000 2 258048000000 7) 100
              Sample.quarter)
           (Sample.channel_with 1000 2 258048000000 7) F32.zero).
  - split; reflexivity.
  - simpl; lia.
  - reflexivity.
Defined.

(** X12.  The preset constructors store any offset.  With an offset that is
    infinite or not-a-number the correction [count * offset] is not a
    number either, whatever the count: every [GetAngle] stops at its
    conversion to [int64_t], which C++ leaves undefined, and records no
    error. *)
Theorem offset_not_finite_GetAngle (w : World) (a : AnalogInput) :
  usable w a ->
  IEEE.is_finite (m_offset (self w)) = false ->
  exists x,
    GetAngle w = Crash (UndefinedConversion x) w /\
    IEEE.is_finite x = false.
Proof.
  intros Hu Ho. open_world w. destruct Hu as [Hu1 Hu2].
  cbn [self m_error m_analog m_offset] in *. subst an err.
  unfold GetAngle, GetAccumulatorOutput. run.
  set (x := F32.mul (F32.of_Z (ai_accumulatorCount a)) off).
  assert (Hx : IEEE.is_finite x = false).
  { unfold x. destruct off as [s|s| |s m e]; try discriminate Ho;
      destruct (F32.of_Z (ai_accumulatorCount a)) as [s'|s'| |s' m' e'];
      reflexivity. }
  exists x. split; [|exact Hx].
  destruct x as [s|s| |s m e]; try discriminate Hx; reflexivity.
Qed.

Lemma offset_not_finite_GetAngle_witness :
  let w := final (AnalogGyro_shared_preset Sample.K Sample.silent Sample.raw
                    (Some Sample.channel) 100 S754_nan) in
  AnalogGyro_shared_preset Sample.K Sample.silent Sample.raw
    (Some Sample.channel) 100 S754_nan = Done tt w /\
  exists x,
    GetAngle w = Crash (UndefinedConversion x) w /\
    IEEE.is_finite x = false.
Proof.
  split; [vm_compute; reflexivity|].
  apply (offset_not_finite_GetAngle
           (final (AnalogGyro_shared_preset Sample.K Sample.silent Sample.raw
                     (Some Sample.channel) 100 S754_nan))
           (mkAnalogInput 0 true 0 10 (F64.of_Z 51200) (F64.of_Z 1000)
              (F64.of_Z 0) 0 0 100 0)).
  - split; vm_compute; reflexivity.
  - vm_compute; reflexivity.
Defined.

(** X13.  A calibration starts afresh: its outcome does not depend on the
    center and the offset the object held, nor on what the accumulator of
    the channel held.  Two usable objects that agree on the sensitivity,
    the PID source and the trace, on channels that agree on everything but
    the content of the accumulator, calibrate to the same result. *)
Theorem Calibrate_forgets (K : Constants)
    (elapse : double -> AnalogInput -> AnalogInput) (w1 w2 : World)
    (a1 a2 : AnalogInput) :
  usable w1 a1 -> usable w2 a2 ->
  InitAccumulator a1 = InitAccumulator a2 ->
  m_voltsPerDegreePerSecond (self w1) = m_voltsPerDegreePerSecond (self w2) ->
  m_pidSource (self w1) = m_pidSource (self w2) ->
  events w1 = events w2 ->
  forall w1', Calibrate K elapse w1 = Done tt w1' ->
              Calibrate K elapse w2 = Done tt w1'.
Proof.
  intros Hu1 Hu2 Ha Hs Hp He w1' H1.
  destruct (Calibrate_returns K elapse w1 w1' a1 Hu1 H1) as (c & Hc & ->).
  assert (Er : calibration_reading K elapse a1
               = calibration_reading K elapse a2).
  { unfold calibration_reading. rewrite Ha. reflexivity. }
  rewrite Er in *. rewrite Hs, Hp, He.
  apply Calibrate_defined; assumption.
Qed.

Lemma Calibrate_forgets_witness :
  let a1 := Sample.channel_with 1000 2 258048000000 7 in
  let a2 := Sample.channel_with 1000 2 0 0 in
  let w1 := Sample.gyro_on a1 100 Sample.quarter in
  let w2 := Sample.gyro_on a2 0 F32.zero in
  Calibrate Sample.K (Sample.gather 21 2) w1
    = Calibrate Sample.K (Sample.gather 21 2) w2 /\
  Calibrate Sample.K (Sample.gather 21 2) w2
    = Done tt (final (Calibrate Sample.K (Sample.gather 21 2) w1)).
Proof.
  split; [vm_compute; reflexivity|].
  apply (Calibrate_forgets Sample.K (Sample.gather 21 2)
           (Sample.gyro_on (Sample.channel_with 1000 2 258048000000 7) 100
              Sample.quarter)
           (Sample.gyro_on (Sample.channel_with 1000 2 0 0) 0 F32.zero)
           (Sample.channel_with 1000 2 258048000000 7)
           (Sample.channel_with 1000 2 0 0)).
  - split; reflexivity.
  - split; reflexivity.
  - reflexivity.
  - reflexivity.
  - reflexivity.
  - reflexivity.
  - vm_compute; reflexivity.
Defined.

(** X14.  The depths read back from the channel are shifted without a
    test: with 32 bits or more the shift count of [1 << bits] is not below
    the width of [int] and the behaviour is undefined.  [GetRate] and
    [SetDeadband] stop there whenever the oversampling depth is 32 or more,
    whatever the averaging depth.  [GetAngle] does not return whenever the
    averaging depth is 32 or more, whatever the oversampling depth: it
    stops at the shift once its correction has been computed, and before
    that if the correction itself is undefined.  None records an error or
    changes the state. *)
Theorem depth_out_of_range :
  (forall (w : World) (a : AnalogInput),
     usable w a -> 32 <= ai_oversampleBits a ->
     GetRate w = Crash (UndefinedShift (ai_oversampleBits a)) w) /\
  (forall (w : World) (a : AnalogInput) (v : float),
     usable w a -> 32 <= ai_oversampleBits a ->
     SetDeadband v w = Crash (UndefinedShift (ai_oversampleBits a)) w) /\
  (forall (w : World) (a : AnalogInput) (t : Z),
     usable w a -> 32 <= ai_averageBits a ->
     IEEE.to_integer INT64_MIN INT64_MAX
       (F32.mul (F32.of_Z (ai_accumulatorCount a)) (m_offset (self w)))
       = Some t ->
     INT64_MIN <= ai_accumulatorValue a - t <= INT64_MAX ->
     GetAngle w = Crash (UndefinedShift (ai_averageBits a)) w) /\
  (forall (w : World) (a : AnalogInput),
     usable w a -> 32 <= ai_averageBits a ->
     exists f, GetAngle w = Crash f w).
Proof.
  split; [|split; [|split]].
  - intros w a Hu Ho. rewrite (usable_inv w a Hu).
    unfold GetRate. run. unfold GetOversampleBits.
    rewrite shl1_undefined by assumption. reflexivity.
  - intros w a v Hu Ho. rewrite (usable_inv w a Hu).
    unfold SetDeadband. run. unfold GetOversampleBits.
    rewrite shl1_undefined by assumption. reflexivity.
  - intros w a t Hu Ha Ht Hr. open_world w. destruct Hu as [Hu1 Hu2].
    cbn [self m_error m_analog m_offset] in *. subst an err.
    unfold GetAngle, GetAccumulatorOutput. run. unfold GetAverageBits.
    rewrite Ht. rewrite int64_sub_defined by assumption.
    rewrite shl1_undefined by assumption. reflexivity.
  - intros w a Hu Ha. open_world w. destruct Hu as [Hu1 Hu2].
    cbn [self m_error m_analog m_offset] in *. subst an err.
    unfold GetAngle, GetAccumulatorOutput. run. unfold GetAverageBits.
    destruct (IEEE.to_integer INT64_MIN INT64_MAX
                (F32.mul (F32.of_Z (ai_accumulatorCount a)) off))
      as [t|]; [|eexists; reflexivity].
    unfold int64_sub.
    destruct ((INT64_MIN <=? ai_accumulatorValue a - t) &&
              (ai_accumulatorValue a - t <=? INT64_MAX));
      [|eexists; reflexivity].
    run. unfold GetAverageBits.
    rewrite shl1_undefined by assumption. eexists; reflexivity.
Qed.

(** A channel as [InitGyro] leaves its averaging depth, 0, with an
    oversampling depth of 32; and a channel with an averaging depth of 32
    and the oversampling depth of [InitGyro], 10. *)
Lemma depth_out_of_range_witness :
  let a := mkAnalogInput 0 true 0 32 (F64.of_Z 51200) (F64.of_Z 1000)
             (F64.of_Z 0) 5 7 0 0 in
  let b := mkAnalogInput 0 true 32 10 (F64.of_Z 51200) (F64.of_Z 1000)
             (F64.of_Z 0) 5 7 0 0 in
  GetRate (Sample.gyro_on a 0 Sample.quarter)
    = Crash (UndefinedShift 32) (Sample.gyro_on a 0 Sample.quarter) /\
  SetDeadband Sample.half (Sample.gyro_on a 0 Sample.quarter)
    = Crash (UndefinedShift 32) (Sample.gyro_on a 0 Sample.quarter) /\
  GetAngle (Sample.gyro_on b 0 Sample.quarter)
    = Crash (UndefinedShift 32) (Sample.gyro_on b 0 Sample.quarter) /\
  (exists f,
     GetAngle (Sample.gyro_on b 0 Sample.quarter)
       = Crash f (Sample.gyro_on b 0 Sample.quarter)).
Proof.
  split; [|split; [|split]].
  - apply (proj1 depth_out_of_range
             (Sample.gyro_on
                (mkAnalogInput 0 true 0 32 (F64.of_Z 51200) (F64.of_Z 1000)
                   (F64.of_Z 0) 5 7 0 0) 0 Sample.quarter)
             (mkAnalogInput 0 true 0 32 (F64.of_Z 51200) (F64.of_Z 1000)
                (F64.of_Z 0) 5 7 0 0)).
    + split; reflexivity.
    + simpl; lia.
  - apply (proj1 (proj2 depth_out_of_range)
             (Sample.gyro_on
                (mkAnalogInput 0 true 0 32 (F64.of_Z 51200) (F64.of_Z 1000)
                   (F64.of_Z 0) 5 7 0 0) 0 Sample.quarter)
             (mkAnalogInput 0 true 0 32 (F64.of_Z 51200) (F64.of_Z 1000)
                (F64.of_Z 0) 5 7 0 0) Sample.half).
    + split; reflexivity.
    + simpl; lia.
  - apply (proj1 (proj2 (proj2 depth_out_of_range))
             (Sample.gyro_on
                (mkAnalogInput 0 true 32 10 (F64.of_Z 51200) (F64.of_Z 1000)
                   (F64.of_Z 0) 5 7 0 0) 0 Sample.quarter)
             (mkAnalogInput 0 true 32 10 (F64.of_Z 51200) (F64.of_Z 1000)
                (F64.of_Z 0) 5 7 0 0) 1).
    + split; reflexivity.
    + simpl; lia.
    + vm_compute; reflexivity.
    + vm_compute. split; discriminate.
  - apply (proj2 (proj2 (proj2 depth_out_of_range))
             (Sample.gyro_on
                (mkAnalogInput 0 true 32 10 (F64.of_Z 51200) (F64.of_Z 1000)
                   (F64.of_Z 0) 5 7 0 0) 0 Sample.quarter)
             (mkAnalogInput 0 true 32 10 (F64.of_Z 51200) (F64.of_Z 1000)
                (F64.of_Z 0) 5 7 0 0)).
    + split; reflexivity.
    + simpl; lia.
Defined.

(** X15.  The preset constructors on a channel that can accumulate, when
    the shift and the deadband conversion of [InitGyro] are defined: they
    return a usable object that holds the given center and offset and the
    default sensitivity; the accumulator of the channel has been given the
    center and is clear, its deadband is zero, and the trace is that of
    [InitGyro] alone. *)
Theorem preset_construction (K : Constants)
    (new_AnalogInput : Z -> AnalogInput)
    (elapse : double -> AnalogInput -> AnalogInput) (raw : AnalogGyro)
    (channel : Z) (center : Z) (offset : float) :
  let a := new_AnalogInput channel in
  let b := ResetAccumulator
             (SetAccumulatorCenter center (initialised K elapse a)) in
  let w := mkWorld
             (mkAnalogGyro (Some b) (kDefaultVoltsPerDegreePerSecond K)
                offset center None kDisplacement)
             (InitGyro_trace (ai_channel (settled K elapse a))) in
  IsAccumulatorChannel a = true ->
  0 <= (kAverageBits K + kOversampleBits K) mod 2 ^ 32 < 31 ->
  0 <= ai_oversampleBits (settled K elapse a) < 31 ->
  IEEE.is_zero (ai_lsbWeight (settled K elapse a)) = false ->
  IEEE.is_nan (ai_lsbWeight (settled K elapse a)) = false ->
  AnalogGyro_channel_preset K new_AnalogInput elapse raw channel center
    offset = Done tt w /\
  AnalogGyro_shared_preset K elapse raw (Some a) center offset = Done tt w /\
  ai_accumulatorCenter b = center /\
  ai_accumulatorDeadband b = 0 /\
  GetAccumulatorOutput b = (0, 0).
Proof.
  intros a b w Ha Hs Hb Hl1 Hl2.
  assert (Hi : forall w0, usable w0 a -> events w0 = [] ->
               (InitGyro K elapse ;;;
                modify_self (set_center center) ;;;
                modify_self (set_offset offset) ;;;
                g <- get_self ;;
                analog_do (SetAccumulatorCenter (m_center g)) ;;;
                analog_do ResetAccumulator) w0 = Done tt w).
  { intros w0 Hu He. unfold bind at 1.
    rewrite (InitGyro_returns K elapse w0 a Hu Ha Hs Hb Hl1 Hl2).
    rewrite He. reflexivity. }
  split; [|split; [|repeat split]].
  - unfold AnalogGyro_channel_preset. unfold bind at 1.
    apply Hi; try reflexivity. split; reflexivity.
  - unfold AnalogGyro_shared_preset.
    apply Hi; try reflexivity. split; reflexivity.
Qed.

Lemma preset_construction_witness :
  let b := mkAnalogInput 0 true 0 10 (F64.of_Z 51200) (F64.of_Z 1000)
             (F64.of_Z 0) 0 0 100 0 in
  let w := mkWorld
             (mkAnalogGyro (Some b)
                (kDefaultVoltsPerDegreePerSecond Sample.K) Sample.quarter 100
                None kDisplacement)
             [EvWait F64.lit_0_1; EvHALReport 0; EvLiveWindowAddSensor 0] in
  AnalogGyro_channel_preset Sample.K (fun _ => Sample.channel)
    (Sample.gather 21 2) Sample.raw 0 100 Sample.quarter = Done tt w /\
  AnalogGyro_shared_preset Sample.K (Sample.gather 21 2) Sample.raw
    (Some Sample.channel) 100 Sample.quarter = Done tt w.
Proof.
  destruct (preset_construction Sample.K (fun _ => Sample.channel)
              (Sample.gather 21 2) Sample.raw 0 100 Sample.quarter)
    as (H1 & H2 & _).
  - reflexivity.
  - vm_compute. split; [discriminate|reflexivity].
  - vm_compute. split; [discriminate|reflexivity].
  - reflexivity.
  - reflexivity.
  - split.
    + rewrite H1. vm_compute. reflexivity.
    + rewrite H2. vm_compute. reflexivity.
Defined.

(** X16.  [SetDeadband] does not check its argument.  With a voltage that
    is infinite or not-a-number the count is not a number either: nothing
    is passed to the channel, the run stops at the conversion to
    [int32_t], which C++ leaves undefined, and no error is recorded. *)
Theorem SetDeadband_not_finite (w : World) (a : AnalogInput)
    (volts : float) :
  usable w a -> 0 <= ai_oversampleBits a < 31 ->
  IEEE.is_finite volts = false ->
  exists x,
    SetDeadband volts w = Crash (UndefinedConversion x) w /\
    IEEE.is_finite x = false.
Proof.
  intros Hu Hb Hv. open_world w. destruct Hu as [Hu1 Hu2].
  cbn [self m_error m_analog] in *. subst an err.
  unfold SetDeadband. run. unfold GetOversampleBits.
  rewrite shl1_defined by assumption. unfold GetLSBWeight.
  set (x := F64.mul
              (F64.div (F64.mul (F64.of_float volts) F64.lit_1e9)
                       (ai_lsbWeight a))
              (F64.of_Z (2 ^ ai_oversampleBits a))).
  assert (Hx : IEEE.is_finite x = false).
  { unfold x. pose proof (F64_of_pow2_finite (ai_oversampleBits a) Hb) as Hp.
    destruct volts as [sv|sv| |sv mv ev]; try discriminate Hv;
      destruct (ai_lsbWeight a) as [sl|sl| |sl ml el];
      destruct (F64.of_Z (2 ^ ai_oversampleBits a)) as [sp|sp| |sp mp ep];
      try discriminate Hp; reflexivity. }
  exists x. split; [|exact Hx].
  destruct x as [s|s| |s m e]; try discriminate Hx; reflexivity.
Qed.

Lemma SetDeadband_not_finite_witness :
  let w := Sample.gyro_on (Sample.channel_with 1000 2 5 7) 0 F32.zero in
  exists x,
    SetDeadband (S754_infinity false) w = Crash (UndefinedConversion x) w /\
    IEEE.is_finite x = false.
Proof.
  apply (SetDeadband_not_finite
           (Sample.gyro_on (Sample.channel_with 1000 2 5 7) 0 F32.zero)
           (Sample.channel_with 1000 2 5 7) (S754_infinity false)).
  - split; reflexivity.
  - simpl; lia.
  - reflexivity.
Defined.

(** ** The sample rate *)

(** X17.  The sample rate that [InitGyro] gives the channel is formed in
    [float] as [kSamplesPerSecond * (1 << (kAverageBits + kOversampleBits))]
    and passed as a [double].  Neither step rounds: when the product does
    not overflow, the rate programmed is the samples per second times
    [2 ^ (kAverageBits + kOversampleBits)] exactly. *)
Theorem InitGyro_sample_rate_exact (K : Constants) (a : AnalogInput) :
  let n := (kAverageBits K + kOversampleBits K) mod 2 ^ 32 in
  F32.valid (kSamplesPerSecond K) = true ->
  IEEE.is_finite (kSamplesPerSecond K) = true ->
  0 <= n < 31 ->
  IEEE.is_finite (F32.mul (kSamplesPerSecond K) (F32.of_Z (2 ^ n))) = true ->
  IEEE.is_finite (GetSampleRate (configured K a)) = true /\
  (IEEE.SF2Q (GetSampleRate (configured K a)) ==
   IEEE.SF2Q (kSamplesPerSecond K) * inject_Z (2 ^ n))%Q.
Proof.
  intros n Hv Hfin Hn Hf.
  assert (Hx : exists v, represents (kSamplesPerSecond K) v).
  { destruct (kSamplesPerSecond K) as [s|s| |s m e]; try discriminate Hfin.
    - exists 0. reflexivity.
    - eexists. split; [|reflexivity].
      destruct (valid32_finite s m e Hv) as [_ He]. unfold scale. lia. }
  destruct Hx as (v & Hx).
  destruct (F32_mul_pow2 (kSamplesPerSecond K) n v Hv Hx Hn Hf) as [Hv' Hr].
  apply (F64_of_float_represents _ _ Hv') in Hr.
  unfold GetSampleRate, configured. cbn [SetSampleRate ai_sampleRate].
  fold n. split; [apply (represents_is_finite _ _ Hr)|].
  rewrite (SF2Q_represents _ _ Hr), (SF2Q_represents _ _ Hx).
  rewrite inject_Z_mult. field.
  rewrite Zpower_Qpower by (unfold scale; lia).
  apply Qpower_not_0. discriminate.
Qed.

Lemma InitGyro_sample_rate_exact_witness :
  (IEEE.SF2Q (kSamplesPerSecond Sample.K) == 50)%Q /\
  IEEE.is_finite (GetSampleRate (configured Sample.K Sample.channel)) = true /\
  (IEEE.SF2Q (GetSampleRate (configured Sample.K Sample.channel)) ==
   IEEE.SF2Q (kSamplesPerSecond Sample.K) * inject_Z (2 ^ 10))%Q.
Proof.
  split; [reflexivity|].
  apply (InitGyro_sample_rate_exact Sample.K Sample.channel).
  - reflexivity.
  - reflexivity.
  - vm_compute. split; [discriminate|reflexivity].
  - reflexivity.
Defined.

(** ** When a calibration returns *)

(** The mean of a window whose accumulated value is not negative and
    below [2 ^ 27] times the number of samples: a zero or a positive
    number below [2 ^ 30]. *)
Lemma mean_magnitude (value count : Z) :
  0 <= value < 2 ^ 63 -> 0 < count < 2 ^ 32 ->
  value < 2 ^ 27 * count ->
  match F32.div (F32.of_Z value) (F32.of_Z count) with
  | S754_zero s => s = false
  | S754_finite s m e => s = false /\ Zdigits2 (Zpos m) + e <= 30
  | _ => False
  end.
Proof.
  intros Hv Hc Hm.
  destruct (F32_of_Z_magnitude count) as (m2 & e2 & E2 & Hm2).
  { split; [lia|]. apply Z.lt_trans with (2 ^ 32); [lia|reflexivity]. }
  rewrite E2.
  destruct (Z.eq_dec value 0) as [->|Hv0].
  { reflexivity. }
  destruct (F32_of_Z_magnitude value) as (m1 & e1 & E1 & Hm1).
  { split; [lia|]. apply Z.lt_trans with (2 ^ 63); [lia|reflexivity]. }
  rewrite E1.
  pose proof (Zdigits2_spec count ltac:(lia)) as [_ Hcu].
  pose proof (Zdigits2_pos count ltac:(lia)) as Hdc.
  assert (Hdv : Zdigits2 value <= 27 + Zdigits2 count).
  { apply Zdigits2_bound; [|lia]. split; [lia|].
    rewrite Z.pow_add_r by lia. nia. }
  apply (SFdiv_cases F32.prec F32.emax ltac:(reflexivity) false m1 e1 false
           m2 e2 30).
  - lia.
  - vm_compute. discriminate.
  - vm_compute. discriminate.
Qed.

(** For such a mean the conversion of [(double)mean + .5] to the unsigned
    center is defined. *)
Lemma center_defined (x : float) :
  F32.valid x = true ->
  match x with
  | S754_zero s => s = false
  | S754_finite s m e => s = false /\ Zdigits2 (Zpos m) + e <= 30
  | _ => False
  end ->
  exists c,
    IEEE.to_integer 0 UINT32_MAX (F64.add (F64.of_float x) F64.lit_0_5)
      = Some c.
Proof.
  intros Hv Hx. destruct x as [s|s| |s m e]; try contradiction.
  - subst s. exists 0. reflexivity.
  - destruct Hx as [-> Hmag].
    destruct (valid32_finite false m e Hv) as [Hd He].
    destruct (mean_plus_half false m e Hv)
      as (z & ez & E & Hez & _ & _ & Hz).
    rewrite E. clear E.
    unfold scaled, cond_Zopp in Hz.
    pose proof (eq_refl : scale = 1074) as Escale.
    pose proof (pow2_pos (e + scale) ltac:(lia)) as Hpe.
    pose proof (pow2_pos (ez + scale) ltac:(lia)) as Hpz.
    pose proof (pow2_pos (scale - 1) ltac:(lia)) as Hph.
    pose proof (Zdigits2_spec (Zpos m) ltac:(lia)) as [_ Hmu].
    assert (Hup : Zpos m * 2 ^ (e + scale) < 2 ^ (30 + scale)).
    { apply Z.lt_le_trans with (2 ^ Zdigits2 (Zpos m) * 2 ^ (e + scale)).
      - apply Z.mul_lt_mono_pos_r; assumption.
      - pose proof (Zdigits2_pos (Zpos m) ltac:(lia)).
        rewrite <- Z.pow_add_r by lia. apply Z.pow_le_mono_r; lia. }
    assert (Hz0 : 0 < z).
    { apply Z.mul_lt_mono_pos_r with (2 ^ (ez + scale)); [exact Hpz|].
      rewrite Z.mul_0_l, Hz. lia. }
    destruct z as [|p|p]; try lia. cbn [binary_normalize].
    assert (Hlo : Zdigits2 (Zpos p) + (ez + scale) > scale - 1).
    { rewrite <- Zdigits2_mul_pow2 by lia. rewrite Hz.
      apply Z.lt_gt. apply Zdigits2_lower; lia. }
    assert (Hhi : Zdigits2 (Zpos p) + (ez + scale) <= 31 + scale).
    { rewrite <- Zdigits2_mul_pow2 by lia. rewrite Hz.
      apply Zdigits2_bound; [|lia]. split; [lia|].
      apply Z.lt_le_trans with (2 ^ (30 + scale) + 2 ^ (30 + scale)).
      - assert (2 ^ (scale - 1) < 2 ^ (30 + scale))
          by (apply Z.pow_lt_mono_r; lia).
        lia.
      - replace (31 + scale) with (1 + (30 + scale)) by lia.
        rewrite (Z.pow_add_r 2 1) by lia. change (2 ^ 1) with 2. lia. }
    destruct (binary_round_magnitude F64.prec F64.emax ltac:(reflexivity)
                false p ez) as (mz & gz & -> & Hg1 & Hg2).
    + unfold emin, F64.prec, F64.emax. lia.
    + unfold F64.emax. lia.
    + assert (Hmag' : Zdigits2 (Zpos mz) + gz <= 32) by lia.
      clear - Hmag'.
      set (t := match gz with
                | 0 => Zpos mz
                | Zpos _ => Zpos mz * 2 ^ gz
                | Zneg q => Zpos mz / 2 ^ Zpos q
                end).
      assert (Ht : 0 <= t < 2 ^ 32).
      { assert (Hb : forall n, 0 <= n -> Zdigits2 n <= 32 -> n < 2 ^ 32).
        { intros n Hn Hd. destruct (Z.eq_dec n 0) as [->|]; [reflexivity|].
          pose proof (Zdigits2_spec n ltac:(lia)) as [_ H].
          apply Z.lt_le_trans with (1 := H).
          apply Z.pow_le_mono_r; lia. }
        unfold t. destruct gz as [|q|q].
        - split; [lia|]. apply Hb; lia.
        - pose proof (pow2_pos (Zpos q) ltac:(lia)).
          split; [lia|]. apply Hb; [lia|].
          rewrite Zdigits2_mul_pow2 by lia. exact Hmag'.
        - pose proof (pow2_pos (Zpos q) ltac:(lia)).
          assert (0 <= Zpos mz / 2 ^ Zpos q) by (apply Z.div_pos; lia).
          split; [assumption|]. apply Hb; [assumption|].
          pose proof (Zdigits2_div_upper (Zpos mz) (Zpos q) ltac:(lia)
                        ltac:(lia)).
          change (Zneg q) with (- Zpos q) in Hmag'. lia. }
      exists t. unfold IEEE.to_integer, IEEE.truncate, cond_Zopp. fold t.
      replace (0 <=? t) with true by (symmetry; apply Z.leb_le; lia).
      replace (t <=? UINT32_MAX) with true; [reflexivity|].
      symmetry. apply Z.leb_le. unfold UINT32_MAX. lia.
Qed.

(** X18.  When a calibration returns.  If the window has gathered at least
    one sample and the accumulated value is not negative and is below
    [2 ^ 27] times the number of samples (both within their types), the
    quotient and the conversion to the unsigned center are defined:
    [Calibrate] returns, and leaves a usable object on the channel whose
    accumulator has the new center and is clear. *)
Theorem Calibrate_returns_on_window (K : Constants)
    (elapse : double -> AnalogInput -> AnalogInput) (w : World)
    (a : AnalogInput) :
  usable w a ->
  0 <= ai_accumulatorValue (calibration_reading K elapse a) < 2 ^ 63 ->
  0 < ai_accumulatorCount (calibration_reading K elapse a) < 2 ^ 32 ->
  ai_accumulatorValue (calibration_reading K elapse a)
    < 2 ^ 27 * ai_accumulatorCount (calibration_reading K elapse a) ->
  exists w',
    Calibrate K elapse w = Done tt w' /\
    usable w'
      (ResetAccumulator
         (SetAccumulatorCenter (m_center (self w'))
            (calibration_reading K elapse a))) /\
    0 <= m_center (self w') <= UINT32_MAX.
Proof.
  intros Hu Hv Hc Hm.
  destruct (center_defined (mean_of (calibration_reading K elapse a)))
    as (c & Hconv).
  - apply mean_valid.
  - apply mean_magnitude; assumption.
  - eexists. split; [apply (Calibrate_defined K elapse w a c Hu Hconv)|].
    split; [split; reflexivity|].
    apply (to_integer_Some _ _ _ _ Hconv).
Qed.

Lemma Calibrate_returns_on_window_witness :
  let w := Sample.gyro_on Sample.channel 0 F32.zero in
  exists w',
    Calibrate Sample.K (Sample.gather 100000001 3) w = Done tt w' /\
    usable w'
      (ResetAccumulator
         (SetAccumulatorCenter (m_center (self w'))
            (calibration_reading Sample.K (Sample.gather 100000001 3)
               Sample.channel))) /\
    0 <= m_center (self w') <= UINT32_MAX.
Proof.
  apply (Calibrate_returns_on_window Sample.K (Sample.gather 100000001 3)
           (Sample.gyro_on Sample.channel 0 F32.zero) Sample.channel).
  - split; reflexivity.
  - vm_compute. split; [discriminate|reflexivity].
  - vm_compute. split; reflexivity.
  - vm_compute. reflexivity.
Defined.

(** ** When the angle is defined *)

(** The correction [count * offset] for a count of 32 bits and an offset
    below [2 ^ 28]: a number below [2 ^ 62]. *)
Lemma correction_below (count : Z) (offset : float) :
  0 <= count < 2 ^ 32 -> F32.valid offset = true ->
  below_pow2 offset 28 ->
  below_pow2 (F32.mul (F32.of_Z count) offset) 62.
Proof.
  intros Hc Hv Ho.
  destruct (Z.eq_dec count 0) as [->|Hc0].
  { change (F32.of_Z 0) with (S754_zero false).
    destruct offset as [s|s| |s m e]; try contradiction; exact I. }
  destruct (F32_of_Z_magnitude count) as (m1 & e1 & E1 & Hm1).
  { split; [lia|]. apply Z.lt_trans with (2 ^ 32); [lia|reflexivity]. }
  assert (Hv1 : F32.valid (F32.of_Z count) = true)
    by apply binary_normalize_valid.
  rewrite E1 in *.
  destruct offset as [s|s| |s m e]; try contradiction; [exact I|].
  unfold below_pow2 in Ho.
  pose proof (Zdigits2_pos count ltac:(lia)) as Hdc.
  pose proof (Zdigits2_bound count 32 ltac:(lia) ltac:(lia)) as Hdc'.
  pose proof (Zdigits2_pos (Zpos m) ltac:(lia)) as Hdm.
  assert (Hd1 : Zdigits2 (Zpos m1) = 24).
  { unfold F32.valid, valid_binary, bounded, canonical_mantissa in Hv1.
    apply andb_prop in Hv1. destruct Hv1 as [H1 _].
    apply Z.eqb_eq in H1.
    change (Zpos (digits2_pos m1)) with (Zdigits2 (Zpos m1)) in H1.
    unfold fexp, emin, F32.prec, F32.emax in H1. lia. }
  pose proof (SFmul_cases F32.prec F32.emax ltac:(reflexivity) false m1 e1
                s m e 62) as H.
  unfold F32.mul.
  destruct (SFmul F32.prec F32.emax (S754_finite false m1 e1)
              (S754_finite s m e)) as [s'|s'| |s' m' e'].
  - exact I.
  - apply H; [unfold F32.prec; lia|lia|vm_compute; discriminate
             |vm_compute; discriminate].
  - apply H; [unfold F32.prec; lia|lia|vm_compute; discriminate
             |vm_compute; discriminate].
  - apply H; [unfold F32.prec; lia|lia|vm_compute; discriminate
             |vm_compute; discriminate].
Qed.

Lemma GetAngle_defined (w : World) (a : AnalogInput) :
  usable w a ->
  0 <= ai_averageBits a < 31 ->
  0 <= ai_accumulatorCount a < 2 ^ 32 ->
  - 2 ^ 62 <= ai_accumulatorValue a <= 2 ^ 62 ->
  F32.valid (m_offset (self w)) = true ->
  below_pow2 (m_offset (self w)) 28 ->
  exists t,
    IEEE.to_integer INT64_MIN INT64_MAX
      (F32.mul (F32.of_Z (ai_accumulatorCount a)) (m_offset (self w)))
      = Some t /\
    Z.abs t < 2 ^ 62 /\
    GetAngle w =
      Done (angle_of (ai_accumulatorValue a - t) (ai_lsbWeight a)
              (ai_averageBits a) (ai_sampleRate a)
              (m_voltsPerDegreePerSecond (self w))) w.
Proof.
  intros Hu Hb Hc Hr Hv Ho.
  destruct (truncate_below _ 62 ltac:(lia)
              (correction_below _ _ Hc Hv Ho)) as (t & Ht & Hbt).
  assert (E62 : 2 ^ 62 = 4611686018427387904) by reflexivity.
  assert (Hconv : IEEE.to_integer INT64_MIN INT64_MAX
                    (F32.mul (F32.of_Z (ai_accumulatorCount a))
                             (m_offset (self w))) = Some t).
  { unfold IEEE.to_integer. rewrite Ht.
    replace (INT64_MIN <=? t) with true
      by (symmetry; apply Z.leb_le; unfold INT64_MIN; simpl; lia).
    replace (t <=? INT64_MAX) with true
      by (symmetry; apply Z.leb_le; unfold INT64_MAX; simpl; lia).
    reflexivity. }
  exists t. split; [exact Hconv|]. split; [exact Hbt|].
  apply GetAngle_returns; try assumption.
  unfold INT64_MIN, INT64_MAX. simpl. lia.
Qed.


(** X19.  When the angle is defined.  On a usable object whose offset is a
    number below [2 ^ 28] in absolute value, with an averaging depth below
    31, a sample count within [uint32_t] and an accumulated value between
    [- 2 ^ 62] and [2 ^ 62], the correction converts to [int64_t], the
    subtraction does not overflow and [GetAngle] returns. *)
Theorem GetAngle_returns_in_range (w : World) (a : AnalogInput) :
  usable w a ->
  0 <= ai_averageBits a < 31 ->
  0 <= ai_accumulatorCount a < 2 ^ 32 ->
  - 2 ^ 62 <= ai_accumulatorValue a <= 2 ^ 62 ->
  F32.valid (m_offset (self w)) = true ->
  below_pow2 (m_offset (self w)) 28 ->
  exists t,
    IEEE.to_integer INT64_MIN INT64_MAX
      (F32.mul (F32.of_Z (ai_accumulatorCount a)) (m_offset (self w)))
      = Some t /\
    Z.abs t < 2 ^ 62 /\
    GetAngle w =
      Done (angle_of (ai_accumulatorValue a - t) (ai_lsbWeight a)
              (ai_averageBits a) (ai_sampleRate a)
              (m_voltsPerDegreePerSecond (self w))) w.
Proof. exact (GetAngle_defined w a). Qed.

Lemma GetAngle_returns_in_range_witness :
  let a := Sample.channel_with 1000 2 258048000000 7 in
  let w := Sample.gyro_on a 100 Sample.quarter in
  exists t,
    IEEE.to_integer INT64_MIN INT64_MAX
      (F32.mul (F32.of_Z (ai_accumulatorCount a)) (m_offset (self w)))
      = Some t /\
    Z.abs t < 2 ^ 62 /\
    GetAngle w =
      Done (angle_of (ai_accumulatorValue a - t) (ai_lsbWeight a)
              (ai_averageBits a) (ai_sampleRate a)
              (m_voltsPerDegreePerSecond (self w))) w.
Proof.
  apply (GetAngle_returns_in_range
           (Sample.gyro_on (Sample.channel_with 1000 2 258048000000 7) 100
              Sample.quarter)
           (Sample.channel_with 1000 2 258048000000 7)).
  - split; reflexivity.
  - simpl; lia.
  - vm_compute. split; [discriminate|reflexivity].
  - vm_compute. split; discriminate.
  - reflexivity.
  - vm_compute. discriminate.
Defined.

(** The offset that a calibration leaves is below 2 in absolute value. *)
Lemma offset_below (x : float) (c : Z) :
  F32.valid x = true ->
  IEEE.to_integer 0 UINT32_MAX (F64.add (F64.of_float x) F64.lit_0_5)
    = Some c ->
  F32.valid (F32.sub x (F32.of_Z c)) = true /\
  below_pow2 (F32.sub x (F32.of_Z c)) 1.
Proof.
  intros Hv Hc. split.
  { apply SFsub_valid; [exact Hv|apply binary_normalize_valid]. }
  destruct (to_integer_Some _ _ _ _ Hc) as [_ [Hc0 _]].
  destruct (calibration_exact x c Hv Hc) as (v & _ & Ec & Ho).
  pose proof (eq_refl : scale = 1074) as Escale.
  pose proof (pow2_pos scale ltac:(lia)) as HS.
  pose proof (pow2_pos (scale - 1) ltac:(lia)) as HH.
  pose proof scale_half as E2.
  set (S := 2 ^ scale) in *. set (H := 2 ^ (scale - 1)) in *.
  assert (Hb : Z.abs (v - c * S) < 2 * S).
  { pose proof (Z.quot_rem' (v + H) S) as Eq. rewrite <- Ec in Eq.
    destruct (Z_lt_le_dec (v + H) 0) as [Hn|Hp].
    - pose proof (Z.rem_bound_pos (- (v + H)) S ltac:(lia) ltac:(lia))
        as Hr.
      rewrite Z.rem_opp_l' in Hr.
      assert (c = 0) by nia.
      subst c. lia.
    - pose proof (Z.rem_bound_pos (v + H) S ltac:(lia) ltac:(lia)). lia. }
  destruct (F32.sub x (F32.of_Z c)) as [s|s| |s m e]; try contradiction.
  - exact I.
  - destruct Ho as [He Ho]. unfold scaled in Ho. unfold below_pow2.
    pose proof (pow2_pos (e + scale) ltac:(lia)) as Hpe.
    assert (Hm : Zpos m * 2 ^ (e + scale) < 2 ^ (scale + 1)).
    { replace (2 ^ (scale + 1)) with (2 * S)
        by (unfold S; rewrite Z.pow_add_r by (unfold scale; lia);
            change (2 ^ 1) with 2; lia).
      rewrite <- Ho in Hb. rewrite Z.abs_mul, abs_cond_Zopp in Hb.
      rewrite (Z.abs_eq (2 ^ (e + scale))) in Hb by lia.
      rewrite (Z.abs_eq (Zpos m)) in Hb by lia. exact Hb. }
    pose proof (Zdigits2_bound (Zpos m * 2 ^ (e + scale)) (scale + 1)
                  ltac:(lia) ltac:(lia)) as Hd.
    rewrite Zdigits2_mul_pow2 in Hd by lia. lia.
Qed.

(** X20.  After a calibration that returned, the angle is defined: on
    every later state of the channel with an averaging depth below 31, a
    sample count within [uint32_t] and an accumulated value between
    [- 2 ^ 62] and [2 ^ 62], [GetAngle] returns. *)
Theorem calibrated_GetAngle_returns (K : Constants)
    (elapse : double -> AnalogInput -> AnalogInput) (w w' : World)
    (a a' : AnalogInput) :
  usable w a ->
  Calibrate K elapse w = Done tt w' ->
  0 <= ai_averageBits a' < 31 ->
  0 <= ai_accumulatorCount a' < 2 ^ 32 ->
  - 2 ^ 62 <= ai_accumulatorValue a' <= 2 ^ 62 ->
  exists r, GetAngle (with_channel a' w') = Done r (with_channel a' w').
Proof.
  intros Hu Hc Hb Hn Hr.
  destruct (Calibrate_returns K elapse w w' a Hu Hc) as (c & Hconv & ->).
  destruct (offset_below _ c (mean_valid (calibration_reading K elapse a))
              Hconv) as [Hv Ho].
  destruct (GetAngle_defined
              (with_channel a'
                 (mkWorld
                    (mkAnalogGyro
                       (Some (ResetAccumulator
                                (SetAccumulatorCenter c
                                   (calibration_reading K elapse a))))
                       (m_voltsPerDegreePerSecond (self w))
                       (F32.sub (mean_of (calibration_reading K elapse a))
                                (F32.of_Z c))
                       c None (m_pidSource (self w)))
                    (events w ++
                     [EvWait (F64.of_float (kCalibrationSampleTime K))])))
              a') as (t & _ & _ & E); try assumption.
  - split; reflexivity.
  - cbn [with_channel self set_analog m_offset].
    destruct (F32.sub (mean_of (calibration_reading K elapse a))
                      (F32.of_Z c)) as [s|s| |s m e];
      try contradiction; [exact I|].
    unfold below_pow2 in *. lia.
  - eexists. exact E.
Qed.

Lemma calibrated_GetAngle_returns_witness :
  let w := Sample.gyro_on Sample.channel 0 F32.zero in
  let w' := final (Calibrate Sample.K (Sample.gather 21 2) w) in
  let a' := Sample.channel_with 1000 2 258048000000 7 in
  exists r, GetAngle (with_channel a' w') = Done r (with_channel a' w').
Proof.
  apply (calibrated_GetAngle_returns Sample.K (Sample.gather 21 2)
           (Sample.gyro_on Sample.channel 0 F32.zero)
           (final (Calibrate Sample.K (Sample.gather 21 2)
                     (Sample.gyro_on Sample.channel 0 F32.zero)))
           Sample.channel (Sample.channel_with 1000 2 258048000000 7)).
  - split; reflexivity.
  - vm_compute; reflexivity.
  - simpl; lia.
  - vm_compute. split; [discriminate|reflexivity].
  - vm_compute. split; discriminate.
Defined.

(** ** When the deadband is defined *)

Lemma deadband_below (volts : float) (lsbWeight : double) (n kv kl : Z) :
  F32.valid volts = true -> below_pow2 volts kv ->
  at_least_pow2 lsbWeight kl -> 0 <= n < 31 ->
  -64 <= kv -> kl <= 64 -> kv + n + 3 <= kl ->
  below_pow2 (deadband_of volts lsbWeight n) 31.
Proof.
  intros Hv Hx Hl Hn Hkv Hkl Hk. unfold deadband_of.
  assert (H1 : below_pow2 (F64.of_float volts) kv).
  { pose proof (F64_of_float_below volts kv Hv Hx) as H.
    destruct (F64.of_float volts); try contradiction; [exact I|apply H]. }
  pose proof (F64_mul_below (F64.of_float volts) F64.lit_1e9 kv 30 H1
                ltac:(vm_compute; split; [reflexivity|discriminate])
                ltac:(lia)) as H2.
  pose proof (F64_div_below _ lsbWeight (kv + 30 + 1) kl H2 Hl ltac:(lia))
    as H3.
  pose proof (F64_mul_below _ (F64.of_Z (2 ^ n)) (kv + 30 + 1 - kl + 1)
                (n + 1) H3 (F64_of_pow2_full n Hn) ltac:(lia)) as H4.
  apply below_pow2_le with (2 := H4). lia.
Qed.

(** X21.  When the deadband is defined.  On a usable object with an
    oversampling depth [bits] below 31, for a voltage below [2 ^ kv] in
    absolute value and an LSB weight of at least [2 ^ kl] in absolute
    value with [kv + bits + 3 <= kl], the count fits [int32_t]:
    [SetDeadband] returns and passes to the channel the count truncated
    toward zero, changing nothing else. *)
Theorem SetDeadband_returns_in_range (w : World) (a : AnalogInput)
    (volts : float) (kv kl : Z) :
  usable w a -> 0 <= ai_oversampleBits a < 31 ->
  F32.valid volts = true -> below_pow2 volts kv ->
  at_least_pow2 (ai_lsbWeight a) kl ->
  -64 <= kv -> kl <= 64 -> kv + ai_oversampleBits a + 3 <= kl ->
  exists d,
    SetDeadband volts w
      = Done tt (with_channel (SetAccumulatorDeadband d a) w) /\
    d = IEEE.Qtruncate
          (IEEE.SF2Q (deadband_of volts (ai_lsbWeight a)
                        (ai_oversampleBits a))) /\
    Z.abs d < 2 ^ 31.
Proof.
  intros Hu Hb Hv Hx Hl Hkv Hkl Hk.
  destruct (truncate_below _ 31 ltac:(lia)
              (deadband_below volts (ai_lsbWeight a) (ai_oversampleBits a)
                 kv kl Hv Hx Hl Hb Hkv Hkl Hk)) as (d & Hd & Hbd).
  assert (E31 : 2 ^ 31 = 2147483648) by reflexivity.
  exists d. split; [|split; [|exact Hbd]].
  - apply SetDeadband_returns; [assumption|assumption|].
    unfold IEEE.to_integer. rewrite Hd.
    replace (INT32_MIN <=? d) with true
      by (symmetry; apply Z.leb_le; unfold INT32_MIN; simpl; lia).
    replace (d <=? INT32_MAX) with true
      by (symmetry; apply Z.leb_le; unfold INT32_MAX; simpl; lia).
    reflexivity.
  - apply truncate_Qtruncate. exact Hd.
Qed.

Lemma SetDeadband_returns_in_range_witness :
  let a := Sample.channel_with 1000 2 0 0 in
  let w := Sample.gyro_on a 0 F32.zero in
  exists d,
    SetDeadband Sample.half w
      = Done tt (with_channel (SetAccumulatorDeadband d a) w) /\
    d = IEEE.Qtruncate
          (IEEE.SF2Q (deadband_of Sample.half (ai_lsbWeight a)
                        (ai_oversampleBits a))) /\
    Z.abs d < 2 ^ 31.
Proof.
  apply (SetDeadband_returns_in_range
           (Sample.gyro_on (Sample.channel_with 1000 2 0 0) 0 F32.zero)
           (Sample.channel_with 1000 2 0 0) Sample.half 0 9).
  - split; reflexivity.
  - simpl; lia.
  - reflexivity.
  - vm_compute. discriminate.
  - vm_compute. discriminate.
  - lia.
  - lia.
  - simpl; lia.
Defined.

(** ** Construction, in all *)

(** X22.  The constructor that takes a channel number, on a channel that
    can accumulate, when the shift and the deadband conversion of
    [InitGyro] are defined and the calibration window has gathered at least
    one sample, with an accumulated value that is not negative and below
    [2 ^ 27] times the number of samples: the constructor returns.  The
    object has no error, the default sensitivity and a center within
    [uint32_t]; the accumulator of its channel has that center and is
    clear. *)
Theorem construction_returns_on_window (K : Constants)
    (new_AnalogInput : Z -> AnalogInput)
    (elapse : double -> AnalogInput -> AnalogInput) (raw : AnalogGyro)
    (channel : Z) :
  let a := new_AnalogInput channel in
  let r := calibration_reading K elapse (initialised K elapse a) in
  IsAccumulatorChannel a = true ->
  0 <= (kAverageBits K + kOversampleBits K) mod 2 ^ 32 < 31 ->
  0 <= ai_oversampleBits (settled K elapse a) < 31 ->
  IEEE.is_zero (ai_lsbWeight (settled K elapse a)) = false ->
  IEEE.is_nan (ai_lsbWeight (settled K elapse a)) = false ->
  0 <= ai_accumulatorValue r < 2 ^ 63 ->
  0 < ai_accumulatorCount r < 2 ^ 32 ->
  ai_accumulatorValue r < 2 ^ 27 * ai_accumulatorCount r ->
  exists w b,
    AnalogGyro_channel K new_AnalogInput elapse raw channel = Done tt w /\
    usable w b /\
    ai_accumulatorCenter b = m_center (self w) /\
    GetAccumulatorOutput b = (0, 0) /\
    0 <= m_center (self w) <= UINT32_MAX /\
    m_voltsPerDegreePerSecond (self w) = kDefaultVoltsPerDegreePerSecond K.
Proof.
  intros a r Ha Hs Hb Hl1 Hl2 Hv Hc Hm.
  destruct (center_defined (mean_of r)) as (c & Hconv).
  - apply mean_valid.
  - apply mean_magnitude; assumption.
  - unfold AnalogGyro_channel, AnalogGyro_shared, bind. fold a.
    rewrite (InitGyro_returns K elapse (allocate raw (Some a)) a
               ltac:(split; reflexivity) Ha Hs Hb Hl1 Hl2).
    match goal with
    | |- context [Calibrate K elapse ?w0] =>
        rewrite (Calibrate_defined K elapse w0 (initialised K elapse a) c
                   ltac:(split; reflexivity) Hconv)
    end.
    eexists. eexists. split; [reflexivity|].
    split; [split; reflexivity|]. split; [reflexivity|].
    split; [reflexivity|]. split; [|reflexivity].
    apply (to_integer_Some _ _ _ _ Hconv).
Qed.

Lemma construction_returns_on_window_witness :
  exists w b,
    AnalogGyro_channel Sample.K (fun _ => Sample.channel)
      (Sample.gather 21 2) Sample.raw 0 = Done tt w /\
    usable w b /\
    ai_accumulatorCenter b = m_center (self w) /\
    GetAccumulatorOutput b = (0, 0) /\
    0 <= m_center (self w) <= UINT32_MAX /\
    m_voltsPerDegreePerSecond (self w)
      = kDefaultVoltsPerDegreePerSecond Sample.K.
Proof.
  apply (construction_returns_on_window Sample.K (fun _ => Sample.channel)
           (Sample.gather 21 2) Sample.raw 0).
  - reflexivity.
  - vm_compute. split; [discriminate|reflexivity].
  - vm_compute. split; [discriminate|reflexivity].
  - reflexivity.
  - reflexivity.
  - vm_compute. split; [discriminate|reflexivity].
  - vm_compute. split; reflexivity.
  - vm_compute. reflexivity.
Defined.
